(** * dev-utils: the script execution pipeline

    A shallow embedding of the server's [executeScript] (the module that
    imports [./types] and [./logger]), of [server/logger.ts]
    ([logExecution], [trimLogFile], [getRecentLogs]), of
    [server/parser.ts] and of the form of the client, with the parts of
    the JavaScript platform they rely on: the values of a JSON body,
    property lookup through [Object.prototype], [String()] with
    [Number::toString], [Array.prototype.join] and
    [String.prototype.split], the streaming UTF-8 [TextDecoder] (WHATWG
    Encoding) and the default controller of a [ReadableStream] (WHATWG
    Streams). *)

From Stdlib Require Import ZArith NArith Lia List DecimalString.
From Stdlib.Strings Require Import Ascii String Byte.
From stdpp Require Import gmap list.

Local Open Scope N_scope.

(** ** JavaScript strings and values *)

(** A JavaScript string, as its sequence of code points; no string here is
    cut inside a surrogate pair. *)
Abbreviation jsstring := (list N) (only parsing).

(** A string literal of the source (ASCII). *)
Definition lit (s : string) : jsstring :=
  List.map N_of_ascii (list_ascii_of_string s).

(** [lines.join(sep)] with a one-character separator. *)
Fixpoint join (sep : N) (lines : list jsstring) : jsstring :=
  match lines with
  | [] => []
  | [l] => l
  | l :: rest => l ++ sep :: join sep rest
  end.

(** ** Numbers *)

(** A Number: the double nearest to [m * 2^e] for [Finite m e] (ties to
    the even significand, as everywhere in IEEE 754 arithmetic and in
    [JSON.parse]), or one of the two infinities, or NaN. Every double is
    some [Finite m e]; the two zeros are not told apart. *)
Inductive Number : Type :=
  | Finite (m e : Z)
  | Infinity (negative : bool)
  | NaN.

Bind Scope Z_scope with Number.

(** An integer as a Number. *)
Definition integer (z : Z) : Number := Finite z 0.
Coercion integer : Z >-> Number.

(** The decimal digits of an integer that is not negative. *)
Definition digits_of (z : Z) : jsstring :=
  lit (NilZero.string_of_int (Z.to_int z)).

(** [a * 2^p * 10^q], for comparisons without fractions. *)
Record Scaled : Type := { sc_int : Z; sc_two : Z; sc_ten : Z }.

Definition scaled_compare (x y : Scaled) : comparison :=
  let p := Z.min (sc_two x) (sc_two y) in
  let q := Z.min (sc_ten x) (sc_ten y) in
  (sc_int x * 2 ^ (sc_two x - p) * 10 ^ (sc_ten x - q)
   ?= sc_int y * 2 ^ (sc_two y - p) * 10 ^ (sc_ten y - q))%Z.

(** [m / 2^k] rounded to the nearest integer, a tie to the even one. *)
Definition round_shift (m k : Z) : Z :=
  let q := Z.shiftr m k in
  let r := (m - Z.shiftl q k)%Z in
  let half := (2 ^ (k - 1))%Z in
  if (r <? half)%Z then q
  else if (half <? r)%Z then (q + 1)%Z
  else if Z.even q then q else (q + 1)%Z.

(** The double nearest to the positive [m * 2^e]: its significand of 53
    bits (fewer for a subnormal, 0 when the value rounds to zero) and
    its exponent (above 971 when the value rounds to infinity). *)
Definition significand_exponent (m e : Z) : Z * Z :=
  let ec := Z.max (e + Z.log2 m - 52) (-1074) in
  if (ec <=? e)%Z then (Z.shiftl m (e - ec), ec)
  else
    let mc := round_shift m (ec - e) in
    if (mc =? 2 ^ 53)%Z then (2 ^ 52, ec + 1)%Z else (mc, ec).

(** Whether the decimal [s * 10^q] is read back as the double
    [mc * 2^ec]: it lies between the midpoints to the neighbouring
    doubles, the midpoints included when [mc] is even. *)
Definition reads_back (mc ec s q : Z) : bool :=
  let below := if ((mc =? 2 ^ 52) && (-1074 <? ec))%Z then 1%Z else 2%Z in
  let lo := {| sc_int := 4 * mc - below; sc_two := ec - 2; sc_ten := 0 |} in
  let hi := {| sc_int := 4 * mc + 2; sc_two := ec - 2; sc_ten := 0 |} in
  let d := {| sc_int := s; sc_two := 0; sc_ten := q |} in
  match scaled_compare lo d, scaled_compare d hi with
  | Lt, Lt => true
  | Eq, Lt | Lt, Eq => Z.even mc
  | _, _ => false
  end.

(** The [n] with [10^(n-1) <= mc * 2^ec < 10^n]. *)
Definition decimal_exponent (mc ec : Z) : Z :=
  let v := {| sc_int := mc; sc_two := ec; sc_ten := 0 |} in
  let below n := match scaled_compare v {| sc_int := 1; sc_two := 0; sc_ten := n |} with
                 | Lt => true
                 | _ => false
                 end in
  let est := ((Z.log2 mc + ec) * 1233 / 4096)%Z in
  default (est + 3)%Z
    (List.find below [est - 1; est; est + 1; est + 2]%Z).

(** The decimal of [k] digits nearest to the double, when one is read
    back as it: its digits as an integer, with the exponent [n]. *)
Definition decimal_of_length (mc ec n k : Z) : option (Z * Z) :=
  let q := (n - k)%Z in
  let num := (mc * 2 ^ Z.max ec 0 * 10 ^ Z.max (- q) 0)%Z in
  let den := (2 ^ Z.max (- ec) 0 * 10 ^ Z.max q 0)%Z in
  let s_lo := (num / den)%Z in
  let s_hi := (s_lo + 1)%Z in
  let pick (s : Z) := if (s =? 10 ^ k)%Z then Some (10 ^ (k - 1), n + 1)%Z
                      else Some (s, n) in
  match reads_back mc ec s_lo q, reads_back mc ec s_hi q with
  | false, false => None
  | true, false => pick s_lo
  | false, true => pick s_hi
  | true, true =>
      match (2 * num ?= (2 * s_lo + 1) * den)%Z with
      | Lt => pick s_lo
      | Gt => pick s_hi
      | Eq => if Z.even s_lo then pick s_lo else pick s_hi
      end
  end.

(** The shortest such decimal: lengths are tried from [k] on. *)
Fixpoint shortest_decimal (fuel : nat) (mc ec n k : Z) : Z * Z :=
  match fuel with
  | O => (mc, n)
  | S fuel' =>
      match decimal_of_length mc ec n k with
      | Some sn => sn
      | None => shortest_decimal fuel' mc ec n (k + 1)
      end
  end.

(** [Number::toString] for a positive double, from the digits [s] and the
    exponent [n] (steps 6 to 10). *)
Definition format_decimal (s n : Z) : jsstring :=
  let ds := digits_of s in
  let k := Z.of_nat (length ds) in
  if ((k <=? n) && (n <=? 21))%Z then
    ds ++ List.repeat 48 (Z.to_nat (n - k))
  else if ((0 <? n) && (n <=? 21))%Z then
    firstn (Z.to_nat n) ds ++ lit "." ++ skipn (Z.to_nat n) ds
  else if ((-6 <? n) && (n <=? 0))%Z then
    lit "0." ++ List.repeat 48 (Z.to_nat (- n)) ++ ds
  else
    let e := (n - 1)%Z in
    let exponent := lit (if (e <? 0)%Z then "e-" else "e+") ++ digits_of (Z.abs e) in
    match ds with
    | [d] => [d] ++ exponent
    | d :: rest => d :: lit "." ++ rest ++ exponent
    | [] => exponent
    end.

(** [Number::toString] for the double nearest to a positive value. *)
Definition toString_positive (m e : Z) : jsstring :=
  let '(mc, ec) := significand_exponent m e in
  if (mc =? 0)%Z then lit "0"
  else if (971 <? ec)%Z then lit "Infinity"
  else
    let n := decimal_exponent mc ec in
    let '(s, n') := shortest_decimal 17 mc ec n 1 in
    format_decimal s n'.

(** Whether the Number is zero. *)
Definition Number_is_zero (x : Number) : bool :=
  match x with
  | Finite m e => (fst (significand_exponent (Z.abs m) e) =? 0)%Z
  | _ => false
  end.


(** [Number::toString(x)] in radix 10. *)
Definition Number_toString (x : Number) : jsstring :=
  match x with
  | NaN => lit "NaN"
  | Infinity false => lit "Infinity"
  | Infinity true => lit "-Infinity"
  | Finite m e =>
      if Number_is_zero x then lit "0"
      else match m with
           | Zneg _ => lit "-" ++ toString_positive (- m) e
           | _ => toString_positive m e
           end
  end.

(** ** Values *)

(** The values a parameter mapping parsed from JSON holds ([null],
    booleans, numbers, strings, arrays and plain objects with their own
    properties in order), [undefined], and what a lookup can inherit from
    [Object.prototype]: a built-in function, or [Object.prototype]
    itself. *)
#[warnings="-register-all"]
Inductive JSValue : Type :=
  | JUndefined
  | JNull
  | JBool (b : bool)
  | JNum (x : Number)
  | JStr (s : jsstring)
  | JArray (items : list JSValue)
  | JObject (members : list (jsstring * JSValue))
  | JFunction (name : jsstring)
  | JObjectPrototype.

(** The properties of [Object.prototype]: [constructor] is the function
    [Object], [__proto__] is an accessor whose getter returns the
    prototype of the object, and the others are functions of their own
    name. *)
Definition Object_prototype (k : jsstring) : option JSValue :=
  if bool_decide (k = lit "constructor") then Some (JFunction (lit "Object"))
  else if bool_decide (k = lit "__proto__") then Some JObjectPrototype
  else if existsb (fun name => bool_decide (k = lit name))
            ["toString"; "toLocaleString"; "valueOf"; "hasOwnProperty";
             "isPrototypeOf"; "propertyIsEnumerable"; "__defineGetter__";
             "__defineSetter__"; "__lookupGetter__"; "__lookupSetter__"]%string
  then Some (JFunction k)
  else None.

(** [params[name]] on a plain object, given by its own properties: a
    property the object has not is looked up in [Object.prototype], and
    reads as [undefined] when that has none either. *)
Definition prop_get (o : gmap (list N) JSValue) (k : jsstring) : JSValue :=
  match o !! k with
  | Some v => v
  | None => default JUndefined (Object_prototype k)
  end.

(** [Function.prototype.toString] on a built-in function, as
    JavaScriptCore prints it. *)
Definition native_function_text (name : jsstring) : jsstring :=
  lit "function " ++ name ++ lit "() {" ++ [10] ++ lit "    [native code]"
    ++ [10] ++ lit "}".

(** [String(value)]; [None] is the [TypeError] it throws. An array is
    joined with commas, [null] and [undefined] elements giving nothing; a
    plain object gives ["[object Object]"] through the inherited
    [toString], and cannot be converted when it has a [toString] of its
    own, which is no function. *)
Fixpoint String_ (v : JSValue) : option jsstring :=
  match v with
  | JUndefined => Some (lit "undefined")
  | JNull => Some (lit "null")
  | JBool true => Some (lit "true")
  | JBool false => Some (lit "false")
  | JNum x => Some (Number_toString x)
  | JStr s => Some s
  | JArray items =>
      option_map (join 44)
        ((fix elements (l : list JSValue) : option (list jsstring) :=
            match l with
            | [] => Some []
            | item :: rest =>
                match match item with
                      | JUndefined | JNull => Some []
                      | _ => String_ item
                      end, elements rest with
                | Some text, Some texts => Some (text :: texts)
                | _, _ => None
                end
            end) items)
  | JObject members =>
      if existsb (fun kv => bool_decide (fst kv = lit "toString")) members
      then None
      else Some (lit "[object Object]")
  | JFunction name => Some (native_function_text name)
  | JObjectPrototype => Some (lit "[object Object]")
  end.

(** [value === undefined || value === null || value === ''] *)
Definition is_missing (v : JSValue) : bool :=
  match v with
  | JUndefined => true
  | JNull => true
  | JStr [] => true
  | _ => false
  end.

(** [content.split(sep)] with a one-character separator: never empty, one
    more piece than there are separators. *)
Fixpoint split (sep : N) (s : jsstring) : list jsstring :=
  match s with
  | [] => [[]]
  | c :: s' =>
      if c =? sep then [] :: split sep s'
      else match split sep s' with
           | [] => [[c]]
           | l :: ls => (c :: l) :: ls
           end
  end.

(** [lines.slice(-n)] for a positive [n]: the last [n] elements, or all of
    them when there are fewer. *)
Definition slice_last {A} (n : nat) (l : list A) : list A :=
  skipn (length l - n) l.

(** [s.endsWith(suffix)] *)
Fixpoint startsWith (s pre : jsstring) : bool :=
  match pre, s with
  | [], _ => true
  | _ :: _, [] => false
  | p :: pre', c :: s' => (c =? p) && startsWith s' pre'
  end.

Definition endsWith (s suf : jsstring) : bool :=
  startsWith (rev s) (rev suf).

Definition NL : N := 10.

(** ** types.ts *)

Inductive ParamType : Type := TString | TNumber | TBoolean | TSelect.

Record ScriptParam : Type := {
  sp_name : jsstring;
  sp_type : ParamType;
  sp_required : bool
}.

Record ScriptMetadata : Type := {
  sm_name : jsstring;
  sm_params : list ScriptParam;
  sm_filePath : jsstring;
  sm_fileName : jsstring
}.

(** A call either returns, or throws an [Error] with a message, or
    throws the [TypeError] of a value that cannot be converted. *)
Inductive Completion (A : Type) : Type :=
  | Return (a : A)
  | Throw (message : jsstring)
  | ThrowTypeError.
Arguments Return {A} a.
Arguments Throw {A} message.
Arguments ThrowTypeError {A}.

(** ** The argument loop of [executeScript] (lines 19-29) *)

Definition missing_message (name : jsstring) : jsstring :=
  lit "Required parameter '" ++ name ++ lit "' is missing".

(** The loop [for (const param of script.params)], with [args] the array
    built so far. *)
Fixpoint build_args (ps : list ScriptParam) (params : gmap (list N) JSValue)
    (args : list jsstring) : Completion (list jsstring) :=
  match ps with
  | [] => Return args
  | param :: rest =>
      let value := prop_get params (sp_name param) in
      if sp_required param && is_missing value
      then Throw (missing_message (sp_name param))
      else if negb (is_missing value)
           then match String_ value with
                | Some text => build_args rest params (args ++ [text])
                | None => ThrowTypeError
                end
           else build_args rest params args
  end.

(** ** The platform's [TextDecoder] and [TextEncoder] (UTF-8)

    [new TextDecoder()] is the UTF-8 decoder of the WHATWG Encoding
    standard in replacement mode ([fatal] false, [ignoreBOM] false). Its
    state lives across [decode(value, { stream: true })] calls. *)

Record Utf8State : Type := {
  u_cp : N;       (* UTF-8 code point *)
  u_seen : N;     (* UTF-8 bytes seen *)
  u_needed : N;   (* UTF-8 bytes needed *)
  u_lower : N;    (* UTF-8 lower boundary *)
  u_upper : N     (* UTF-8 upper boundary *)
}.

Definition utf8_init : Utf8State :=
  {| u_cp := 0; u_seen := 0; u_needed := 0; u_lower := 0x80; u_upper := 0xBF |}.

Definition REPLACEMENT : N := 0xFFFD.
Definition BOM : N := 0xFEFF.

Definition in_range (lo hi b : N) : bool := (lo <=? b) && (b <=? hi).

(** The handler's step for a byte when no sequence is open. *)
Definition utf8_lead (b : N) : Utf8State * list N :=
  if b <=? 0x7F then (utf8_init, [b])
  else if in_range 0xC2 0xDF b then
    ({| u_cp := N.land b 0x1F; u_seen := 0; u_needed := 1;
        u_lower := 0x80; u_upper := 0xBF |}, [])
  else if in_range 0xE0 0xEF b then
    ({| u_cp := N.land b 0xF; u_seen := 0; u_needed := 2;
        u_lower := if b =? 0xE0 then 0xA0 else 0x80;
        u_upper := if b =? 0xED then 0x9F else 0xBF |}, [])
  else if in_range 0xF0 0xF4 b then
    ({| u_cp := N.land b 0x7; u_seen := 0; u_needed := 3;
        u_lower := if b =? 0xF0 then 0x90 else 0x80;
        u_upper := if b =? 0xF4 then 0x8F else 0xBF |}, [])
  else (utf8_init, [REPLACEMENT]).

(** The handler for one byte. A byte outside the boundaries of an open
    sequence yields U+FFFD and is processed again as a first byte. *)
Definition utf8_handler (st : Utf8State) (b : N) : Utf8State * list N :=
  if u_needed st =? 0 then utf8_lead b
  else if negb (in_range (u_lower st) (u_upper st) b) then
    let '(st', out) := utf8_lead b in (st', REPLACEMENT :: out)
  else
    let cp := N.lor (N.shiftl (u_cp st) 6) (N.land b 0x3F) in
    let seen := u_seen st + 1 in
    if negb (seen =? u_needed st) then
      ({| u_cp := cp; u_seen := seen; u_needed := u_needed st;
          u_lower := 0x80; u_upper := 0xBF |}, [])
    else (utf8_init, [cp]).

Fixpoint utf8_run (st : Utf8State) (bytes : list byte) : Utf8State * list N :=
  match bytes with
  | [] => (st, [])
  | b :: rest =>
      let '(st1, out1) := utf8_handler st (Byte.to_N b) in
      let '(st2, out2) := utf8_run st1 rest in
      (st2, out1 ++ out2)
  end.

Record TextDecoder : Type := {
  td_utf8 : Utf8State;
  td_bomSeen : bool
}.

(** [new TextDecoder()] *)
Definition newTextDecoder : TextDecoder :=
  {| td_utf8 := utf8_init; td_bomSeen := false |}.

(** [decoder.decode(value, { stream: true })]: no flush at the end of the
    input; the first code point ever output is dropped when it is U+FEFF. *)
Definition decode (d : TextDecoder) (value : list byte) : TextDecoder * jsstring :=
  let '(st, out) := utf8_run (td_utf8 d) value in
  match out with
  | [] => ({| td_utf8 := st; td_bomSeen := td_bomSeen d |}, [])
  | c :: rest =>
      ({| td_utf8 := st; td_bomSeen := true |},
       if td_bomSeen d then out else if c =? BOM then rest else out)
  end.

Definition byte_of_N (n : N) : byte :=
  match Byte.of_N n with Some b => b | None => x00 end.

(** The UTF-8 encoder, for one code point. *)
Definition utf8_encode_cp (cp : N) : list byte :=
  if cp <=? 0x7F then [byte_of_N cp]
  else if cp <=? 0x7FF then
    [byte_of_N (N.shiftr cp 6 + 0xC0);
     byte_of_N (N.lor 0x80 (N.land cp 0x3F))]
  else if cp <=? 0xFFFF then
    [byte_of_N (N.shiftr cp 12 + 0xE0);
     byte_of_N (N.lor 0x80 (N.land (N.shiftr cp 6) 0x3F));
     byte_of_N (N.lor 0x80 (N.land cp 0x3F))]
  else
    [byte_of_N (N.shiftr cp 18 + 0xF0);
     byte_of_N (N.lor 0x80 (N.land (N.shiftr cp 12) 0x3F));
     byte_of_N (N.lor 0x80 (N.land (N.shiftr cp 6) 0x3F));
     byte_of_N (N.lor 0x80 (N.land cp 0x3F))].

(** [new TextEncoder().encode(text)] *)
Definition encode (text : jsstring) : list byte :=
  List.concat (List.map utf8_encode_cp text).

(** A Unicode scalar value: a code point that is not a surrogate. *)
Definition is_scalar (cp : N) : bool :=
  (cp <=? 0x10FFFF) && negb (in_range 0xD800 0xDFFF cp).

(** ** logger.ts *)

Definition MAX_LINES : N := 35000.

Record LogCall : Type := {
  lc_scriptName : jsstring;
  lc_params : gmap (list N) JSValue;
  lc_output : list jsstring;
  lc_exitCode : option Z
}.

Section Logger.

(** [JSON.stringify], the platform's serializer. *)
Variable JSON_stringify : gmap (list N) JSValue -> jsstring.

(** The array [logLines] of [logExecution]; [timestamp] is
    [new Date().toISOString()]. *)
Definition logLines (timestamp : jsstring) (call : LogCall) : list jsstring :=
  [ [];
    List.repeat 61 80;
    lit "[" ++ timestamp ++ lit "] Executed: " ++ lc_scriptName call;
    lit "Parameters: " ++ JSON_stringify (lc_params call);
    lit "Exit Code: " ++
      match lc_exitCode call with
      | Some z => Number_toString z
      | None => lit "N/A"
      end;
    List.repeat 45 80 ]
  ++ lc_output call
  ++ [ List.repeat 61 80; [] ].

Definition logContent (timestamp : jsstring) (call : LogCall) : jsstring :=
  join NL (logLines timestamp call).

(** The log file: [None] while it does not exist. *)
Definition appendFile (file : option jsstring) (data : jsstring) : option jsstring :=
  Some (default [] file ++ data).

(** [trimLogFile]: keep only the last [MAX_LINES] lines. *)
Definition trimLogFile (file : option jsstring) : option jsstring :=
  match file with
  | None => None
  | Some content =>
      let lines := split NL content in
      if MAX_LINES <? N.of_nat (length lines)
      then Some (join NL (slice_last (N.to_nat MAX_LINES) lines))
      else Some content
  end.

(** [logExecution]: one append-plus-trim cycle on the log file. *)
Definition logExecution (timestamp : jsstring) (call : LogCall)
    (file : option jsstring) : option jsstring :=
  trimLogFile (appendFile file (logContent timestamp call)).

End Logger.

(** The number of lines of the log file, as [trimLogFile] counts them. *)
Definition line_count (file : option jsstring) : nat :=
  match file with
  | None => 0
  | Some content => length (split NL content)
  end.

(** ** The platform's [ReadableStream] default controller (WHATWG Streams)

    The underlying source of [executeScript] has [start] and [cancel] and
    no [pull]; the consumer holds a reader on the stream. *)

Inductive StreamState : Type := Readable | Closed | Errored.

Record Controller : Type := {
  c_state : StreamState;
  c_closeRequested : bool;
  c_queue : list jsstring;      (* chunks not yet read *)
  c_readRequests : nat          (* pending [read()] calls of the consumer *)
}.

Definition newController : Controller :=
  {| c_state := Readable; c_closeRequested := false;
     c_queue := []; c_readRequests := 0 |}.

Definition canCloseOrEnqueue (c : Controller) : bool :=
  match c_state c with
  | Readable => negb (c_closeRequested c)
  | _ => false
  end.

(** [controller.enqueue(chunk)]; [None] is the [TypeError] it throws. *)
Definition controller_enqueue (c : Controller) (chunk : jsstring) : option Controller :=
  if canCloseOrEnqueue c then
    Some (match c_readRequests c with
          | S n => {| c_state := c_state c; c_closeRequested := c_closeRequested c;
                      c_queue := c_queue c; c_readRequests := n |}
          | O => {| c_state := c_state c; c_closeRequested := c_closeRequested c;
                    c_queue := c_queue c ++ [chunk]; c_readRequests := 0 |}
          end)
  else None.

(** [controller.close()]; [None] is the [TypeError] it throws. *)
Definition controller_close (c : Controller) : option Controller :=
  if canCloseOrEnqueue c then
    Some (match c_queue c with
          | [] => {| c_state := Closed; c_closeRequested := true;
                     c_queue := []; c_readRequests := 0 |}
          | _ :: _ => {| c_state := c_state c; c_closeRequested := true;
                         c_queue := c_queue c; c_readRequests := c_readRequests c |}
          end)
  else None.

(** The promise of [start] rejects: the stream is errored if still readable. *)
Definition controller_error (c : Controller) : Controller :=
  match c_state c with
  | Readable => {| c_state := Errored; c_closeRequested := c_closeRequested c;
                   c_queue := []; c_readRequests := 0 |}
  | _ => c
  end.

(** The consumer's [reader.read()]. *)
Definition reader_read (c : Controller) : Controller :=
  match c_state c with
  | Readable =>
      match c_queue c with
      | [] => {| c_state := Readable; c_closeRequested := c_closeRequested c;
                 c_queue := []; c_readRequests := S (c_readRequests c) |}
      | _ :: q =>
          match q, c_closeRequested c with
          | [], true => {| c_state := Closed; c_closeRequested := true;
                           c_queue := []; c_readRequests := 0 |}
          | _, _ => {| c_state := Readable; c_closeRequested := c_closeRequested c;
                       c_queue := q; c_readRequests := c_readRequests c |}
          end
      end
  | _ => c
  end.

(** The consumer's [cancel()]: [Some c'] when the source's [cancel] is run,
    [None] when the stream is already closed or errored. *)
Definition stream_cancel (c : Controller) : option Controller :=
  match c_state c with
  | Readable => Some {| c_state := Closed; c_closeRequested := c_closeRequested c;
                        c_queue := []; c_readRequests := 0 |}
  | _ => None
  end.

(** ** [executeScript] *)

Record SpawnOptions : Type := {
  so_cmd : list jsstring;
  so_cwd : jsstring
}.

(** What is outside one execution: the child processes spawned, the
    calls of [logExecution], and the operating system, which refuses some
    requests to spawn (a directory that does not exist, an interpreter
    that is not installed): [w_spawn_error] gives the message of the error
    that [spawn] then throws. *)
Record World : Type := {
  w_spawned : list SpawnOptions;
  w_ledger : list LogCall;
  w_spawn_error : SpawnOptions -> option jsstring
}.

Inductive Origin : Type := Stdout | Stderr | Synthetic.

(** One of the two reader loops: at [await reader.read()] with its decoder,
    or left. *)
Inductive ReaderTask : Type :=
  | Reading (decoder : TextDecoder)
  | Finished.

(** The body of [start]: at [await proc.exited], returned, or thrown out of
    its [catch] block. *)
Inductive MainTask : Type := Awaiting | Returned | Rejected.

(** The closure of one execution. [e_enqueued] lists the chunks the
    controller accepted, with the code path that enqueued each. *)
Record Exec : Type := {
  e_scriptName : jsstring;
  e_params : gmap (list N) JSValue;
  e_outputLines : list jsstring;
  e_controller : Controller;
  e_enqueued : list (Origin * jsstring);
  e_stdout : ReaderTask;
  e_stderr : ReaderTask;
  e_main : MainTask;
  e_kills : nat                 (* calls of [proc.kill()] *)
}.

Definition set_outputLines (e : Exec) (l : list jsstring) : Exec :=
  {| e_scriptName := e_scriptName e; e_params := e_params e;
     e_outputLines := l; e_controller := e_controller e;
     e_enqueued := e_enqueued e; e_stdout := e_stdout e;
     e_stderr := e_stderr e; e_main := e_main e; e_kills := e_kills e |}.

Definition set_stream (e : Exec) (c : Controller) (q : list (Origin * jsstring)) : Exec :=
  {| e_scriptName := e_scriptName e; e_params := e_params e;
     e_outputLines := e_outputLines e; e_controller := c;
     e_enqueued := q; e_stdout := e_stdout e;
     e_stderr := e_stderr e; e_main := e_main e; e_kills := e_kills e |}.

Definition set_stdout (e : Exec) (r : ReaderTask) : Exec :=
  {| e_scriptName := e_scriptName e; e_params := e_params e;
     e_outputLines := e_outputLines e; e_controller := e_controller e;
     e_enqueued := e_enqueued e; e_stdout := r;
     e_stderr := e_stderr e; e_main := e_main e; e_kills := e_kills e |}.

Definition set_stderr (e : Exec) (r : ReaderTask) : Exec :=
  {| e_scriptName := e_scriptName e; e_params := e_params e;
     e_outputLines := e_outputLines e; e_controller := e_controller e;
     e_enqueued := e_enqueued e; e_stdout := e_stdout e;
     e_stderr := r; e_main := e_main e; e_kills := e_kills e |}.

Definition set_main (e : Exec) (m : MainTask) : Exec :=
  {| e_scriptName := e_scriptName e; e_params := e_params e;
     e_outputLines := e_outputLines e; e_controller := e_controller e;
     e_enqueued := e_enqueued e; e_stdout := e_stdout e;
     e_stderr := e_stderr e; e_main := m; e_kills := e_kills e |}.

Definition set_kills (e : Exec) (n : nat) : Exec :=
  {| e_scriptName := e_scriptName e; e_params := e_params e;
     e_outputLines := e_outputLines e; e_controller := e_controller e;
     e_enqueued := e_enqueued e; e_stdout := e_stdout e;
     e_stderr := e_stderr e; e_main := e_main e; e_kills := n |}.

(** [outputLines.push(text)] *)
Definition push (text : jsstring) (e : Exec) : Exec :=
  set_outputLines e (e_outputLines e ++ [text]).

(** [controller.enqueue(text)] in the closure; [None] when it throws. *)
Definition enqueue (o : Origin) (text : jsstring) (e : Exec) : option Exec :=
  match controller_enqueue (e_controller e) text with
  | Some c => Some (set_stream e c (e_enqueued e ++ [(o, text)]))
  | None => None
  end.

(** [controller.close()] in the closure; [None] when it throws. *)
Definition close (e : Exec) : option Exec :=
  match controller_close (e_controller e) with
  | Some c => Some (set_stream e c (e_enqueued e))
  | None => None
  end.

(** The call [logExecution(script.name, params, outputLines, exitCode)]:
    the array is spread into [logLines] before the first [await]. *)
Definition call_logExecution (exitCode : option Z) (e : Exec) (w : World) : World :=
  {| w_spawned := w_spawned w;
     w_ledger := w_ledger w ++
       [ {| lc_scriptName := e_scriptName e; lc_params := e_params e;
            lc_output := e_outputLines e; lc_exitCode := exitCode |} ];
     w_spawn_error := w_spawn_error w |}.

Definition STDERR_TAG : jsstring := lit "[stderr] ".
Definition KILLED_MESSAGE : jsstring := lit "[Process killed by user]".

(** [`\n[Process exited with code ${proc.exitCode}]\n`]; the exit code is
    [null] for a child ended by a signal. *)
Definition exitMessage (exitCode : option Z) : jsstring :=
  NL :: lit "[Process exited with code " ++
    match exitCode with
    | Some z => Number_toString z
    | None => lit "null"
    end ++ lit "]" ++ [NL].

(** [`\n[Error: ${error}]\n`] *)
Definition errorMessage (error : jsstring) : jsstring :=
  NL :: lit "[Error: " ++ error ++ lit "]" ++ [NL].

(** [proc.exitCode || 0] *)
Definition exitCode_or_0 (exitCode : option Z) : Z :=
  match exitCode with
  | Some z => if (z =? 0)%Z then 0%Z else z
  | None => 0%Z
  end.

(** What can happen next to a running execution. *)
Inductive Event : Type :=
  | EvStdout (value : list byte)      (* a read of stdout resolves *)
  | EvStdoutDone                      (* ... with [done] *)
  | EvStdoutFail                      (* ... or rejects *)
  | EvStderr (value : list byte)
  | EvStderrDone
  | EvStderrFail
  | EvExited (exitCode : option Z)    (* [proc.exited] resolves *)
  | EvRead                            (* the consumer reads *)
  | EvCancel.                         (* the consumer cancels *)

Section Executor.

(** [String(error)] of the [TypeError] that [enqueue] and [close] throw. *)
Variable TypeError_text : jsstring.

(** One turn of the stdout loop (lines 71-77), the [catch] of line 78
    leaving the loop. *)
Definition stdout_turn (d : TextDecoder) (value : list byte) (e : Exec) : Exec :=
  let '(d', text) := decode d value in
  let e1 := push text e in
  match enqueue Stdout text e1 with
  | Some e2 => set_stdout e2 (Reading d')
  | None => set_stdout e1 Finished
  end.

(** One turn of the stderr loop (lines 91-97). *)
Definition stderr_turn (d : TextDecoder) (value : list byte) (e : Exec) : Exec :=
  let '(d', decoded) := decode d value in
  let text := STDERR_TAG ++ decoded in
  let e1 := push text e in
  match enqueue Stderr text e1 with
  | Some e2 => set_stderr e2 (Reading d')
  | None => set_stderr e1 Finished
  end.

(** The [catch] block of [start] (lines 114-120). *)
Definition start_catch (e : Exec) (w : World) : Exec * World :=
  let e1 := push (errorMessage TypeError_text) e in
  match enqueue Synthetic (errorMessage TypeError_text) e1 with
  | None => (set_stream (set_main e1 Rejected)
               (controller_error (e_controller e1)) (e_enqueued e1), w)
  | Some e2 =>
      match close e2 with
      | None => (set_stream (set_main e2 Rejected)
                   (controller_error (e_controller e2)) (e_enqueued e2), w)
      | Some e3 => (set_main e3 Returned, call_logExecution None e3 w)
      end
  end.

(** [start] after [await proc.exited] (lines 106-112). *)
Definition start_resume (exitCode : option Z) (e : Exec) (w : World) : Exec * World :=
  let e1 := push (exitMessage exitCode) e in
  match enqueue Synthetic (exitMessage exitCode) e1 with
  | None => start_catch e1 w
  | Some e2 =>
      match close e2 with
      | None => start_catch e2 w
      | Some e3 =>
          (set_main e3 Returned,
           call_logExecution (Some (exitCode_or_0 exitCode)) e3 w)
      end
  end.

(** The source's [cancel] (lines 123-128). *)
Definition source_cancel (e : Exec) (w : World) : Exec * World :=
  let e1 := set_kills e (S (e_kills e)) in
  let e2 := push KILLED_MESSAGE e1 in
  (e2, call_logExecution None e2 w).

Definition step (ev : Event) (s : Exec * World) : Exec * World :=
  let '(e, w) := s in
  match ev with
  | EvStdout value =>
      match e_stdout e with
      | Reading d => (stdout_turn d value e, w)
      | Finished => s
      end
  | EvStdoutDone | EvStdoutFail => (set_stdout e Finished, w)
  | EvStderr value =>
      match e_stderr e with
      | Reading d => (stderr_turn d value e, w)
      | Finished => s
      end
  | EvStderrDone | EvStderrFail => (set_stderr e Finished, w)
  | EvExited exitCode =>
      match e_main e with
      | Awaiting => start_resume exitCode e w
      | _ => s
      end
  | EvRead => (set_stream e (reader_read (e_controller e)) (e_enqueued e), w)
  | EvCancel =>
      match stream_cancel (e_controller e) with
      | Some c => source_cancel (set_stream e c (e_enqueued e)) w
      | None => s
      end
  end.

Definition run (s : Exec * World) (trace : list Event) : Exec * World :=
  fold_left (fun s ev => step ev s) trace s.

End Executor.

(** The signals [proc.kill] can send, as far as they matter here. *)
Inductive Signal : Type := SIGTERM | SIGKILL.

(** [proc.kill(signal)]: without an argument the signal is [SIGTERM]. *)
Definition kill_signal (argument : option Signal) : Signal :=
  default SIGTERM argument.

(** A signal that ends the child whatever it does: [SIGKILL]. [SIGTERM]
    asks the child to end, and a child can catch or ignore it. *)
Definition forceful (signal : Signal) : bool :=
  match signal with
  | SIGKILL => true
  | SIGTERM => false
  end.

(** The signals sent to the child of an execution: every call is the
    [proc.kill()] of line 124, without an argument. *)
Definition signals_sent (e : Exec) : list Signal :=
  List.repeat (kill_signal None) (e_kills e).

(** The state in which [executeScript] returns: both loops at their first
    read, [start] at [await proc.exited]. *)
Definition started (script : ScriptMetadata) (params : gmap (list N) JSValue) : Exec :=
  {| e_scriptName := sm_name script; e_params := params;
     e_outputLines := []; e_controller := newController;
     e_enqueued := [];
     e_stdout := Reading newTextDecoder; e_stderr := Reading newTextDecoder;
     e_main := Awaiting; e_kills := 0 |}.

(** The command for a file name, by its extension (lines 35-46). *)
Definition command_for (script : ScriptMetadata) (args : list jsstring)
    : Completion (list jsstring) :=
  if endsWith (sm_fileName script) (lit ".sh")
  then Return (lit "bash" :: sm_filePath script :: args)
  else if endsWith (sm_fileName script) (lit ".js")
  then Return (lit "bun" :: lit "run" :: sm_filePath script :: args)
  else if endsWith (sm_fileName script) (lit ".ts")
  then Return (lit "bun" :: lit "run" :: sm_filePath script :: args)
  else Throw (lit "Unsupported script type: " ++ sm_fileName script).

(** [workingDir || process.cwd()] *)
Definition cwd_for (workingDir : option jsstring) (process_cwd : jsstring) : jsstring :=
  match workingDir with
  | Some (c :: d) => c :: d
  | _ => process_cwd
  end.

(** [spawn(options)] (lines 49-55): the child is created, or the call
    throws and nothing is created. *)
Definition spawn (options : SpawnOptions) (w : World) : Completion World :=
  match w_spawn_error w options with
  | Some message => Throw message
  | None => Return {| w_spawned := w_spawned w ++ [options];
                      w_ledger := w_ledger w;
                      w_spawn_error := w_spawn_error w |}
  end.

(** The synchronous part of [executeScript]: bind the arguments, choose the
    command, spawn the child, set up the stream. *)
Definition executeScript (script : ScriptMetadata) (params : gmap (list N) JSValue)
    (workingDir : option jsstring) (process_cwd : jsstring) (w : World)
    : Completion Exec * World :=
  match build_args (sm_params script) params [] with
  | Throw m => (Throw m, w)
  | ThrowTypeError => (ThrowTypeError, w)
  | Return args =>
      match command_for script args with
      | Throw m => (Throw m, w)
      | ThrowTypeError => (ThrowTypeError, w)
      | Return cmd =>
          match spawn {| so_cmd := cmd; so_cwd := cwd_for workingDir process_cwd |} w with
          | Throw m => (Throw m, w)
          | ThrowTypeError => (ThrowTypeError, w)
          | Return w' => (Return (started script params), w')
          end
      end
  end.

(** ** Vocabulary of the properties, and sample data *)

(** The value of a parameter is absent ([undefined]), [null] or the empty
    string in the mapping. *)
Definition absent_null_or_empty (params : gmap (list N) JSValue) (name : jsstring) : Prop :=
  params !! name = None \/ params !! name = Some JUndefined \/
  params !! name = Some JNull \/ params !! name = Some (JStr []).

(** The same as the loop reads it: a name the mapping lacks counts only
    when [Object.prototype] has no property of that name. *)
Definition reads_missing (params : gmap (list N) JSValue) (name : jsstring) : Prop :=
  (params !! name = None /\ Object_prototype name = None) \/
  params !! name = Some JUndefined \/
  params !! name = Some JNull \/ params !! name = Some (JStr []).

Definition value_of (params : gmap (list N) JSValue) (p : ScriptParam) : JSValue :=
  prop_get params (sp_name p).

Definition has_value (params : gmap (list N) JSValue) (p : ScriptParam) : bool :=
  negb (is_missing (value_of params p)).

Definition required_missing (params : gmap (list N) JSValue) (p : ScriptParam) : bool :=
  sp_required p && is_missing (value_of params p).

(** [String()] returns on the value. *)
Definition convertible (v : JSValue) : bool :=
  match String_ v with
  | Some _ => true
  | None => false
  end.

(** What [String()] returns on a value it converts. *)
Definition text_of (v : JSValue) : jsstring := default [] (String_ v).

(** The loop stops at the parameter: it is required and its value reads
    as missing, or its value is there and [String()] cannot convert it. *)
Definition stops (params : gmap (list N) JSValue) (p : ScriptParam) : bool :=
  required_missing params p
  || (has_value params p && negb (convertible (value_of params p))).

(** A required parameter whose name [Object.prototype] defines, and an
    optional one. *)
Definition param_toString : ScriptParam :=
  {| sp_name := lit "toString"; sp_type := TString; sp_required := true |}.

Definition param_constructor : ScriptParam :=
  {| sp_name := lit "constructor"; sp_type := TString; sp_required := false |}.

Definition inspect_script : ScriptMetadata :=
  {| sm_name := lit "Inspect"; sm_params := [param_toString];
     sm_filePath := lit "/scripts/inspect.sh"; sm_fileName := lit "inspect.sh" |}.

(** A mapping with an object that [String()] cannot convert for [name]. *)
Definition opaque_params : gmap (list N) JSValue :=
  <[lit "name" := JObject [(lit "toString", JNum 1)]]> ∅.

Definition param_name : ScriptParam :=
  {| sp_name := lit "name"; sp_type := TString; sp_required := true |}.

Definition param_excited : ScriptParam :=
  {| sp_name := lit "excited"; sp_type := TBoolean; sp_required := true |}.

Definition param_count : ScriptParam :=
  {| sp_name := lit "count"; sp_type := TNumber; sp_required := false |}.

Definition hello_script : ScriptMetadata :=
  {| sm_name := lit "Hello World";
     sm_params := [param_name; param_excited; param_count];
     sm_filePath := lit "/scripts/hello.sh";
     sm_fileName := lit "hello.sh" |}.

Definition ada_params : gmap (list N) JSValue :=
  <[lit "name" := JStr (lit "Ada")]> (<[lit "excited" := JBool true]> ∅).

Definition quiet_params : gmap (list N) JSValue :=
  <[lit "name" := JStr (lit "Ada")]>
    (<[lit "excited" := JBool false]> (<[lit "count" := JNum 0]> ∅)).

(** Nothing spawned or logged yet, and an operating system that refuses
    no request. *)
Definition empty_world : World :=
  {| w_spawned := []; w_ledger := []; w_spawn_error := fun _ => None |}.

(** [JSON.stringify] of a mapping without properties. *)
Definition stringify_empty (params : gmap (list N) JSValue) : jsstring := lit "{}".

(** The content of the file is whole entries: those of [entries], from some
    entry on. *)
Definition whole_entries (JSON_stringify : gmap (list N) JSValue -> jsstring)
    (entries : list (jsstring * LogCall)) (file : option jsstring) : Prop :=
  exists k, file = Some (List.concat (skipn k
    (List.map (fun e => logContent JSON_stringify (fst e) (snd e)) entries))).

(** A cancelled execution that had printed 35000 chunks. *)
Definition long_call : LogCall :=
  {| lc_scriptName := lit "Fresh Install"; lc_params := ∅;
     lc_output := List.repeat (lit "x") (N.to_nat 35000) ++ [KILLED_MESSAGE];
     lc_exitCode := None |}.

Definition a_timestamp : jsstring := lit "2025-01-01T00:00:00.000Z".

Definition no_NL (l : jsstring) : bool := forallb (fun c => negb (c =? NL)) l.

Definition is_data (c : Origin * list N) : Prop :=
  fst c = Stdout \/ fst c = Stderr.

(** Where an execution can be, with what holds there. [L0] is the ledger
    before the execution. *)
Definition phase (L0 : list LogCall) (s : Exec * World) : Prop :=
  let '(e, w) := s in
  match e_main e, c_closeRequested (e_controller e),
        c_state (e_controller e), e_kills e with
  | Awaiting, false, Readable, O =>
      (* running *)
      w_ledger w = L0 /\ Forall is_data (e_enqueued e)
  | Awaiting, false, Closed, 1%nat | Rejected, false, Closed, 1%nat =>
      (* cancelled while running *)
      (exists r, w_ledger w = L0 ++ [r] /\ lc_exitCode r = None) /\
      Forall is_data (e_enqueued e)
  | Returned, true, Readable, O | Returned, true, Closed, O =>
      (* completed *)
      exists r pre code,
        w_ledger w = L0 ++ [r] /\
        lc_exitCode r = Some (exitCode_or_0 code) /\
        e_enqueued e = pre ++ [(Synthetic, exitMessage code)] /\
        Forall is_data pre
  | Returned, true, Closed, 1%nat =>
      (* completed, then cancelled with chunks still queued *)
      exists r r' pre code,
        w_ledger w = L0 ++ [r; r'] /\
        lc_exitCode r = Some (exitCode_or_0 code) /\ lc_exitCode r' = None /\
        e_enqueued e = pre ++ [(Synthetic, exitMessage code)] /\
        Forall is_data pre
  | _, _, _, _ => False
  end.

(** The stream takes chunks: it is readable and [close] was not called. *)
Definition open (s : Exec * World) : Prop :=
  c_state (e_controller (fst s)) = Readable /\
  c_closeRequested (e_controller (fst s)) = false.

(** [start] is at [await proc.exited] and the stream is open. *)
Definition running (s : Exec * World) : Prop :=
  e_main (fst s) = Awaiting /\ open s /\ e_kills (fst s) = 0%nat.

(** The consumer cancelled before [start] resumed. *)
Definition cancelled (s : Exec * World) : Prop :=
  c_state (e_controller (fst s)) = Closed /\
  c_closeRequested (e_controller (fst s)) = false /\
  e_main (fst s) <> Returned.

(** [start] returned: the exit chunk is enqueued and [close] was called. *)
Definition completed (s : Exec * World) : Prop :=
  e_main (fst s) = Returned /\
  c_closeRequested (e_controller (fst s)) = true.

Definition is_end (ev : Event) : bool :=
  match ev with
  | EvExited _ | EvCancel => true
  | _ => false
  end.

Definition is_cancel (ev : Event) : bool :=
  match ev with
  | EvCancel => true
  | _ => false
  end.

Definition no_end (trace : list Event) : bool :=
  forallb (fun ev => negb (is_end ev)) trace.

Definition no_cancel (trace : list Event) : bool :=
  forallb (fun ev => negb (is_cancel ev)) trace.

Definition a_TypeError : list N :=
  lit "TypeError: Invalid state: Controller is already closed".

(** The world after [executeScript] has started the hello script. *)
Definition hello_world : World :=
  snd (executeScript hello_script ada_params None (lit "/home/dev") empty_world).

(** "Hi" on stdout, the exit, a late read of stdout, a read by the consumer. *)
Definition late_read_trace : list Event :=
  [EvStdout [x48; x69]; EvExited (Some 0%Z); EvStdout [x21]; EvRead].

(** The texts of successive reads, with the decoder they leave. *)
Fixpoint decode_reads (d : TextDecoder) (values : list (list byte))
    : TextDecoder * list (list N) :=
  match values with
  | [] => (d, [])
  | value :: rest =>
      let '(d1, text) := decode d value in
      let '(d2, texts) := decode_reads d1 rest in
      (d2, text :: texts)
  end.

(** Text that [TextEncoder] and [TextDecoder] carry unchanged: scalar
    values only, and no byte order mark in front. *)
Definition well_formed (t : list N) : bool :=
  forallb is_scalar t &&
  match t with
  | c :: _ => negb (c =? BOM)
  | [] => true
  end.

Definition origin_eqb (a b : Origin) : bool :=
  match a, b with
  | Stdout, Stdout | Stderr, Stderr | Synthetic, Synthetic => true
  | _, _ => false
  end.

(** The texts of the chunks that one code path enqueued, in order. *)
Definition chunks_of (o : Origin) (q : list (Origin * list N)) : list (list N) :=
  List.map snd (List.filter (fun c => origin_eqb (fst c) o) q).

(** The byte arrays a trace delivers on stdout, and on stderr. *)
Fixpoint stdout_values (trace : list Event) : list (list byte) :=
  match trace with
  | [] => []
  | EvStdout value :: rest => value :: stdout_values rest
  | _ :: rest => stdout_values rest
  end.

Fixpoint stderr_values (trace : list Event) : list (list byte) :=
  match trace with
  | [] => []
  | EvStderr value :: rest => value :: stderr_values rest
  | _ :: rest => stderr_values rest
  end.

Definition closing_trace : list Event :=
  [EvStdoutDone; EvStderrDone; EvExited (Some 0%Z)].

(** ** More of the source: the rest of [logger.ts] and [parser.ts] *)

(** [lines.slice(start)] with an integer start: from the end when it is
    negative. *)
Definition slice_from {A} (start : Z) (l : list A) : list A :=
  if (start <? 0)%Z
  then skipn (Z.to_nat (Z.max (Z.of_nat (length l) + start) 0)) l
  else skipn (Z.to_nat start) l.

(** [await file.text()] on the content of a file: a byte order mark in
    front is dropped. *)
Definition file_text (content : jsstring) : jsstring :=
  match content with
  | c :: rest => if c =? BOM then rest else content
  | [] => []
  end.

(** [getRecentLogs(count)] of [logger.ts] (lines 74-88), for an integer
    [count], on a log file that can be read. *)
Definition getRecentLogs (count : Z) (file : option jsstring) : jsstring :=
  match file with
  | None => lit "No logs yet"
  | Some content =>
      join NL (slice_from (- count * 10) (split NL (file_text content)))
  end.

(** Successive [logExecution] cycles on the log file. *)
Definition cycles (JSON_stringify : gmap (list N) JSValue -> jsstring)
    (entries : list (jsstring * LogCall)) (file : option jsstring)
    : option jsstring :=
  fold_left (fun f e => logExecution JSON_stringify (fst e) (snd e) f) entries file.

(** The file name ends in one of the three extensions [executeScript]
    knows. *)
Definition supported (fileName : jsstring) : bool :=
  endsWith fileName (lit ".sh") || endsWith fileName (lit ".js")
  || endsWith fileName (lit ".ts").

(** The words before the arguments in the command line of a script. *)
Definition interpreter_prefix (script : ScriptMetadata) : list jsstring :=
  if endsWith (sm_fileName script) (lit ".sh")
  then [lit "bash"; sm_filePath script]
  else [lit "bun"; lit "run"; sm_filePath script].


(** The previous content of the log file followed by the entries. *)
Definition appended_text (JSON_stringify : gmap (list N) JSValue -> jsstring)
    (file : option jsstring) (entries : list (jsstring * LogCall)) : jsstring :=
  default [] file ++
  List.concat (List.map (fun e => logContent JSON_stringify (fst e) (snd e)) entries).

(** An operating system that has no directory [/nowhere]. *)
Definition nowhere_world : World :=
  {| w_spawned := []; w_ledger := [];
     w_spawn_error := fun options =>
       if bool_decide (so_cwd options = lit "/nowhere")
       then Some (lit "ENOENT: no such file or directory")
       else None |}.

(** A script whose extension [executeScript] does not know. *)
Definition notes_script : ScriptMetadata :=
  {| sm_name := lit "Notes"; sm_params := [];
     sm_filePath := lit "/scripts/notes.txt"; sm_fileName := lit "notes.txt" |}.


(** A completed execution that printed one chunk. *)
Definition short_call : LogCall :=
  {| lc_scriptName := lit "Hello World"; lc_params := ∅;
     lc_output := [lit "Hello, Ada!"; exitMessage (Some 0%Z)];
     lc_exitCode := Some 0%Z |}.


(** ** [parser.ts] *)

(** [a === b] on strings. *)
Definition str_eqb (a b : jsstring) : bool := bool_decide (a = b).

Definition SPACE : N := 32.
Definition COLON : N := 58.
Definition COMMA : N := 44.
Definition SLASH : N := 47.

(** A [ScriptParam] as the parser builds it: [type] is the text of the
    annotation, cast without a check. *)
Record ParsedParam : Type := {
  pp_name : jsstring;
  pp_type : jsstring;
  pp_required : bool;
  pp_description : jsstring;
  pp_options : option (list jsstring)
}.

(** [parseParam] (lines 74-99). *)
Definition parseParam (value : jsstring) : option ParsedParam :=
  let parts := split SPACE value in
  let definition := hd [] parts in
  let description := join SPACE (tl parts) in
  let defParts := split COLON definition in
  match defParts with
  | name :: type :: requiredStr :: rest =>
      Some {| pp_name := name;
              pp_type := type;
              pp_required := str_eqb requiredStr (lit "required");
              pp_description := description;
              pp_options :=
                match rest with
                | optionsStr :: _ =>
                    if negb (str_eqb optionsStr []) && str_eqb type (lit "select")
                    then Some (split COMMA optionsStr)
                    else None
                | [] => None
                end |}
  | _ => None
  end.

(** White space and line terminators: what [trim] strips and [\s]
    matches. *)
Definition is_space (c : N) : bool :=
  in_range 9 13 c || (c =? 32) || (c =? 0xA0) || (c =? 0x1680)
  || in_range 0x2000 0x200A c || (c =? 0x2028) || (c =? 0x2029)
  || (c =? 0x202F) || (c =? 0x205F) || (c =? 0x3000) || (c =? 0xFEFF).

(** [\w]: an ASCII letter, a digit or the underscore. *)
Definition is_word (c : N) : bool :=
  in_range 97 122 c || in_range 65 90 c || in_range 48 57 c || (c =? 95).

(** [.]: anything but a line terminator. *)
Definition is_dot (c : N) : bool :=
  negb ((c =? 10) || (c =? 13) || (c =? 0x2028) || (c =? 0x2029)).

Fixpoint drop_while (f : N -> bool) (s : jsstring) : jsstring :=
  match s with
  | c :: s' => if f c then drop_while f s' else s
  | [] => []
  end.

Fixpoint take_while (f : N -> bool) (s : jsstring) : jsstring :=
  match s with
  | c :: s' => if f c then c :: take_while f s' else []
  | [] => []
  end.

(** [line.trim()] *)
Definition trim (s : jsstring) : jsstring :=
  rev (drop_while is_space (rev (drop_while is_space s))).

(** The rest of both patterns after the comment marker: optional spaces,
    an at sign, the tag (one or more word characters), one or more spaces
    and the value (one or more characters that are no line terminators,
    up to the end). The greedy spaces leave the value to begin at the
    first character that is no space; only when nothing follows the
    spaces do they give back their last one. *)
Definition match_tag_after_marker (s : jsstring) : option (jsstring * jsstring) :=
  match drop_while is_space s with
  | 64 :: s2 =>
      let tag := take_while is_word s2 in
      let s3 := drop_while is_word s2 in
      let spaces := take_while is_space s3 in
      let s4 := drop_while is_space s3 in
      match tag, spaces, s4 with
      | [], _, _ => None
      | _, [], _ => None
      | _, _, _ :: _ => if forallb is_dot s4 then Some (tag, s4) else None
      | _, _ :: _ :: _, [] =>
          let c := List.last spaces 0 in
          if is_dot c then Some (tag, [c]) else None
      | _, _, [] => None
      end
  | _ => None
  end.

(** [bashMatch || jsMatch]: the line begins with a hash, or with two
    slashes, a slash and a star, or a star. *)
Definition match_tag (trimmed : jsstring) : option (jsstring * jsstring) :=
  match trimmed with
  | 35 :: s => match_tag_after_marker s
  | 47 :: 47 :: s => match_tag_after_marker s
  | 47 :: 42 :: s => match_tag_after_marker s
  | 42 :: s => match_tag_after_marker s
  | _ => None
  end.

Record ParsedMetadata : Type := {
  pm_name : jsstring;
  pm_description : jsstring;
  pm_category : jsstring;
  pm_context : jsstring;
  pm_params : list ParsedParam;
  pm_filePath : jsstring;
  pm_fileName : jsstring
}.

(** The [Partial<ScriptMetadata>] that the loop fills in; [name] and
    [description] start undefined. *)
Record PartialMetadata : Type := {
  part_name : option jsstring;
  part_description : option jsstring;
  part_category : jsstring;
  part_context : jsstring;
  part_params : list ParsedParam
}.

Definition initial_metadata : PartialMetadata :=
  {| part_name := None; part_description := None;
     part_category := lit "uncategorized"; part_context := lit "terminal";
     part_params := [] |}.

(** The [switch (tag)] of the loop (lines 35-57). *)
Definition apply_tag (md : PartialMetadata) (tag value : jsstring) : PartialMetadata :=
  if str_eqb tag (lit "name") then
    {| part_name := Some (trim value); part_description := part_description md;
       part_category := part_category md; part_context := part_context md;
       part_params := part_params md |}
  else if str_eqb tag (lit "description") then
    {| part_name := part_name md; part_description := Some (trim value);
       part_category := part_category md; part_context := part_context md;
       part_params := part_params md |}
  else if str_eqb tag (lit "category") then
    {| part_name := part_name md; part_description := part_description md;
       part_category := trim value; part_context := part_context md;
       part_params := part_params md |}
  else if str_eqb tag (lit "context") then
    if str_eqb value (lit "terminal") || str_eqb value (lit "browser")
    then {| part_name := part_name md; part_description := part_description md;
            part_category := part_category md; part_context := value;
            part_params := part_params md |}
    else md
  else if str_eqb tag (lit "param") then
    match parseParam value with
    | Some param =>
        {| part_name := part_name md; part_description := part_description md;
           part_category := part_category md; part_context := part_context md;
           part_params := part_params md ++ [param] |}
    | None => md
    end
  else md.

(** One turn of the loop over the lines (lines 23-58). *)
Definition parse_line (md : PartialMetadata) (line : jsstring) : PartialMetadata :=
  match match_tag (trim line) with
  | Some (tag, value) => apply_tag md tag value
  | None => md
  end.

(** [filePath.split('/').pop() || ''] *)
Definition fileName_of (filePath : jsstring) : jsstring :=
  List.last (split SLASH filePath) [].

(** [!s] on an optional string: undefined or empty. *)
Definition falsy (s : option jsstring) : bool :=
  match s with
  | None | Some [] => true
  | Some (_ :: _) => false
  end.

(** [parseScriptMetadata] (lines 9-67) on the text of a file that can be
    read. *)
Definition parseScriptMetadata (filePath content : jsstring) : option ParsedMetadata :=
  let md := fold_left parse_line (split NL content) initial_metadata in
  match part_name md, part_description md with
  | Some name, Some description =>
      if falsy (Some name) || falsy (Some description) then None
      else Some {| pm_name := name; pm_description := description;
                   pm_category := part_category md; pm_context := part_context md;
                   pm_params := part_params md;
                   pm_filePath := filePath; pm_fileName := fileName_of filePath |}
  | _, _ => None
  end.


(** The text before the first space. *)
Definition first_word (value : jsstring) : jsstring :=
  take_while (fun c => negb (c =? SPACE)) value.

Definition no_colon_or_space (s : jsstring) : Prop :=
  ~ In COLON s /\ ~ In SPACE s.


(** The tags of a file: tag and value of every line that matches, in the
    order of the lines. *)
Definition tag_lines (content : jsstring) : list (jsstring * jsstring) :=
  omap (fun line => match_tag (trim line)) (split NL content).

(** The values of the lines with one tag, in the order of the lines. *)
Definition values_of (tag : jsstring) (tags : list (jsstring * jsstring))
    : list jsstring :=
  List.map snd (List.filter (fun tv => str_eqb (fst tv) tag) tags).

Definition no_colon_or_space_b (s : jsstring) : bool :=
  forallb (fun c => negb (c =? COLON) && negb (c =? SPACE)) s.

(** The head of a shell script with its annotations. *)
Definition port_killer_text : jsstring :=
  lit "#!/usr/bin/env bash" ++ [NL] ++
  lit "# @name Port Killer" ++ [NL] ++
  lit "# @description Kill the process on a port" ++ [NL] ++
  lit "# @param port:number:required The port number to kill" ++ [NL] ++
  lit "# @param force:boolean:optional Use kill -9" ++ [NL] ++
  lit "# @param broken" ++ [NL] ++
  lit "# @context terminal" ++ [NL] ++
  lit "# @name Port Killer 2" ++ [NL] ++
  lit "PORT=$1".


(** The loop's turn on a tag and its value. *)
Definition apply_tagged (md : PartialMetadata) (tv : jsstring * jsstring)
    : PartialMetadata :=
  apply_tag md (fst tv) (snd tv).

Definition valid_context (c : jsstring) : Prop :=
  c = lit "terminal" \/ c = lit "browser".

(** [discoverScripts] (lines 104-128) on a directory that can be read,
    given as the names [readdir] returns with the text of each file;
    [path_join] is [join] of the platform's [path]. *)
Definition discoverScripts (path_join : jsstring -> jsstring -> jsstring)
    (scriptsDir : jsstring) (files : list (jsstring * jsstring))
    : list ParsedMetadata :=
  omap (fun fc =>
          if supported (fst fc)
          then parseScriptMetadata (path_join scriptsDir (fst fc)) (snd fc)
          else None) files.

(** [join] on a directory and a plain name. *)
Definition join_plain (dir file : jsstring) : jsstring := dir ++ SLASH :: file.

Definition port_killer_metadata : ParsedMetadata :=
  {| pm_name := lit "Port Killer 2";
     pm_description := lit "Kill the process on a port";
     pm_category := lit "uncategorized";
     pm_context := lit "terminal";
     pm_params :=
       [ {| pp_name := lit "port"; pp_type := lit "number"; pp_required := true;
            pp_description := lit "The port number to kill"; pp_options := None |};
         {| pp_name := lit "force"; pp_type := lit "boolean"; pp_required := false;
            pp_description := lit "Use kill -9"; pp_options := None |} ];
     pm_filePath := lit "scripts/port-killer.sh";
     pm_fileName := lit "port-killer.sh" |}.

(** A directory with an annotated script, a file of another kind and a
    script without annotations. *)
Definition sample_directory : list (jsstring * jsstring) :=
  [ (lit "port-killer.sh", port_killer_text);
    (lit "README.md", lit "# @name Read me" ++ [NL] ++ lit "# @description Notes");
    (lit "plain.js", lit "console.log(1)") ].


(** The stdout loop is still reading and [start] still waits: no end of
    stdout, no exit, no cancellation. *)
Definition stdout_alive (trace : list Event) : bool :=
  forallb (fun ev => match ev with
                     | EvStdoutDone | EvStdoutFail | EvExited _ | EvCancel => false
                     | _ => true
                     end) trace.

Definition stderr_alive (trace : list Event) : bool :=
  forallb (fun ev => match ev with
                     | EvStderrDone | EvStderrFail | EvExited _ | EvCancel => false
                     | _ => true
                     end) trace.

(** Every read that delivers bytes does so while its loop is reading:
    before the end or a failed read of its pipe, and before the exit is
    observed or the consumer cancels. The two flags say whether the loops
    of stdout and of stderr can still deliver. *)
Fixpoint reads_in_time (out_open err_open : bool) (trace : list Event) : bool :=
  match trace with
  | [] => true
  | ev :: rest =>
      match ev with
      | EvStdout _ => out_open && reads_in_time out_open err_open rest
      | EvStderr _ => err_open && reads_in_time out_open err_open rest
      | EvStdoutDone | EvStdoutFail => reads_in_time false err_open rest
      | EvStderrDone | EvStderrFail => reads_in_time out_open false rest
      | EvExited _ | EvCancel => reads_in_time false false rest
      | EvRead => reads_in_time out_open err_open rest
      end
  end.

(** No read of stdout, and no read of stderr, delivers bytes. *)
Definition no_stdout (trace : list Event) : bool :=
  forallb (fun ev => match ev with EvStdout _ => false | _ => true end) trace.

Definition no_stderr (trace : list Event) : bool :=
  forallb (fun ev => match ev with EvStderr _ => false | _ => true end) trace.

(** The end of stderr between the reads of stdout, and the exit after the
    last read. *)
Definition interleaved_trace : list Event :=
  [EvStdout [x68; xe2; x82]; EvStderr [xc3; xa9]; EvStderrDone; EvRead;
   EvStdout [xac]; EvStdoutDone; EvExited (Some 0%Z); EvRead].

(** A failed read of stderr between two reads of stdout. *)
Definition stderr_fails_trace : list Event :=
  [EvStdout [x68; x69]; EvStderr [x6f; x6f]; EvStderrFail; EvStdout [x21]].


(** ** The form of the client ([ScriptRunner], lines 145-152) *)

(** A parameter as the client receives it, with its optional default
    ([undefined] when there is none). *)
Record ClientParam : Type := {
  cp_name : jsstring;
  cp_type : ParamType;
  cp_required : bool;
  cp_default : JSValue
}.

(** Whether a value counts as true in [a || b]. *)
Definition truthy (v : JSValue) : bool :=
  match v with
  | JUndefined | JNull => false
  | JBool b => b
  | JNum NaN => false
  | JNum x => negb (Number_is_zero x)
  | JStr [] => false
  | JStr (_ :: _) => true
  | JArray _ | JObject _ | JFunction _ | JObjectPrototype => true
  end.

(** [a || b] *)
Definition js_or (a b : JSValue) : JSValue := if truthy a then a else b.

(** The value the form starts with for one parameter. *)
Definition initial_value (param : ClientParam) : JSValue :=
  match cp_type param with
  | TBoolean => js_or (cp_default param) (JBool false)
  | _ => js_or (cp_default param) (JStr [])
  end.

(** [formData[name] = value] on the plain object behind the form, for a
    value that is no object: the name [__proto__] reaches the setter of
    [Object.prototype], which ignores such a value, and no property is
    created. *)
Definition prop_set (form : gmap (list N) JSValue) (name : jsstring) (value : JSValue)
    : gmap (list N) JSValue :=
  if bool_decide (name = lit "__proto__") then form
  else <[name := value]> form.

(** The loop that fills [formData]; the mapping is what the form posts:
    the properties of its own. *)
Definition initial_form (params : list ClientParam) : gmap (list N) JSValue :=
  fold_left (fun form param => prop_set form (cp_name param) (initial_value param))
    params ∅.



(** The parameter as the server declares it. *)
Definition declared (param : ClientParam) : ScriptParam :=
  {| sp_name := cp_name param; sp_type := cp_type param;
     sp_required := cp_required param |}.



(** A value as an annotation line can carry it: it begins and ends with a
    character that is no space and holds no line terminator. *)
Definition plain_value (value : jsstring) : bool :=
  match value with
  | [] => false
  | c :: _ => negb (is_space c) && negb (is_space (List.last value 0))
              && forallb is_dot value
  end.

(** A tag as the pattern takes it: one or more word characters. *)
Definition plain_tag (tag : jsstring) : bool :=
  match tag with
  | [] => false
  | _ :: _ => forallb is_word tag
  end.

(** * Properties *)
(** ** The parameter binder *)

Lemma Object_prototype_value name v :
  Object_prototype name = Some v -> is_missing v = false /\ convertible v = true.
Proof.
  unfold Object_prototype.
  repeat match goal with
         | |- context [if ?b then _ else _] => destruct b
         end; intros [= <-]; split; reflexivity.
Qed.

Lemma is_missing_iff params name :
  is_missing (prop_get params name) = true <-> reads_missing params name.
Proof.
  unfold prop_get, reads_missing.
  destruct (params !! name) as [v|] eqn:E.
  - destruct v as [| |b|x|[|c s]|items|members|f|]; simpl; split; intros H;
      try discriminate; try reflexivity; auto;
      destruct H as [[H _]|[H|[H|H]]]; congruence.
  - destruct (Object_prototype name) as [v|] eqn:P.
    + apply Object_prototype_value in P as [P _]. cbn [default from_option id].
      rewrite P. split; [discriminate|].
      intros [[_ H]|[H|[H|H]]]; discriminate.
    + split; auto.
Qed.

Lemma required_missing_iff params p :
  required_missing params p = true <->
  sp_required p = true /\ reads_missing params (sp_name p).
Proof.
  unfold required_missing, value_of.
  rewrite andb_true_iff, is_missing_iff. reflexivity.
Qed.

(** What the claims call absent covers more than the loop reads as
    missing: the difference is the names of [Object.prototype]. *)
Lemma reads_missing_absent params name :
  reads_missing params name <->
  absent_null_or_empty params name /\
  (params !! name = None -> Object_prototype name = None).
Proof.
  unfold reads_missing, absent_null_or_empty. split.
  - intros [[H1 H2]|[H|[H|H]]]; split; auto; intros H'; congruence.
  - intros [[H|[H|[H|H]]] Hp]; auto.
Qed.

(** The loop, in closed form: it throws at the first parameter where it
    stops, and otherwise appends the string forms of the values that are
    there, in order. *)
Lemma build_args_closed_form ps params args :
  build_args ps params args =
  match List.find (stops params) ps with
  | Some p => if required_missing params p
              then Throw (missing_message (sp_name p))
              else ThrowTypeError
  | None =>
      Return (args ++ List.map (fun p => text_of (value_of params p))
                        (List.filter (has_value params) ps))
  end.
Proof.
  revert args. induction ps as [|p ps IH]; intros args; cbn [build_args List.find].
  - cbn. now rewrite app_nil_r.
  - unfold stops, required_missing, has_value, convertible, text_of, value_of in *.
    cbn [List.filter].
    destruct (sp_required p) eqn:R, (is_missing (prop_get params (sp_name p))) eqn:M,
      (String_ (prop_get params (sp_name p))) as [text|] eqn:T;
      cbn [andb orb negb]; rewrite ?R, ?M, ?T; cbn [andb orb negb];
      try reflexivity; try apply IH.
    all: rewrite IH; destruct (List.find _ ps); [reflexivity|];
      cbn [List.map]; rewrite T; cbn [default from_option id];
      now rewrite <- app_assoc.
Qed.

Lemma build_args_app ps1 ps2 params args :
  build_args (ps1 ++ ps2) params args =
  match build_args ps1 params args with
  | Throw m => Throw m
  | ThrowTypeError => ThrowTypeError
  | Return a1 => build_args ps2 params a1
  end.
Proof.
  revert args. induction ps1 as [|p ps1 IH]; intros args; simpl.
  - reflexivity.
  - destruct (sp_required p && is_missing (prop_get params (sp_name p))).
    + reflexivity.
    + destruct (negb (is_missing (prop_get params (sp_name p)))); [|apply IH].
      destruct (String_ (prop_get params (sp_name p))); [apply IH|reflexivity].
Qed.

Lemma find_none_iff {A} (f : A -> bool) (l : list A) :
  List.find f l = None <-> (forall x, In x l -> f x = false).
Proof.
  split.
  - apply List.find_none.
  - induction l as [|a l IH]; simpl; intros H; [reflexivity|].
    rewrite (H a (or_introl eq_refl)). apply IH. intros x Hx. apply H. now right.
Qed.

(** The first element that satisfies a test, with what comes before. *)
Lemma find_first {A} (f : A -> bool) (l : list A) (x : A) :
  List.find f l = Some x <->
  exists before after,
    l = before ++ x :: after /\ f x = true /\
    Forall (fun y => f y = false) before.
Proof.
  split.
  - induction l as [|a l IH]; [discriminate|].
    cbn [List.find]. destruct (f a) eqn:Fa.
    + intros [= ->]. exists [], l. auto.
    + intros H. destruct (IH H) as (before & after & -> & Hx & Hb).
      exists (a :: before), after. auto.
  - intros (before & after & -> & Hx & Hb).
    induction Hb as [|a before Ha Hb IH]; cbn [app List.find].
    + now rewrite Hx.
    + now rewrite Ha.
Qed.

Lemma find_required_missing params ps :
  (exists p, In p ps /\ sp_required p = true /\
             reads_missing params (sp_name p)) ->
  exists q, List.find (stops params) ps = Some q /\ In q ps /\
            (required_missing params q = true -> sp_required q = true /\
               reads_missing params (sp_name q)).
Proof.
  intros (p & Hin & Hr & Ha).
  destruct (List.find (stops params) ps) as [q|] eqn:F.
  - exists q. split; [reflexivity|].
    apply List.find_some in F as [Hq _]. split; [exact Hq|].
    apply required_missing_iff.
  - exfalso. rewrite find_none_iff in F. specialize (F p Hin).
    assert (required_missing params p = true) by (apply required_missing_iff; auto).
    unfold stops in F. rewrite H in F. discriminate.
Qed.

(** C3, as stated, fails: a required parameter named [toString] that the
    mapping lacks is absent in the words of the claim, but the loop reads
    the function that [Object.prototype] has under that name, takes it
    for a value and returns an argument. *)
Lemma inherited_name_counts_as_present :
  sp_required param_toString = true /\
  absent_null_or_empty ∅ (sp_name param_toString) /\
  (exists argument, build_args [param_toString] ∅ [] = Return [argument]) /\
  (forall m, build_args [param_toString] ∅ [] <> Throw m).
Proof.
  split; [reflexivity|]. split; [left; apply lookup_empty|].
  split; [eexists; vm_compute; reflexivity|].
  intros m. vm_compute. discriminate.
Qed.

(** The second way in which it fails: a value that [String()] cannot
    convert stops the loop with a [TypeError] before a required parameter
    without a value is reached. *)
Example unconvertible_value_comes_first :
  build_args [ {| sp_name := lit "name"; sp_type := TString; sp_required := false |};
               param_excited ] opaque_params []
    = ThrowTypeError.
Proof. vm_compute. reflexivity. Qed.

(** C3, amended. Binding fails with the missing-required-parameter error
    naming a parameter exactly when that parameter is the first at which
    the loop stops, and it is required with a value that reads as
    [undefined], [null] or the empty string; the loop stops before it only
    at a value that [String()] cannot convert, with a [TypeError]. When
    all values convert, binding fails with that error if and only if some
    required parameter reads as [undefined], [null] or the empty
    string. *)
Theorem binding_fails_iff_required_missing
    (script : ScriptMetadata) (params : gmap (list N) JSValue) :
  (forall m,
     build_args (sm_params script) params [] = Throw m <->
     exists before p after,
       sm_params script = before ++ p :: after /\
       Forall (fun q => stops params q = false) before /\
       sp_required p = true /\ reads_missing params (sp_name p) /\
       m = missing_message (sp_name p)) /\
  (build_args (sm_params script) params [] = ThrowTypeError <->
   exists before p after,
     sm_params script = before ++ p :: after /\
     Forall (fun q => stops params q = false) before /\
     has_value params p = true /\ String_ (value_of params p) = None) /\
  ((forall p, In p (sm_params script) -> convertible (value_of params p) = true) ->
   ((exists m, build_args (sm_params script) params [] = Throw m) <->
    (exists p, In p (sm_params script) /\ sp_required p = true /\
               reads_missing params (sp_name p)))).
Proof.
  rewrite build_args_closed_form.
  destruct (List.find (stops params) (sm_params script)) as [p|] eqn:F.
  - pose proof F as F'. apply find_first in F' as (before & after & Hps & Hp & Hb).
    assert (Huniq : forall before' p' after',
              sm_params script = before' ++ p' :: after' ->
              Forall (fun q => stops params q = false) before' ->
              stops params p' = true -> p' = p).
    { intros before' p' after' Hps' Hb' Hp'.
      assert (F2 : List.find (stops params) (sm_params script) = Some p')
        by (apply find_first; eauto).
      congruence. }
    destruct (required_missing params p) eqn:R.
    + pose proof R as R'. apply required_missing_iff in R' as [Hr Ha].
      split; [|split].
      * intros m. split.
        -- intros [= <-]. exists before, p, after. auto.
        -- intros (before' & p' & after' & Hps' & Hb' & Hr' & Ha' & ->).
           assert (Hs : stops params p' = true).
           { unfold stops. replace (required_missing params p') with true; [reflexivity|].
             symmetry. apply required_missing_iff. auto. }
           now rewrite (Huniq _ _ _ Hps' Hb' Hs).
      * split; [discriminate|].
        intros (before' & p' & after' & Hps' & Hb' & Hv & Hn).
        assert (Hs : stops params p' = true).
        { unfold stops, convertible. rewrite Hv, Hn. apply orb_true_r. }
        rewrite (Huniq _ _ _ Hps' Hb' Hs) in Hv.
        unfold required_missing, has_value in R, Hv.
        apply andb_true_iff in R as [_ R]. rewrite R in Hv. discriminate.
      * intros _. split; [|eauto].
        intros _. exists p. split; [|auto].
        rewrite Hps. apply in_elt.
    + assert (Hv : has_value params p = true /\ String_ (value_of params p) = None).
      { unfold stops in Hp. rewrite R in Hp. cbn [orb] in Hp.
        apply andb_true_iff in Hp as [Hv Hc]. split; [exact Hv|].
        unfold convertible in Hc. now destruct (String_ (value_of params p)). }
      split; [|split].
      * intros m. split; [discriminate|].
        intros (before' & p' & after' & Hps' & Hb' & Hr' & Ha' & ->).
        assert (Hs : required_missing params p' = true)
          by (apply required_missing_iff; auto).
        assert (Hs' : stops params p' = true) by (unfold stops; now rewrite Hs).
        rewrite (Huniq _ _ _ Hps' Hb' Hs') in Hs. congruence.
      * split; [|reflexivity]. intros _. exists before, p, after. tauto.
      * intros Hconv. exfalso.
        assert (Hin : In p (sm_params script)) by (rewrite Hps; apply in_elt).
        specialize (Hconv p Hin). unfold convertible in Hconv.
        destruct Hv as [_ Hv]. rewrite Hv in Hconv. discriminate.
  - rewrite find_none_iff in F.
    assert (Hnone : forall before p after,
              sm_params script = before ++ p :: after -> stops params p = false).
    { intros before p after Hps. apply F. rewrite Hps. apply in_elt. }
    split; [|split].
    + intros m. split; [discriminate|].
      intros (before & p & after & Hps & _ & Hr & Ha & _).
      specialize (Hnone _ _ _ Hps). unfold stops in Hnone.
      replace (required_missing params p) with true in Hnone; [discriminate|].
      symmetry. apply required_missing_iff. auto.
    + split; [discriminate|].
      intros (before & p & after & Hps & _ & Hv & Hn).
      specialize (Hnone _ _ _ Hps). unfold stops, convertible in Hnone.
      rewrite Hv, Hn in Hnone. rewrite orb_true_r in Hnone. discriminate.
    + intros _. split; [intros [m Hm]; discriminate|].
      intros (p & Hin & Hr & Ha). specialize (F p Hin). unfold stops in F.
      replace (required_missing params p) with true in F; [discriminate|].
      symmetry. apply required_missing_iff. auto.
Qed.

Lemma binding_fails_iff_required_missing_witness :
  build_args (sm_params hello_script) opaque_params [] = ThrowTypeError /\
  build_args (sm_params hello_script) ∅ []
    = Throw (lit "Required parameter 'name' is missing").
Proof.
  destruct (binding_fails_iff_required_missing hello_script opaque_params)
    as (_ & H1 & _).
  destruct (binding_fails_iff_required_missing hello_script ∅) as (H2 & _ & _).
  split.
  - apply H1. exists [], param_name, [param_excited; param_count].
    split; [reflexivity|]. split; [constructor|].
    split; vm_compute; reflexivity.
  - apply H2. exists [], param_name, [param_excited; param_count].
    split; [reflexivity|]. split; [constructor|]. split; [reflexivity|].
    split; [|vm_compute; reflexivity].
    left. split; [apply lookup_empty|reflexivity].
Defined.

(** [Number::toString] on the integers of every day: the decimal digits. *)
Lemma Number_toString_small_integers :
  forallb (fun z => bool_decide (Number_toString (integer z) = digits_of z))
    (List.map Z.of_nat (seq 0 4096)) = true.
Proof. vm_compute. reflexivity. Qed.

Lemma Number_toString_small (z : Z) :
  (0 <= z < 4096)%Z -> Number_toString (integer z) = digits_of z.
Proof.
  intros Hz. pose proof Number_toString_small_integers as H.
  rewrite forallb_forall in H.
  specialize (H z). apply bool_decide_eq_true in H; [exact H|].
  apply in_map_iff. exists (Z.to_nat z). split; [lia|].
  apply in_seq. lia.
Qed.

(** From [1e21] on a Number is printed with an exponent, and a fraction
    with the fewest digits that read back as the same double; an integer
    that is no double stands for the nearest one. *)
Example Number_toString_samples :
  Number_toString (integer (10 ^ 21)) = lit "1e+21" /\
  Number_toString (integer (10 ^ 21 - 1)) = lit "1e+21" /\
  Number_toString (integer (2 ^ 53 + 1)) = lit "9007199254740992" /\
  Number_toString (integer (2 ^ 1024)) = lit "Infinity" /\
  Number_toString (Finite (-1) (-1075)) = lit "0" /\
  Number_toString (integer (10 ^ 21 - 2 ^ 17)) = lit "999999999999999900000" /\
  Number_toString (integer (2 ^ 53)) = lit "9007199254740992" /\
  Number_toString (integer (-65535)) = lit "-65535" /\
  Number_toString (Finite 3 (-1)) = lit "1.5" /\
  Number_toString (Finite 3602879701896397 (-55)) = lit "0.1" /\
  Number_toString (Finite 1 (-20)) = lit "9.5367431640625e-7" /\
  Number_toString (Finite 4722366482869645 (-72)) = lit "0.000001" /\
  Number_toString (Finite 1 (-1074)) = lit "5e-324" /\
  Number_toString (Finite (2 ^ 53 - 1) 971) = lit "1.7976931348623157e+308" /\
  Number_toString (Infinity false) = lit "Infinity".
Proof. vm_compute. repeat split; reflexivity. Qed.

(** C4, as stated, fails: an optional parameter named [constructor] that
    the mapping lacks has no present value in it, and yet contributes an
    argument, the text of the function [Object] that the loop reads. *)
Lemma inherited_name_contributes_an_argument :
  sp_required param_constructor = false /\
  absent_null_or_empty ∅ (sp_name param_constructor) /\
  exists argument, build_args [param_constructor] ∅ [] = Return [argument].
Proof.
  split; [reflexivity|]. split; [left; apply lookup_empty|].
  eexists. vm_compute. reflexivity.
Qed.

(** The second way in which it fails: a required parameter has a value,
    an object that [String()] cannot convert, and the binder returns no
    argument list. *)
Example present_value_may_not_convert :
  has_value opaque_params param_name = true /\
  build_args [param_name] opaque_params [] = ThrowTypeError.
Proof. vm_compute. split; reflexivity. Qed.

(** C4, amended. When every required parameter has a value as the loop
    reads it and [String()] converts the values that are there, the binder
    returns their string forms in declaration order, one per declared
    parameter whose value reads as present and nothing for the others: a
    parameter contributes nothing exactly when its value reads as
    [undefined], [null] or the empty string. A boolean is rendered as
    [true] or [false], a number by [Number::toString] (an integer from 0
    to 4095 by its decimal digits), a string as it is. *)
Theorem binding_renders_present_values_in_order
    (script : ScriptMetadata) (params : gmap (list N) JSValue)
    (Hreq : forall p, In p (sm_params script) -> sp_required p = true ->
                      ~ reads_missing params (sp_name p))
    (Hconv : forall p, In p (sm_params script) -> has_value params p = true ->
                       String_ (value_of params p) <> None) :
  exists args,
    build_args (sm_params script) params [] = Return args /\
    Forall2 (fun argument p => String_ (prop_get params (sp_name p)) = Some argument)
      args (List.filter (has_value params) (sm_params script)) /\
    length args = length (List.filter (has_value params) (sm_params script)) /\
    (forall p, has_value params p = false <-> reads_missing params (sp_name p)) /\
    (forall b, String_ (JBool b) = Some (if b then lit "true" else lit "false")) /\
    (forall x, String_ (JNum x) = Some (Number_toString x)) /\
    (forall z, (0 <= z < 4096)%Z -> String_ (JNum z) = Some (digits_of z)) /\
    (forall s, String_ (JStr s) = Some s).
Proof.
  rewrite build_args_closed_form.
  assert (F : List.find (stops params) (sm_params script) = None).
  { apply find_none_iff. intros p Hin. unfold stops.
    destruct (required_missing params p) eqn:R.
    - apply required_missing_iff in R as [Hr Ha]. now destruct (Hreq p Hin Hr).
    - cbn [orb]. destruct (has_value params p) eqn:V; [|reflexivity].
      specialize (Hconv p Hin V). unfold convertible.
      now destruct (String_ (value_of params p)). }
  rewrite F. eexists. split; [reflexivity|]. cbn [app].
  split; [|split; [now rewrite length_map|]].
  - assert (H : Forall (fun p => has_value params p = true)
                  (List.filter (has_value params) (sm_params script))).
    { apply List.Forall_forall. intros p Hp. now apply List.filter_In in Hp. }
    assert (Hin : Forall (fun p => In p (sm_params script))
                    (List.filter (has_value params) (sm_params script))).
    { apply List.Forall_forall. intros p Hp. now apply List.filter_In in Hp. }
    induction (List.filter (has_value params) (sm_params script)) as [|p l IH];
      cbn [List.map]; constructor.
    + apply List.Forall_inv in H, Hin. specialize (Hconv p Hin H).
      unfold text_of, value_of in *.
      now destruct (String_ (prop_get params (sp_name p))).
    + apply IH; eapply List.Forall_inv_tail; eassumption.
  - split.
    + intros p. unfold has_value, value_of. rewrite negb_false_iff.
      apply is_missing_iff.
    + split; [now intros []|]. split; [reflexivity|].
      split; [|reflexivity].
      intros z Hz. cbn [String_]. now rewrite Number_toString_small.
Qed.

Lemma ada_has_required p :
  In p (sm_params hello_script) -> sp_required p = true ->
  ~ reads_missing ada_params (sp_name p).
Proof.
  intros Hin Hr Ha. apply is_missing_iff in Ha.
  simpl in Hin. destruct Hin as [<-|[<-|[<-|[]]]];
    vm_compute in Ha; try discriminate; vm_compute in Hr; discriminate.
Qed.

Lemma ada_converts p :
  In p (sm_params hello_script) -> has_value ada_params p = true ->
  String_ (value_of ada_params p) <> None.
Proof.
  intros Hin _. simpl in Hin.
  destruct Hin as [<-|[<-|[<-|[]]]]; vm_compute; discriminate.
Qed.

Lemma binding_renders_present_values_in_order_witness :
  exists args,
    build_args (sm_params hello_script) ada_params [] = Return args /\
    args = [lit "Ada"; lit "true"].
Proof.
  destruct (binding_renders_present_values_in_order hello_script ada_params
              ada_has_required ada_converts) as (args & H & _).
  exists args. split; [exact H|].
  assert (E : build_args (sm_params hello_script) ada_params []
              = Return [lit "Ada"; lit "true"]) by (vm_compute; reflexivity).
  rewrite E in H. now injection H as <-.
Defined.

(** C10. [false] and [0] are values: a parameter, required or not, whose
    value is [false] or [0] does not stop the loop, and its string form
    (["false"], ["0"]) is pushed where the parameter stands. *)
Theorem false_and_zero_count_as_present
    (ps1 ps2 : list ScriptParam) (p : ScriptParam)
    (params : gmap (list N) JSValue) (args : list jsstring)
    (Hv : prop_get params (sp_name p) = JBool false \/
          prop_get params (sp_name p) = JNum 0) :
  is_missing (prop_get params (sp_name p)) = false /\
  build_args (ps1 ++ p :: ps2) params args =
    match build_args ps1 params args with
    | Throw m => Throw m
    | ThrowTypeError => ThrowTypeError
    | Return a1 =>
        build_args ps2 params
          (a1 ++ [match prop_get params (sp_name p) with
                  | JBool _ => lit "false"
                  | _ => lit "0"
                  end])
    end.
Proof.
  assert (M : is_missing (prop_get params (sp_name p)) = false)
    by (destruct Hv as [-> | ->]; reflexivity).
  split; [exact M|].
  rewrite build_args_app.
  destruct (build_args ps1 params args) as [a1|m|]; [|reflexivity|reflexivity].
  cbn [build_args]. rewrite M, andb_false_r. cbn [negb].
  destruct Hv as [-> | ->]; reflexivity.
Qed.

Lemma false_and_zero_count_as_present_witness :
  build_args [param_name; param_excited; param_count] quiet_params [] =
    Return [lit "Ada"; lit "false"; lit "0"].
Proof.
  assert (Hv : prop_get quiet_params (sp_name param_excited) = JBool false \/
               prop_get quiet_params (sp_name param_excited) = JNum 0)
    by (left; vm_compute; reflexivity).
  destruct (false_and_zero_count_as_present [param_name] [param_count]
              param_excited quiet_params [] Hv) as [_ H].
  simpl app in H. rewrite H. vm_compute. reflexivity.
Defined.

(** ** Validation comes before the spawn *)

(** C5, as stated, fails: a request that lacks the required parameter
    [toString] fails validation in the words of the claim, and yet
    [executeScript] returns and has spawned a child. *)
Lemma inherited_name_passes_validation :
  sp_required param_toString = true /\
  absent_null_or_empty ∅ (sp_name param_toString) /\
  exists e0 w,
    executeScript inspect_script ∅ None (lit "/home/dev") empty_world
      = (Return e0, w) /\
    length (w_spawned w) = 1%nat.
Proof.
  split; [reflexivity|]. split; [left; apply lookup_empty|].
  eexists _, _. split; [vm_compute; reflexivity|reflexivity].
Qed.

(** C5, amended. A request in which some required parameter has a value
    that reads as [undefined], [null] or the empty string makes
    [executeScript] throw before it spawns, the missing-required-parameter
    error or, when a value that [String()] cannot convert is declared
    before, a [TypeError]: the set of child processes and the ledger are
    as they were, and no execution exists that could write to the ledger
    later. *)
Theorem validation_failure_has_no_side_effect
    (script : ScriptMetadata) (params : gmap (list N) JSValue)
    (workingDir : option jsstring) (process_cwd : jsstring) (w : World)
    (Hmissing : exists p, In p (sm_params script) /\ sp_required p = true /\
                          reads_missing params (sp_name p)) :
  exists thrown,
    executeScript script params workingDir process_cwd w = (thrown, w) /\
    (thrown = ThrowTypeError \/
     exists p, In p (sm_params script) /\ sp_required p = true /\
               reads_missing params (sp_name p) /\
               thrown = Throw (missing_message (sp_name p))).
Proof.
  destruct (find_required_missing params (sm_params script) Hmissing)
    as (q & Hfind & Hin & Hq).
  unfold executeScript. rewrite build_args_closed_form, Hfind.
  destruct (required_missing params q) eqn:R.
  - eexists. split; [reflexivity|]. right. exists q.
    destruct (Hq eq_refl). auto.
  - eexists. split; [reflexivity|]. now left.
Qed.

Lemma validation_failure_has_no_side_effect_witness :
  executeScript hello_script ∅ None (lit "/home/dev") empty_world
    = (Throw (lit "Required parameter 'name' is missing"), empty_world).
Proof.
  assert (Hmissing : exists p, In p (sm_params hello_script) /\
                       sp_required p = true /\
                       reads_missing ∅ (sp_name p)).
  { exists param_name. split; [now left|]. split; [reflexivity|].
    left. split; [apply lookup_empty|reflexivity]. }
  destruct (validation_failure_has_no_side_effect hello_script ∅ None
              (lit "/home/dev") empty_world Hmissing) as (thrown & Hm & _).
  rewrite Hm. f_equal.
  assert (E : executeScript hello_script ∅ None (lit "/home/dev") empty_world
              = (Throw (lit "Required parameter 'name' is missing"), empty_world))
    by (vm_compute; reflexivity).
  rewrite E in Hm. now injection Hm.
Defined.

(** ** [split] and [join] *)

Lemma split_not_nil sep s : split sep s <> [].
Proof.
  destruct s as [|c s]; simpl; [discriminate|].
  destruct (c =? sep); [discriminate|].
  destruct (split sep s); discriminate.
Qed.

Lemma join_cons sep l rest :
  rest <> [] -> join sep (l :: rest) = l ++ sep :: join sep rest.
Proof. destruct rest; [congruence|reflexivity]. Qed.

Lemma join_split sep s : join sep (split sep s) = s.
Proof.
  induction s as [|c s IH]; simpl; [reflexivity|].
  destruct (c =? sep) eqn:E.
  - apply N.eqb_eq in E. subst c.
    rewrite join_cons by apply split_not_nil. simpl. now rewrite IH.
  - pose proof (split_not_nil sep s) as Hne.
    destruct (split sep s) as [|l ls]; [congruence|].
    rewrite <- IH. destruct ls; reflexivity.
Qed.

Lemma split_no_sep sep s : Forall (fun l => ~ In sep l) (split sep s).
Proof.
  induction s as [|c s IH]; simpl.
  - constructor; [intros []|constructor].
  - destruct (c =? sep) eqn:E.
    + constructor; [intros []|exact IH].
    + apply N.eqb_neq in E.
      destruct (split sep s) as [|l ls]; [constructor; [|constructor]|].
      * intros [H|[]]. congruence.
      * inversion IH; subst. constructor; [|assumption].
        intros [H|H]; [congruence|contradiction].
Qed.

Lemma split_app_sep sep l s :
  ~ In sep l -> split sep (l ++ sep :: s) = l :: split sep s.
Proof.
  induction l as [|c l IH]; intros Hl; simpl.
  - now rewrite N.eqb_refl.
  - destruct (c =? sep) eqn:E.
    + apply N.eqb_eq in E. exfalso. apply Hl. now left.
    + rewrite IH; [reflexivity|]. intros H. apply Hl. now right.
Qed.

Lemma split_no_sep_single sep l : ~ In sep l -> split sep l = [l].
Proof.
  induction l as [|c l IH]; intros Hl; simpl; [reflexivity|].
  destruct (c =? sep) eqn:E.
  - apply N.eqb_eq in E. exfalso. apply Hl. now left.
  - rewrite IH; [reflexivity|]. intros H. apply Hl. now right.
Qed.

Lemma split_join sep lines :
  lines <> [] -> Forall (fun l => ~ In sep l) lines ->
  split sep (join sep lines) = lines.
Proof.
  induction lines as [|l rest IH]; intros Hne Hall; [congruence|].
  inversion Hall as [|? ? Hl Hrest]; subst.
  destruct rest as [|l' rest].
  - simpl. now apply split_no_sep_single.
  - rewrite join_cons by discriminate.
    rewrite split_app_sep by assumption.
    now rewrite IH.
Qed.

Lemma join_app sep l1 l2 :
  l1 <> [] -> l2 <> [] ->
  join sep (l1 ++ l2) = join sep l1 ++ sep :: join sep l2.
Proof.
  induction l1 as [|a l1 IH]; intros H1 H2; [congruence|].
  destruct l1 as [|b l1].
  - simpl app. now rewrite join_cons.
  - change ((a :: b :: l1) ++ l2) with (a :: ((b :: l1) ++ l2)).
    rewrite join_cons by discriminate.
    rewrite IH by (assumption || discriminate).
    rewrite (join_cons sep a (b :: l1)) by discriminate.
    now rewrite <- app_assoc.
Qed.

Lemma length_slice_last {A} n (l : list A) :
  length (slice_last n l) = Nat.min n (length l).
Proof. unfold slice_last. rewrite length_skipn. lia. Qed.

Lemma slice_last_all {A} n (l : list A) :
  (length l <= n)%nat -> slice_last n l = l.
Proof.
  intros H. unfold slice_last.
  replace (length l - n)%nat with 0%nat by lia. reflexivity.
Qed.

Lemma Forall_slice_last {A} (P : A -> Prop) n (l : list A) :
  Forall P l -> Forall P (slice_last n l).
Proof.
  intros H. unfold slice_last.
  rewrite <- (firstn_skipn (length l - n) l) in H.
  now apply Forall_app in H.
Qed.

(** ** The retention policy of the log file *)

Section LoggerProperties.

Variable JSON_stringify : gmap (list N) JSValue -> jsstring.

(** The lines of a file after [trimLogFile] are the last [MAX_LINES]
    lines it had. *)
Lemma trimLogFile_lines content :
  exists content',
    trimLogFile (Some content) = Some content' /\
    split NL content' = slice_last (N.to_nat MAX_LINES) (split NL content).
Proof.
  unfold trimLogFile.
  destruct (MAX_LINES <? N.of_nat (length (split NL content))) eqn:E.
  - eexists. split; [reflexivity|].
    apply split_join.
    + intros Hnil. apply (f_equal (@length _)) in Hnil.
      rewrite length_slice_last in Hnil. apply N.ltb_lt in E.
      unfold MAX_LINES in *. simpl length in Hnil. lia.
    + apply Forall_slice_last, split_no_sep.
  - exists content. split; [reflexivity|].
    apply N.ltb_ge in E. symmetry. apply slice_last_all.
    unfold MAX_LINES in *. lia.
Qed.

Lemma logExecution_lines timestamp call file :
  exists content',
    logExecution JSON_stringify timestamp call file = Some content' /\
    split NL content' =
      slice_last (N.to_nat MAX_LINES)
        (split NL (default [] file ++ logContent JSON_stringify timestamp call)).
Proof. unfold logExecution, appendFile. apply trimLogFile_lines. Qed.

(** C8. After an append-plus-trim cycle the log file has at most
    [MAX_LINES] lines: when the appended file has more, it is rewritten
    to its last [MAX_LINES] lines, and otherwise it is the appended file
    as it is. *)
Theorem line_count_within_ceiling_after_cycle
    (timestamp : jsstring) (call : LogCall) (file : option jsstring) :
  let appended := default [] file ++ logContent JSON_stringify timestamp call in
  let lines := split NL appended in
  (line_count (logExecution JSON_stringify timestamp call file)
     <= N.to_nat MAX_LINES)%nat /\
  MAX_LINES = 35000 /\
  logExecution JSON_stringify timestamp call file =
    (if MAX_LINES <? N.of_nat (length lines)
     then Some (join NL (slice_last (N.to_nat MAX_LINES) lines))
     else Some appended) /\
  (exists content',
     logExecution JSON_stringify timestamp call file = Some content' /\
     split NL content' = slice_last (N.to_nat MAX_LINES) lines).
Proof.
  intros appended lines.
  unfold logExecution, appendFile. fold appended.
  destruct (trimLogFile_lines appended) as (content' & Htrim & Hlines).
  rewrite Htrim. unfold line_count. rewrite Hlines. fold lines.
  split; [rewrite length_slice_last; lia|].
  split; [reflexivity|].
  split.
  - rewrite <- Htrim. reflexivity.
  - exists content'. split; [reflexivity|exact Hlines].
Qed.

End LoggerProperties.

(** ** Entries and lines *)

Lemma no_NL_sound l : no_NL l = true -> ~ In NL l.
Proof.
  unfold no_NL. rewrite forallb_forall. intros H Hin.
  specialize (H NL Hin). now rewrite N.eqb_refl in H.
Qed.

Lemma no_NL_app a b : no_NL (a ++ b) = no_NL a && no_NL b.
Proof. apply forallb_app. Qed.

Section EntryLines.

Variable JSON_stringify : gmap (list N) JSValue -> jsstring.

Lemma length_logLines timestamp call :
  length (logLines JSON_stringify timestamp call) = (8 + length (lc_output call))%nat.
Proof. unfold logLines. rewrite !length_app. simpl. lia. Qed.

(** An entry whose lines hold no newline splits back into [logLines]. *)
Lemma split_logContent timestamp call :
  Forall (fun l => no_NL l = true) (logLines JSON_stringify timestamp call) ->
  split NL (logContent JSON_stringify timestamp call)
    = logLines JSON_stringify timestamp call.
Proof.
  intros H. unfold logContent. apply split_join.
  - unfold logLines. discriminate.
  - eapply List.Forall_impl; [|exact H]. intros l. apply no_NL_sound.
Qed.

End EntryLines.

Lemma long_call_lines :
  split NL (logContent stringify_empty a_timestamp long_call)
    = logLines stringify_empty a_timestamp long_call.
Proof.
  apply split_logContent. unfold logLines, long_call. cbn [lc_output].
  repeat (apply Forall_app; split).
  - repeat constructor.
  - apply List.Forall_forall. intros l Hl. apply repeat_spec in Hl. now subst l.
  - repeat constructor.
  - repeat constructor.
Qed.

Lemma long_call_line_count :
  length (logLines stringify_empty a_timestamp long_call)
    = (N.to_nat MAX_LINES + 9)%nat.
Proof.
  rewrite length_logLines. unfold long_call. cbn [lc_output].
  rewrite length_app, repeat_length. unfold MAX_LINES. cbn [length]. lia.
Qed.

(** C7, as stated, fails: one entry of 35009 lines appended to an empty log
    leaves a file of 35000 lines, which is neither that entry nor empty. *)
Lemma trim_cuts_inside_an_entry :
  ~ whole_entries stringify_empty [(a_timestamp, long_call)]
      (logExecution stringify_empty a_timestamp long_call None).
Proof.
  intros [k Hk].
  destruct (logExecution_lines stringify_empty a_timestamp long_call None)
    as (content' & Hc & Hlines).
  rewrite Hc in Hk. injection Hk as Hk.
  apply (f_equal (fun c => length (split NL c))) in Hk.
  rewrite Hlines in Hk.
  change (default [] None) with (@nil N) in Hk. rewrite app_nil_l in Hk.
  rewrite length_slice_last, long_call_lines, long_call_line_count in Hk.
  cbn [List.map fst snd] in Hk.
  destruct k as [|k].
  - cbn [skipn List.concat] in Hk. rewrite app_nil_r in Hk.
    rewrite long_call_lines, long_call_line_count in Hk. lia.
  - cbn [skipn] in Hk. rewrite skipn_nil in Hk. cbn [List.concat split length] in Hk.
    unfold MAX_LINES in Hk. lia.
Qed.

Section LineBoundary.

Variable JSON_stringify : gmap (list N) JSValue -> jsstring.

Lemma trimLogFile_cut content :
  exists dropped content',
    trimLogFile (Some content) = Some content' /\
    content = dropped ++ content' /\
    (dropped = [] \/ exists d, dropped = d ++ [NL]).
Proof.
  unfold trimLogFile.
  destruct (MAX_LINES <? N.of_nat (length (split NL content))) eqn:E.
  - apply N.ltb_lt in E. unfold slice_last.
    set (lines := split NL content) in *.
    set (k := (length lines - N.to_nat MAX_LINES)%nat).
    exists (join NL (firstn k lines) ++ [NL]), (join NL (skipn k lines)).
    split; [reflexivity|]. split.
    + rewrite <- (join_split NL content). fold lines.
      rewrite <- (firstn_skipn k lines) at 1.
      rewrite join_app.
      * now rewrite <- app_assoc.
      * intros H. apply (f_equal (@length _)) in H.
        rewrite length_firstn in H. cbn [length] in H.
        unfold k, MAX_LINES in *. lia.
      * intros H. apply (f_equal (@length _)) in H.
        rewrite length_skipn in H. cbn [length] in H.
        unfold k, MAX_LINES in *. lia.
    + right. eauto.
  - exists [], content. auto.
Qed.

(** C7, amended. The trim cuts at the start of a line: after an
    append-plus-trim cycle the file is a suffix of the appended text that
    begins the text or follows a newline, its lines are the last
    [MAX_LINES] lines of that text, and while the text has at most
    [MAX_LINES] lines the file is all of it. *)
Theorem trim_cuts_at_line_start
    (timestamp : jsstring) (call : LogCall) (file : option jsstring) :
  let appended := default [] file ++ logContent JSON_stringify timestamp call in
  exists dropped content',
    logExecution JSON_stringify timestamp call file = Some content' /\
    appended = dropped ++ content' /\
    (dropped = [] \/ exists d, dropped = d ++ [NL]) /\
    split NL content' = slice_last (N.to_nat MAX_LINES) (split NL appended) /\
    (if MAX_LINES <? N.of_nat (length (split NL appended))
     then True else content' = appended).
Proof.
  intros appended.
  destruct (trimLogFile_cut appended) as (dropped & content' & Htrim & Happ & Hcut).
  destruct (trimLogFile_lines appended) as (content2 & Htrim2 & Hlines).
  assert (content2 = content') by congruence. subst content2.
  exists dropped, content'.
  split; [exact Htrim|]. split; [exact Happ|]. split; [exact Hcut|].
  split; [exact Hlines|].
  unfold trimLogFile in Htrim.
  destruct (MAX_LINES <? N.of_nat (length (split NL appended))); [exact I|].
  congruence.
Qed.

End LineBoundary.

(** ** The phases of an execution *)

Ltac break_exec e :=
  let c := fresh "c" in
  destruct e as [? ? ? c ? ? ? ? ?]; destruct c as [? ? ? ?].

Ltac unfold_step :=
  unfold step, stdout_turn, stderr_turn, start_resume, start_catch,
    source_cancel, call_logExecution, enqueue, close, push,
    controller_enqueue, controller_close, controller_error, reader_read,
    stream_cancel, canCloseOrEnqueue,
    set_outputLines, set_stream, set_stdout, set_stderr, set_main, set_kills
    in *.

Ltac reduce_step :=
  cbn -[exitMessage errorMessage decode STDERR_TAG KILLED_MESSAGE chunks_of].

Ltac split_step :=
  unfold_step; reduce_step;
  repeat match goal with
         | |- context [match ?x with _ => _ end] =>
             is_var x; destruct x; reduce_step
         | |- context [negb ?x] => is_var x; destruct x; reduce_step
         | |- context [decode ?d ?v] => destruct (decode d v); reduce_step
         | |- context [match ?l ++ ?r with _ => _ end] =>
             destruct (l ++ r); reduce_step
         end.

Section Phases.

Variable TypeError_text : list N.

Lemma phase_started script params w :
  phase (w_ledger w) (started script params, w).
Proof. simpl. split; [reflexivity|constructor]. Qed.

Lemma phase_step L0 ev s :
  phase L0 s -> phase L0 (step TypeError_text ev s).
Proof.
  destruct s as [e w]. break_exec e. unfold phase.
  cbn [e_main e_controller c_closeRequested c_state e_kills e_enqueued].
  intros H.
  destruct e_main0, c_closeRequested0, c_state0; try contradiction;
    destruct e_kills0 as [|[|?]]; try contradiction;
    destruct ev; split_step; try exact H.
  all: try (destruct H as [HL HF]; split; [exact HL|];
            apply Forall_app; split; [exact HF|];
            repeat constructor; cbn; auto; fail).
  all: try (destruct H as [HL HF]; rewrite HL;
            eexists _, _, _; repeat split; try reflexivity; exact HF).
  - destruct H as [HL HF]. rewrite HL. split; [|exact HF].
    eexists. split; reflexivity.
  - destruct H as (r & pre & code & HL & Hr & Hq & HF). rewrite HL.
    exists r. eexists. exists pre, code. rewrite <- app_assoc.
    repeat split; try reflexivity; assumption.
Qed.

Lemma phase_run L0 trace s :
  phase L0 s -> phase L0 (run TypeError_text s trace).
Proof.
  revert s. induction trace as [|ev trace IH]; intros s H; [exact H|].
  apply IH, phase_step, H.
Qed.

Lemma run_app s t1 t2 :
  run TypeError_text s (t1 ++ t2) = run TypeError_text (run TypeError_text s t1) t2.
Proof. unfold run. apply fold_left_app. Qed.

(** The script name and the parameters of the closure never change. *)
Lemma step_closure ev s :
  e_scriptName (fst (step TypeError_text ev s)) = e_scriptName (fst s) /\
  e_params (fst (step TypeError_text ev s)) = e_params (fst s).
Proof.
  destruct s as [e w]. break_exec e.
  destruct ev; split_step; split; reflexivity.
Qed.

Lemma run_closure trace s :
  e_scriptName (fst (run TypeError_text s trace)) = e_scriptName (fst s) /\
  e_params (fst (run TypeError_text s trace)) = e_params (fst s).
Proof.
  revert s. induction trace as [|ev trace IH]; intros s; [split; reflexivity|].
  cbn [run fold_left]. destruct (IH (step TypeError_text ev s)) as [H1 H2].
  destruct (step_closure ev s) as [H3 H4].
  unfold run in *. split; congruence.
Qed.

(** Until the process exits or the consumer cancels, the execution is
    running and the world is as it was. *)
Lemma running_step ev s :
  running s -> is_end ev = false ->
  running (step TypeError_text ev s) /\
  snd (step TypeError_text ev s) = snd s.
Proof.
  destruct s as [e w]. break_exec e. unfold running, open.
  cbn [fst snd e_main e_controller c_closeRequested c_state e_kills].
  intros (Hm & [Hs Hc] & Hk) Hev. subst.
  destruct ev; try discriminate; split_step; auto.
Qed.

Lemma running_run trace s :
  running s -> forallb (fun ev => negb (is_end ev)) trace = true ->
  running (run TypeError_text s trace) /\
  snd (run TypeError_text s trace) = snd s.
Proof.
  revert s. induction trace as [|ev trace IH]; intros s Hr Ht; [auto|].
  cbn [forallb] in Ht. apply andb_true_iff in Ht as [Hev Ht].
  apply negb_true_iff in Hev.
  destruct (running_step ev s Hr Hev) as [Hr' Hw].
  destruct (IH _ Hr' Ht) as [Hr'' Hw'].
  cbn [run fold_left]. unfold run in *. split; [exact Hr''|congruence].
Qed.

(** After a cancellation that came first, nothing is enqueued and nothing
    is logged any more. *)
Lemma cancelled_step ev s :
  cancelled s ->
  cancelled (step TypeError_text ev s) /\
  snd (step TypeError_text ev s) = snd s /\
  e_enqueued (fst (step TypeError_text ev s)) = e_enqueued (fst s).
Proof.
  destruct s as [e w]. break_exec e. unfold cancelled.
  cbn [fst snd e_main e_controller c_closeRequested c_state e_enqueued].
  intros (Hs & Hc & Hm). subst.
  destruct ev; split_step; repeat split; auto; try discriminate.
Qed.

Lemma cancelled_run trace s :
  cancelled s ->
  cancelled (run TypeError_text s trace) /\
  snd (run TypeError_text s trace) = snd s /\
  e_enqueued (fst (run TypeError_text s trace)) = e_enqueued (fst s).
Proof.
  revert s. induction trace as [|ev trace IH]; intros s Hc; [auto|].
  destruct (cancelled_step ev s Hc) as (Hc' & Hw & Hq).
  destruct (IH _ Hc') as (Hc'' & Hw' & Hq').
  cbn [run fold_left]. unfold run in *. repeat split; try apply Hc''; congruence.
Qed.

(** After completion nothing is enqueued, and nothing is logged unless
    the consumer cancels. *)
Lemma completed_step ev s :
  completed s ->
  completed (step TypeError_text ev s) /\
  e_enqueued (fst (step TypeError_text ev s)) = e_enqueued (fst s) /\
  (is_cancel ev = false -> snd (step TypeError_text ev s) = snd s).
Proof.
  destruct s as [e w]. break_exec e. unfold completed.
  cbn [fst snd e_main e_controller c_closeRequested c_state e_enqueued].
  intros (Hm & Hc). subst.
  destruct ev; split_step; repeat split; auto; try discriminate.
Qed.

Lemma completed_run trace s :
  completed s ->
  completed (run TypeError_text s trace) /\
  e_enqueued (fst (run TypeError_text s trace)) = e_enqueued (fst s) /\
  (forallb (fun ev => negb (is_cancel ev)) trace = true ->
   snd (run TypeError_text s trace) = snd s).
Proof.
  revert s. induction trace as [|ev trace IH]; intros s Hc; [auto|].
  destruct (completed_step ev s Hc) as (Hc' & Hq & Hw).
  destruct (IH _ Hc') as (Hc'' & Hq' & Hw').
  cbn [run fold_left forallb]. unfold run in *.
  split; [exact Hc''|]. split; [congruence|].
  intros Ht. apply andb_true_iff in Ht as [Hev Ht].
  apply negb_true_iff in Hev. rewrite Hw' by exact Ht. now apply Hw.
Qed.

(** What [cancel] does in a running execution. *)
Lemma cancel_when_running s :
  running s ->
  let s' := step TypeError_text EvCancel s in
  cancelled s' /\
  e_kills (fst s') = 1%nat /\
  e_outputLines (fst s') = e_outputLines (fst s) ++ [KILLED_MESSAGE] /\
  w_ledger (snd s') = w_ledger (snd s) ++
    [ {| lc_scriptName := e_scriptName (fst s); lc_params := e_params (fst s);
         lc_output := e_outputLines (fst s) ++ [KILLED_MESSAGE];
         lc_exitCode := None |} ] /\
  e_enqueued (fst s') = e_enqueued (fst s).
Proof.
  destruct s as [e w]. break_exec e. unfold running, open, cancelled.
  cbn [fst snd e_main e_controller c_closeRequested c_state e_kills].
  intros (Hm & [Hs Hc] & Hk). subst.
  split_step. repeat split; auto; discriminate.
Qed.

(** What [start] does when the process exits in a running execution. *)
Lemma exit_when_running exitCode s :
  running s ->
  let s' := step TypeError_text (EvExited exitCode) s in
  completed s' /\
  e_kills (fst s') = 0%nat /\
  w_ledger (snd s') = w_ledger (snd s) ++
    [ {| lc_scriptName := e_scriptName (fst s); lc_params := e_params (fst s);
         lc_output := e_outputLines (fst s) ++ [exitMessage exitCode];
         lc_exitCode := Some (exitCode_or_0 exitCode) |} ] /\
  e_enqueued (fst s') = e_enqueued (fst s) ++ [(Synthetic, exitMessage exitCode)].
Proof.
  destruct s as [e w]. break_exec e. unfold running, open, completed.
  cbn [fst snd e_main e_controller c_closeRequested c_state e_kills].
  intros (Hm & [Hs Hc] & Hk). subst.
  split_step; repeat split; auto.
Qed.

End Phases.

Lemma executeScript_started script params workingDir process_cwd w0 e0 w :
  executeScript script params workingDir process_cwd w0 = (Return e0, w) ->
  e0 = started script params /\ w_ledger w = w_ledger w0 /\
  exists proc, w_spawned w = w_spawned w0 ++ [proc].
Proof.
  unfold executeScript, spawn.
  destruct (build_args _ _ _) as [args|m|]; try discriminate.
  destruct (command_for _ _) as [cmd|m|]; try discriminate.
  destruct (w_spawn_error _ _); [discriminate|].
  intros [= <- <-]. cbn. eauto.
Qed.

Lemma running_started script params w : running (started script params, w).
Proof. repeat split. Qed.

Section Outcomes.

Variable TypeError_text : list N.

(** C1. In every execution whose child process was started: as long as
    [close] has not been called only stdout and stderr chunks have been
    enqueued; once it has been called the enqueued chunks are stdout and
    stderr chunks followed by the exit chunk, and no later event enqueues
    anything; and when the process exit is observed in a running
    execution, the exit chunk with its code is enqueued and [close] is
    called in the same turn. *)
Theorem exit_chunk_is_last_before_close
    (script : ScriptMetadata) (params : gmap (list N) JSValue)
    (workingDir : option (list N)) (process_cwd : list N) (w0 w : World)
    (e0 : Exec) (trace : list Event)
    (Hstart : executeScript script params workingDir process_cwd w0
                = (Return e0, w)) :
  let s := run TypeError_text (e0, w) trace in
  (if c_closeRequested (e_controller (fst s))
   then (exists pre code,
           e_enqueued (fst s) = pre ++ [(Synthetic, exitMessage code)] /\
           Forall is_data pre) /\
        (forall more,
           e_enqueued (fst (run TypeError_text s more)) = e_enqueued (fst s))
   else Forall is_data (e_enqueued (fst s))) /\
  (if no_end trace
   then forall exitCode,
          let s' := step TypeError_text (EvExited exitCode) s in
          c_closeRequested (e_controller (fst s')) = true /\
          e_enqueued (fst s') =
            e_enqueued (fst s) ++ [(Synthetic, exitMessage exitCode)]
   else True).
Proof.
  apply executeScript_started in Hstart as (-> & HL & _).
  intros s. split.
  - pose proof (phase_run TypeError_text (w_ledger w) trace _
                  (phase_started script params w)) as Hph.
    fold s in Hph. destruct s as [e w'] eqn:Es. cbn [fst].
    unfold phase in Hph.
    destruct (c_closeRequested (e_controller e)) eqn:Hc.
    + assert (Hm : e_main e = Returned).
      { destruct (e_main e), (c_state (e_controller e)); try contradiction;
          destruct (e_kills e) as [|[|?]]; try contradiction; reflexivity. }
      split.
      * rewrite Hm in Hph.
        destruct (c_state (e_controller e)); try contradiction;
          destruct (e_kills e) as [|[|?]]; try contradiction.
        -- destruct Hph as (r & pre & code & _ & _ & Hq & HF). eauto.
        -- destruct Hph as (r & pre & code & _ & _ & Hq & HF). eauto.
        -- destruct Hph as (r & r' & pre & code & _ & _ & _ & Hq & HF). eauto.
      * intros more.
        assert (Hcomp : completed (e, w')) by (split; assumption).
        now destruct (completed_run TypeError_text more _ Hcomp) as (_ & Hq & _).
    + destruct (e_main e), (c_state (e_controller e)); try contradiction;
        destruct (e_kills e) as [|[|?]]; try contradiction; apply Hph.
  - destruct (no_end trace) eqn:Ht; [|exact I].
    intros exitCode s'.
    destruct (running_run TypeError_text trace _
                (running_started script params w) Ht) as [Hr _].
    fold s in Hr.
    destruct (exit_when_running TypeError_text exitCode s Hr) as (Hc & _ & _ & Hq).
    split; [apply Hc|exact Hq].
Qed.

End Outcomes.

Lemma hello_started :
  executeScript hello_script ada_params None (lit "/home/dev") empty_world
    = (Return (started hello_script ada_params), hello_world).
Proof. reflexivity. Qed.

Lemma exit_chunk_is_last_before_close_witness :
  e_enqueued (fst (run a_TypeError (started hello_script ada_params, hello_world)
                     late_read_trace))
    = [(Stdout, lit "Hi"); (Synthetic, exitMessage (Some 0%Z))].
Proof.
  pose proof (exit_chunk_is_last_before_close a_TypeError hello_script ada_params
                None (lit "/home/dev") empty_world hello_world
                (started hello_script ada_params)
                [EvStdout [x48; x69]; EvExited (Some 0%Z)] hello_started) as H.
  cbv zeta in H. destruct H as [H _].
  assert (Hc : c_closeRequested (e_controller (fst
            (run a_TypeError (started hello_script ada_params, hello_world)
               [EvStdout [x48; x69]; EvExited (Some 0%Z)]))) = true)
    by (vm_compute; reflexivity).
  rewrite Hc in H. destruct H as [_ Hfrozen].
  specialize (Hfrozen [EvStdout [x21]; EvRead]).
  rewrite <- run_app in Hfrozen. cbn [app] in Hfrozen.
  unfold late_read_trace. rewrite Hfrozen. vm_compute. reflexivity.
Defined.

(** C6, as stated, fails: the process exits while nobody reads, then the
    consumer cancels with the exit chunk still queued; the source's
    [cancel] runs and [logExecution] is called a second time. *)
Lemma completion_then_cancel_logs_twice :
  List.map lc_exitCode
    (w_ledger (snd (run a_TypeError (started hello_script ada_params, hello_world)
                      [EvExited (Some 0%Z); EvCancel])))
    = [Some 0%Z; None] /\
  length (w_ledger (snd (run a_TypeError (started hello_script ada_params, hello_world)
                           [EvExited (Some 0%Z); EvCancel]))) <> 1%nat.
Proof. split; [vm_compute; reflexivity|vm_compute; discriminate]. Qed.

Section Ledger.

Variable TypeError_text : list N.

Lemma phase_ledger_bound L0 s :
  phase L0 s -> (length (w_ledger (snd s)) <= length L0 + 2)%nat.
Proof.
  destruct s as [e w]. unfold phase. cbn [snd].
  destruct (e_main e), (c_closeRequested (e_controller e)),
    (c_state (e_controller e)); try contradiction;
    destruct (e_kills e) as [|[|?]]; try contradiction; intros H.
  all: repeat match goal with
              | H : _ /\ _ |- _ => destruct H
              | H : exists _, _ |- _ => destruct H
              end.
  all: match goal with H : w_ledger _ = _ |- _ => rewrite H end.
  all: rewrite ?length_app; cbn [length]; lia.
Qed.

(** C6, amended. Nothing is logged before the process exit is observed
    or the consumer cancels. A cancellation that comes first is logged
    once, with no exit code, and [start] adds no record afterwards. An
    exit that comes first is logged once, with the exit code, as long as
    the consumer does not cancel afterwards. No execution is logged more
    than twice. *)
Theorem ledger_records_per_outcome
    (script : ScriptMetadata) (params : gmap (list N) JSValue) (w : World) :
  let s0 := (started script params, w) in
  (forall trace, no_end trace = true ->
     w_ledger (snd (run TypeError_text s0 trace)) = w_ledger w) /\
  (forall t1 t2, no_end t1 = true ->
     exists r,
       w_ledger (snd (run TypeError_text s0 (t1 ++ EvCancel :: t2)))
         = w_ledger w ++ [r] /\
       lc_exitCode r = None) /\
  (forall t1 exitCode t2, no_end t1 = true -> no_cancel t2 = true ->
     exists r,
       w_ledger (snd (run TypeError_text s0 (t1 ++ EvExited exitCode :: t2)))
         = w_ledger w ++ [r] /\
       lc_exitCode r = Some (exitCode_or_0 exitCode)) /\
  (forall trace,
     (length (w_ledger (snd (run TypeError_text s0 trace)))
        <= length (w_ledger w) + 2)%nat).
Proof.
  intros s0.
  assert (Hrun : forall t, no_end t = true ->
            running (run TypeError_text s0 t) /\
            snd (run TypeError_text s0 t) = w).
  { intros t Ht. apply (running_run TypeError_text t s0); [|exact Ht].
    apply running_started. }
  split; [|split; [|split]].
  - intros trace Ht. destruct (Hrun trace Ht) as [_ ->]. reflexivity.
  - intros t1 t2 Ht1. destruct (Hrun t1 Ht1) as [Hr Hw].
    rewrite run_app. cbn [run fold_left].
    destruct (cancel_when_running TypeError_text _ Hr) as (Hc & _ & _ & HL & _).
    destruct (cancelled_run TypeError_text t2 _ Hc) as (_ & Hw2 & _).
    unfold run in *. rewrite Hw2, HL, Hw. eexists. split; reflexivity.
  - intros t1 exitCode t2 Ht1 Ht2. destruct (Hrun t1 Ht1) as [Hr Hw].
    rewrite run_app. cbn [run fold_left].
    destruct (exit_when_running TypeError_text exitCode _ Hr) as (Hc & _ & HL & _).
    destruct (completed_run TypeError_text t2 _ Hc) as (_ & _ & Hw2).
    unfold run in *. rewrite (Hw2 Ht2), HL, Hw. eexists. split; reflexivity.
  - intros trace. apply (phase_ledger_bound (w_ledger w)).
    apply phase_run, phase_started.
Qed.

End Ledger.

Lemma ledger_records_per_outcome_witness :
  exists r,
    w_ledger (snd (run a_TypeError (started hello_script ada_params, hello_world)
                     ([EvStdout [x48; x69]] ++ EvCancel :: [EvExited None])))
      = w_ledger hello_world ++ [r] /\
    lc_exitCode r = None.
Proof.
  exact (proj1 (proj2 (ledger_records_per_outcome a_TypeError hello_script
                         ada_params hello_world))
           [EvStdout [x48; x69]] [EvExited None] eq_refl).
Defined.

Section Cancellation.

Variable TypeError_text : list N.
Variable JSON_stringify : gmap (list N) JSValue -> list N.

(** A cancellation leaves the two loops and [start] where they are. *)
Lemma cancel_leaves_tasks s :
  let s' := step TypeError_text EvCancel s in
  e_stdout (fst s') = e_stdout (fst s) /\
  e_stderr (fst s') = e_stderr (fst s) /\
  e_main (fst s') = e_main (fst s).
Proof.
  destruct s as [e w]. break_exec e. cbn [fst e_stdout e_stderr e_main].
  split_step; repeat split; reflexivity.
Qed.

(** C9, amended. When the consumer cancels while the child runs,
    [proc.kill()] is called once, without an argument: the child is sent
    [SIGTERM], which asks it to end, and nothing waits for it, the loops
    and [start] staying where they are. The closing chunk
    ["[Process killed by user]"] is appended to the captured output, and
    [logExecution] is called once with that output and no exit code,
    which the entry prints as [N/A]. *)
Theorem cancel_kills_and_records_cancelled
    (script : ScriptMetadata) (params : gmap (list N) JSValue)
    (workingDir : option (list N)) (process_cwd : list N) (w0 w : World)
    (e0 : Exec) (trace : list Event) (timestamp : list N)
    (Hstart : executeScript script params workingDir process_cwd w0
                = (Return e0, w))
    (Hmid : no_end trace = true) :
  let s := run TypeError_text (e0, w) trace in
  let s' := step TypeError_text EvCancel s in
  let r := {| lc_scriptName := sm_name script; lc_params := params;
              lc_output := e_outputLines (fst s) ++ [KILLED_MESSAGE];
              lc_exitCode := None |} in
  e_kills (fst s) = 0%nat /\ e_kills (fst s') = 1%nat /\
  signals_sent (fst s') = [SIGTERM] /\
  (e_stdout (fst s') = e_stdout (fst s) /\
   e_stderr (fst s') = e_stderr (fst s) /\
   e_main (fst s') = Awaiting) /\
  c_state (e_controller (fst s')) = Closed /\
  e_outputLines (fst s') = e_outputLines (fst s) ++ [KILLED_MESSAGE] /\
  w_ledger (snd s') = w_ledger w0 ++ [r] /\
  nth_error (logLines JSON_stringify timestamp r) 4 = Some (lit "Exit Code: N/A").
Proof.
  apply executeScript_started in Hstart as (-> & HL & _).
  intros s s' r.
  destruct (running_run TypeError_text trace _ (running_started script params w) Hmid)
    as [Hr Hw].
  destruct (run_closure TypeError_text trace (started script params, w)) as [Hn Hp].
  fold s in Hr, Hw, Hn, Hp. cbn [fst snd started e_scriptName e_params] in Hw, Hn, Hp.
  destruct (cancel_when_running TypeError_text s Hr) as (Hc & Hk & Ho & Hlog & _).
  destruct (cancel_leaves_tasks s) as (H1 & H2 & H3).
  fold s' in Hc, Hk, Ho, Hlog, H1, H2, H3.
  split; [apply Hr|]. split; [exact Hk|].
  split; [unfold signals_sent; now rewrite Hk|].
  split; [split; [exact H1|split; [exact H2|rewrite H3; apply Hr]]|].
  split; [apply Hc|].
  split; [exact Ho|]. split.
  - rewrite Hlog, Hw, HL, Hn, Hp. reflexivity.
  - reflexivity.
Qed.

End Cancellation.

Lemma cancel_kills_and_records_cancelled_witness :
  let s' := step a_TypeError EvCancel
              (run a_TypeError (started hello_script ada_params, hello_world)
                 [EvStdout [x48; x69]; EvRead]) in
  e_kills (fst s') = 1%nat /\
  List.map lc_output (w_ledger (snd s')) = [[lit "Hi"; KILLED_MESSAGE]].
Proof.
  destruct (cancel_kills_and_records_cancelled a_TypeError stringify_empty
              hello_script ada_params None (lit "/home/dev") empty_world hello_world
              (started hello_script ada_params) [EvStdout [x48; x69]; EvRead]
              a_timestamp hello_started eq_refl)
    as (_ & Hk & _ & _ & _ & _ & Hlog & _).
  cbv zeta. split; [exact Hk|]. rewrite Hlog. vm_compute. reflexivity.
Defined.

(** C9, as stated, fails: the signal of the cancellation is no forceful
    one. A child that catches it goes on: here it still writes to stdout
    after the cancellation, which the loop reads, and then exits by
    itself with code 0. *)
Lemma cancel_does_not_force_the_child :
  let s := run a_TypeError (started hello_script ada_params, hello_world)
             [EvCancel; EvStdout [x48; x69]; EvExited (Some 0%Z)] in
  signals_sent (fst s) = [SIGTERM] /\
  existsb forceful (signals_sent (fst s)) = false /\
  e_outputLines (fst s)
    = [KILLED_MESSAGE; lit "Hi"; exitMessage (Some 0%Z); errorMessage a_TypeError].
Proof. vm_compute. repeat split; reflexivity. Qed.

(** ** The decoder on well-formed UTF-8 *)

Ltac Zify.zify_post_hook ::= Z.to_euclidean_division_equations.

Lemma land_shiftl_low c l k : l < 2 ^ k -> N.land (N.shiftl c k) l = 0.
Proof.
  intros Hl. apply N.bits_inj. intros n.
  rewrite N.land_spec, N.bits_0.
  destruct (N.lt_ge_cases n k) as [Hn|Hn].
  - now rewrite N.shiftl_spec_low.
  - rewrite <- (N.mod_small l (2 ^ k)) by exact Hl.
    rewrite N.mod_pow2_bits_high by exact Hn. apply andb_false_r.
Qed.

Lemma lor_shiftl c l k : l < 2 ^ k -> N.lor (N.shiftl c k) l = c * 2 ^ k + l.
Proof.
  intros Hl. pose proof (land_shiftl_low c l k Hl) as H0.
  rewrite <- N.lxor_lor, <- N.add_nocarry_lxor by exact H0.
  now rewrite N.shiftl_mul_pow2.
Qed.

Lemma land_3F b : N.land b 0x3F = b mod 64.
Proof. change 0x3F with (N.ones 6). apply N.land_ones. Qed.

Lemma land_1F b : N.land b 0x1F = b mod 32.
Proof. change 0x1F with (N.ones 5). apply N.land_ones. Qed.

Lemma land_0F b : N.land b 0xF = b mod 16.
Proof. change 0xF with (N.ones 4). apply N.land_ones. Qed.

Lemma land_07 b : N.land b 0x7 = b mod 8.
Proof. change 0x7 with (N.ones 3). apply N.land_ones. Qed.

Lemma continuation_value c b :
  N.lor (N.shiftl c 6) (N.land b 0x3F) = c * 64 + b mod 64.
Proof.
  rewrite land_3F. rewrite lor_shiftl; [reflexivity|].
  change (2 ^ 6) with 64. apply N.mod_lt. discriminate.
Qed.

Lemma continuation_byte x : N.lor 0x80 (N.land x 0x3F) = 128 + x mod 64.
Proof.
  rewrite land_3F. change 0x80 with (N.shiftl 1 7).
  rewrite lor_shiftl; [reflexivity|].
  change (2 ^ 7) with 128. pose proof (N.mod_lt x 64). lia.
Qed.

Lemma to_N_byte_of_N n : n < 256 -> Byte.to_N (byte_of_N n) = n.
Proof.
  intros Hn. unfold byte_of_N. destruct (Byte.of_N n) as [b|] eqn:E.
  - now apply Byte.to_of_N.
  - apply Byte.of_N_None_iff in E. lia.
Qed.

Ltac decide_cmp :=
  repeat match goal with
         | |- context [?a <=? ?b] =>
             first [ replace (a <=? b) with true
                       by (symmetry; apply N.leb_le; lia)
                   | replace (a <=? b) with false
                       by (symmetry; apply N.leb_gt; lia) ]
         | |- context [?a =? ?b] =>
             first [ replace (a =? b) with true
                       by (symmetry; apply N.eqb_eq; lia)
                   | replace (a =? b) with false
                       by (symmetry; apply N.eqb_neq; lia)
                   | destruct (N.eqb_spec a b) ]
         end.

Ltac to_arith :=
  rewrite ?continuation_value, ?continuation_byte, ?land_1F, ?land_0F, ?land_07,
    ?N.shiftr_div_pow2;
  change (2 ^ 6) with 64; change (2 ^ 12) with 4096; change (2 ^ 18) with 262144.

Lemma utf8_run_encode_cp cp :
  is_scalar cp = true ->
  utf8_run utf8_init (utf8_encode_cp cp) = (utf8_init, [cp]).
Proof.
  unfold is_scalar, in_range. intros Hs.
  apply andb_true_iff in Hs as [Hmax Hsur].
  apply N.leb_le in Hmax. apply negb_true_iff, andb_false_iff in Hsur.
  assert (Hns : cp < 0xD800 \/ 0xDFFF < cp)
    by (destruct Hsur as [H|H]; apply N.leb_gt in H; lia).
  clear Hsur. unfold utf8_encode_cp.
  destruct (N.leb_spec cp 0x7F) as [H1|H1].
  - cbn [utf8_run]. rewrite to_N_byte_of_N by lia.
    unfold utf8_handler, utf8_lead. cbn [u_needed utf8_init].
    decide_cmp. reflexivity.
  - destruct (N.leb_spec cp 0x7FF) as [H2|H2].
    + cbn [utf8_run]. to_arith. rewrite !to_N_byte_of_N by lia.
      unfold utf8_handler at 1. unfold utf8_lead, in_range.
      cbn [u_needed utf8_init]. decide_cmp. cbn [andb negb].
      unfold utf8_handler, in_range.
      cbn [u_needed u_lower u_upper u_seen u_cp]. to_arith.
      decide_cmp. cbn [andb negb app]. repeat f_equal. lia.
    + destruct (N.leb_spec cp 0xFFFF) as [H3|H3].
      * cbn [utf8_run]. to_arith. rewrite !to_N_byte_of_N by lia.
        unfold utf8_handler at 1. unfold utf8_lead, in_range.
        cbn [u_needed utf8_init]. decide_cmp; cbn [andb negb].
        all: unfold utf8_handler at 1; unfold in_range;
          cbn [u_needed u_lower u_upper u_seen u_cp]; to_arith;
          decide_cmp; cbn [andb negb].
        all: unfold utf8_handler, in_range;
          cbn [u_needed u_lower u_upper u_seen u_cp]; to_arith;
          decide_cmp; cbn [andb negb app]; repeat f_equal; lia.
      * cbn [utf8_run]. to_arith. rewrite !to_N_byte_of_N by lia.
        unfold utf8_handler at 1. unfold utf8_lead, in_range.
        cbn [u_needed utf8_init]. decide_cmp; cbn [andb negb].
        all: unfold utf8_handler at 1; unfold in_range;
          cbn [u_needed u_lower u_upper u_seen u_cp]; to_arith;
          decide_cmp; cbn [andb negb].
        all: unfold utf8_handler at 1; unfold in_range;
          cbn [u_needed u_lower u_upper u_seen u_cp]; to_arith;
          decide_cmp; cbn [andb negb].
        all: unfold utf8_handler, in_range;
          cbn [u_needed u_lower u_upper u_seen u_cp]; to_arith;
          decide_cmp; cbn [andb negb app]; repeat f_equal; lia.
Qed.

Lemma utf8_run_app st a b :
  utf8_run st (a ++ b) =
  let '(st1, o1) := utf8_run st a in
  let '(st2, o2) := utf8_run st1 b in
  (st2, o1 ++ o2).
Proof.
  revert st. induction a as [|x a IH]; intros st.
  - cbn [app utf8_run]. now destruct (utf8_run st b).
  - cbn [app utf8_run]. destruct (utf8_handler st (Byte.to_N x)) as [st1 o1].
    rewrite IH. destruct (utf8_run st1 a) as [st2 o2].
    destruct (utf8_run st2 b) as [st3 o3]. now rewrite app_assoc.
Qed.

Lemma utf8_run_encode t :
  forallb is_scalar t = true ->
  utf8_run utf8_init (encode t) = (utf8_init, t).
Proof.
  induction t as [|cp t IH]; intros H; [reflexivity|].
  cbn [forallb] in H. apply andb_true_iff in H as [Hcp Ht].
  unfold encode in *. cbn [List.map List.concat].
  rewrite utf8_run_app, (utf8_run_encode_cp cp Hcp), (IH Ht). reflexivity.
Qed.

Lemma decode_nil d : decode d [] = (d, []).
Proof. now destruct d. Qed.

(** Decoding does not depend on where the reads cut the bytes. *)
Lemma decode_app d a b :
  decode d (a ++ b) =
  let '(d1, t1) := decode d a in
  let '(d2, t2) := decode d1 b in
  (d2, t1 ++ t2).
Proof.
  unfold decode. rewrite utf8_run_app.
  destruct (utf8_run (td_utf8 d) a) as [st1 o1].
  destruct o1 as [|c o1]; cbn [td_utf8 td_bomSeen app].
  - destruct (utf8_run st1 b) as [st2 o2]. now destruct o2.
  - destruct (utf8_run st1 b) as [st2 o2].
    destruct o2 as [|c2 o2]; cbn [app].
    + rewrite !app_nil_r. reflexivity.
    + destruct (td_bomSeen d); [reflexivity|].
      destruct (c =? BOM); reflexivity.
Qed.

Lemma decode_reads_concat d values :
  decode d (List.concat values) =
  let '(d', texts) := decode_reads d values in (d', List.concat texts).
Proof.
  revert d. induction values as [|v values IH]; intros d.
  - apply decode_nil.
  - cbn [List.concat decode_reads]. rewrite decode_app.
    destruct (decode d v) as [d1 t1]. rewrite IH.
    destruct (decode_reads d1 values) as [d2 ts]. reflexivity.
Qed.

Lemma decode_encode t :
  well_formed t = true -> snd (decode newTextDecoder (encode t)) = t.
Proof.
  unfold well_formed. intros H. apply andb_true_iff in H as [Hs Hb].
  unfold decode, newTextDecoder. cbn [td_utf8 td_bomSeen].
  rewrite (utf8_run_encode t Hs).
  destruct t as [|c t]; [reflexivity|].
  apply negb_true_iff in Hb. now rewrite Hb.
Qed.

Lemma decode_reads_encode t values :
  well_formed t = true -> List.concat values = encode t ->
  List.concat (snd (decode_reads newTextDecoder values)) = t.
Proof.
  intros Hwf Hv. rewrite <- (decode_encode t Hwf), <- Hv.
  rewrite decode_reads_concat.
  now destruct (decode_reads newTextDecoder values).
Qed.

(** ** What the stream carries of stdout and stderr *)

Lemma chunks_of_app o q1 q2 :
  chunks_of o (q1 ++ q2) = chunks_of o q1 ++ chunks_of o q2.
Proof. unfold chunks_of. now rewrite List.filter_app, List.map_app. Qed.

Lemma stdout_values_cons ev trace :
  stdout_values (ev :: trace) = stdout_values [ev] ++ stdout_values trace.
Proof. destruct ev; reflexivity. Qed.

Lemma stderr_values_cons ev trace :
  stderr_values (ev :: trace) = stderr_values [ev] ++ stderr_values trace.
Proof. destruct ev; reflexivity. Qed.

Lemma decode_reads_app d v1 v2 :
  snd (decode_reads d (v1 ++ v2)) =
  snd (decode_reads d v1) ++ snd (decode_reads (fst (decode_reads d v1)) v2).
Proof.
  revert d. induction v1 as [|v v1 IH]; intros d; [reflexivity|].
  cbn [app decode_reads]. destruct (decode d v) as [d1 t].
  specialize (IH d1).
  destruct (decode_reads d1 (v1 ++ v2)) as [d2 ts].
  destruct (decode_reads d1 v1) as [d3 ts1]. cbn [fst snd] in *.
  now rewrite IH.
Qed.

(** C2, as stated, fails: the byte 0xFF on stdout is not UTF-8; the decoder
    replaces it by U+FFFD, and the chunk encodes to three other bytes. *)
Lemma invalid_byte_is_replaced :
  let q := e_enqueued (fst (run a_TypeError (started hello_script ada_params, hello_world)
                              ([EvStdout [xff]] ++ closing_trace))) in
  chunks_of Stdout q = [[REPLACEMENT]] /\
  encode (List.concat (chunks_of Stdout q)) = [xef; xbf; xbd] /\
  encode (List.concat (chunks_of Stdout q)) <> List.concat (stdout_values [EvStdout [xff]]).
Proof.
  cbv zeta. split; [vm_compute; reflexivity|].
  split; [vm_compute; reflexivity|]. vm_compute. discriminate.
Qed.

(** The other two restrictions of the amended claim are needed as well: a
    byte order mark in front is dropped, and the bytes of a character cut
    off by the end of the stream are never flushed. *)
Example leading_bom_is_dropped :
  chunks_of Stdout
    (e_enqueued (fst (run a_TypeError (started hello_script ada_params, hello_world)
                        ([EvStdout [xef; xbb; xbf; x41]] ++ closing_trace))))
    = [[0x41]].
Proof. vm_compute. reflexivity. Qed.

Example trailing_partial_character_is_dropped :
  chunks_of Stdout
    (e_enqueued (fst (run a_TypeError (started hello_script ada_params, hello_world)
                        ([EvStdout [x41]; EvStdout [xe2; x82]] ++ closing_trace))))
    = [[0x41]; []].
Proof. vm_compute. reflexivity. Qed.

(** Bytes that a loop reads after the exit was observed are pushed to
    [outputLines] but not enqueued: the controller is closed. *)
Example output_read_after_exit_is_not_enqueued :
  let s := run a_TypeError (started hello_script ada_params, hello_world)
             [EvExited (Some 0%Z); EvStdout [x41]] in
  chunks_of Stdout (e_enqueued (fst s)) = [] /\
  e_outputLines (fst s) = [exitMessage (Some 0%Z); [0x41]] /\
  e_stdout (fst s) = Finished.
Proof. vm_compute. repeat split; reflexivity. Qed.

(** When the consumer has read the exit chunk before it cancels, the
    stream is closed already, the source's [cancel] does not run and the
    ledger keeps its one record. *)
Example cancel_after_drained_completion_logs_once :
  List.map lc_exitCode
    (w_ledger (snd (run a_TypeError (started hello_script ada_params, hello_world)
                      [EvExited (Some 0%Z); EvRead; EvCancel])))
    = [Some 0%Z].
Proof. vm_compute. reflexivity. Qed.

(** ** More on the parameter binder *)

(** X1. The error of the binder names the first required parameter without
    a value, in declaration order: no required parameter before it lacks
    a value. *)
Theorem binding_error_names_first_missing
    (ps : list ScriptParam) (params : gmap (list N) JSValue) (m : list N)
    (Hthrow : build_args ps params [] = Throw m) :
  exists before p after,
    ps = before ++ p :: after /\
    m = missing_message (sp_name p) /\
    required_missing params p = true /\
    Forall (fun q => required_missing params q = false) before.
Proof.
  rewrite build_args_closed_form in Hthrow.
  destruct (List.find (stops params) ps) as [p|] eqn:F; [|discriminate].
  destruct (required_missing params p) eqn:R; [|discriminate].
  injection Hthrow as <-.
  apply find_first in F as (before & after & -> & Hp & Hb).
  exists before, p, after. repeat split; auto.
  eapply List.Forall_impl; [|exact Hb].
  intros q Hq. unfold stops in Hq. now apply orb_false_iff in Hq.
Qed.

Lemma binding_error_names_first_missing_witness :
  exists before p after,
    [param_count; param_name; param_excited] = before ++ p :: after /\
    sp_name p = lit "name".
Proof.
  assert (Hthrow : build_args [param_count; param_name; param_excited] ∅ []
                   = Throw (missing_message (lit "name")))
    by (vm_compute; reflexivity).
  destruct (binding_error_names_first_missing
              [param_count; param_name; param_excited] ∅
              (missing_message (lit "name")) Hthrow)
    as (before & p & after & Hps & Hm & _ & _).
  exists before, p, after. split; [exact Hps|].
  unfold missing_message in Hm.
  apply app_inv_head in Hm. apply app_inv_tail in Hm. now symmetry.
Defined.

(** X2. A key of the mapping that no declared parameter has is ignored:
    the binder gives the same result with and without it. *)
Theorem binding_ignores_undeclared_keys
    (ps : list ScriptParam) (params : gmap (list N) JSValue)
    (key : list N) (v : JSValue) (args : list (list N))
    (Hundeclared : Forall (fun p => sp_name p <> key) ps) :
  build_args ps (<[key := v]> params) args = build_args ps params args.
Proof.
  revert args. induction ps as [|p ps IH]; intros args; [reflexivity|].
  inversion Hundeclared as [|? ? Hp Hps]; subst.
  cbn [build_args].
  assert (E : prop_get (<[key := v]> params) (sp_name p) = prop_get params (sp_name p))
    by (unfold prop_get; now rewrite lookup_insert_ne by congruence).
  rewrite E.
  destruct (sp_required p && is_missing (prop_get params (sp_name p)));
    [reflexivity|].
  destruct (negb (is_missing (prop_get params (sp_name p)))); [|now apply IH].
  destruct (String_ (prop_get params (sp_name p))); [now apply IH|reflexivity].
Qed.

Lemma binding_ignores_undeclared_keys_witness :
  build_args (sm_params hello_script)
    (<[lit "verbose" := JBool true]> ada_params) []
  = Return [lit "Ada"; lit "true"].
Proof.
  rewrite (binding_ignores_undeclared_keys (sm_params hello_script) ada_params
             (lit "verbose") (JBool true) []).
  - vm_compute. reflexivity.
  - repeat constructor; vm_compute; discriminate.
Defined.

(** X3. The binder never looks at the declared type of a parameter: two
    declarations with the same names and required flags bind every mapping
    alike, so a value of another type than declared is passed on as it
    is. *)
Theorem binding_never_checks_types
    (ps ps' : list ScriptParam) (params : gmap (list N) JSValue)
    (args : list (list N))
    (Hsame : List.map (fun p => (sp_name p, sp_required p)) ps
             = List.map (fun p => (sp_name p, sp_required p)) ps') :
  build_args ps params args = build_args ps' params args.
Proof.
  revert ps' args Hsame. induction ps as [|p ps IH]; intros [|p' ps'] args Hsame;
    try discriminate; [reflexivity|].
  cbn [List.map] in Hsame. injection Hsame as Hn Hr Hrest.
  cbn [build_args]. rewrite Hn, Hr.
  destruct (sp_required p' && is_missing (prop_get params (sp_name p')));
    [reflexivity|].
  destruct (negb (is_missing (prop_get params (sp_name p')))); [|now apply IH].
  destruct (String_ (prop_get params (sp_name p'))); [now apply IH|reflexivity].
Qed.

Lemma binding_never_checks_types_witness :
  build_args [ {| sp_name := lit "count"; sp_type := TNumber; sp_required := true |} ]
    (<[lit "count" := JStr (lit "many")]> ∅) []
  = Return [lit "many"].
Proof.
  rewrite (binding_never_checks_types
             [ {| sp_name := lit "count"; sp_type := TNumber; sp_required := true |} ]
             [ {| sp_name := lit "count"; sp_type := TString; sp_required := true |} ]
             (<[lit "count" := JStr (lit "many")]> ∅) [] eq_refl).
  vm_compute. reflexivity.
Defined.

(** ** The command line and the spawn *)

Lemma startsWith_iff s pre :
  startsWith s pre = true <-> exists rest, s = pre ++ rest.
Proof.
  revert s. induction pre as [|p pre IH]; intros s.
  - split; [intros _; now exists s|now destruct s].
  - destruct s as [|c s]; cbn [startsWith].
    + split; [discriminate|]. intros [rest H]. discriminate.
    + rewrite andb_true_iff, N.eqb_eq, IH. split.
      * intros [-> [rest ->]]. eauto.
      * intros [rest H]. injection H as -> ->. eauto.
Qed.

Lemma endsWith_iff s suf :
  endsWith s suf = true <-> exists front, s = front ++ suf.
Proof.
  unfold endsWith. rewrite startsWith_iff. split.
  - intros [rest H]. exists (rev rest).
    apply (f_equal (@rev _)) in H. rewrite rev_involutive in H.
    now rewrite H, rev_app_distr, rev_involutive.
  - intros [front ->]. exists (rev front). apply rev_app_distr.
Qed.

Lemma command_for_supported script args :
  command_for script args =
  if supported (sm_fileName script)
  then Return (interpreter_prefix script ++ args)
  else Throw (lit "Unsupported script type: " ++ sm_fileName script).
Proof.
  unfold command_for, supported, interpreter_prefix.
  destruct (endsWith (sm_fileName script) (lit ".sh")); [reflexivity|].
  destruct (endsWith (sm_fileName script) (lit ".js")); [reflexivity|].
  destruct (endsWith (sm_fileName script) (lit ".ts")); reflexivity.
Qed.

(** X4. [executeScript] starts a child exactly when the binder returns,
    the file name ends in [.sh], [.js] or [.ts] (in lower case, anywhere
    from a bare [".sh"] on), and the operating system does not refuse to
    spawn the command line in the directory. *)
Theorem executeScript_starts_iff_bound_and_supported
    (script : ScriptMetadata) (params : gmap (list N) JSValue)
    (workingDir : option (list N)) (process_cwd : list N) (w0 : World) :
  (exists e0 w,
     executeScript script params workingDir process_cwd w0 = (Return e0, w)) <->
  (exists args,
     build_args (sm_params script) params [] = Return args /\
     w_spawn_error w0
       {| so_cmd := interpreter_prefix script ++ args;
          so_cwd := cwd_for workingDir process_cwd |} = None) /\
  (exists front,
     sm_fileName script = front ++ lit ".sh" \/
     sm_fileName script = front ++ lit ".js" \/
     sm_fileName script = front ++ lit ".ts").
Proof.
  unfold executeScript, spawn.
  assert (Hsup : supported (sm_fileName script) = true <->
            exists front,
              sm_fileName script = front ++ lit ".sh" \/
              sm_fileName script = front ++ lit ".js" \/
              sm_fileName script = front ++ lit ".ts").
  { unfold supported. rewrite !orb_true_iff, !endsWith_iff. split.
    - intros [[[f H]|[f H]]|[f H]]; exists f; auto.
    - intros [f [H|[H|H]]]; eauto. }
  rewrite <- Hsup.
  destruct (build_args (sm_params script) params []) as [args|m|].
  - rewrite command_for_supported.
    destruct (supported (sm_fileName script)).
    + destruct (w_spawn_error w0 _) as [message|] eqn:E; split.
      * intros (e0 & w & H). discriminate.
      * intros [(args' & [= <-] & H) _]. congruence.
      * intros _. eauto.
      * intros _. eauto.
    + split.
      * intros (e0 & w & H). discriminate.
      * intros [_ H]. discriminate.
  - split.
    + intros (e0 & w & H). discriminate.
    + intros [(args & H & _) _]. discriminate.
  - split.
    + intros (e0 & w & H). discriminate.
    + intros [(args & H & _) _]. discriminate.
Qed.

(** X5. Whenever [executeScript] throws, nothing was spawned and nothing
    logged. The error is the binder's; or, only when the binder returned,
    the unsupported-type error with the file name; or, only when the
    binder returned and the extension is known, the error of [spawn]: a
    missing required parameter is reported before an unsupported
    extension, and that before a directory that does not exist. *)
Theorem executeScript_failure_leaves_world
    (script : ScriptMetadata) (params : gmap (list N) JSValue)
    (workingDir : option (list N)) (process_cwd : list N) (w0 w : World)
    (thrown : Completion Exec)
    (Hthrow : executeScript script params workingDir process_cwd w0 = (thrown, w))
    (Hnot : forall e0, thrown <> Return e0) :
  w = w0 /\
  ((build_args (sm_params script) params [] = ThrowTypeError /\
    thrown = ThrowTypeError) \/
   (exists m, build_args (sm_params script) params [] = Throw m /\
              thrown = Throw m) \/
   (exists args,
      build_args (sm_params script) params [] = Return args /\
      supported (sm_fileName script) = false /\
      thrown = Throw (lit "Unsupported script type: " ++ sm_fileName script)) \/
   (exists args m,
      build_args (sm_params script) params [] = Return args /\
      supported (sm_fileName script) = true /\
      w_spawn_error w0
        {| so_cmd := interpreter_prefix script ++ args;
           so_cwd := cwd_for workingDir process_cwd |} = Some m /\
      thrown = Throw m)).
Proof.
  unfold executeScript, spawn in Hthrow.
  destruct (build_args (sm_params script) params []) as [args|m'|].
  - rewrite command_for_supported in Hthrow.
    destruct (supported (sm_fileName script)).
    + destruct (w_spawn_error w0 _) as [message|] eqn:E.
      * injection Hthrow as <- <-. split; [reflexivity|].
        right. right. right. exists args, message. auto.
      * injection Hthrow as <- <-. now destruct (Hnot (started script params)).
    + injection Hthrow as <- <-. split; [reflexivity|]. right. right. left. eauto.
  - injection Hthrow as <- <-. split; [reflexivity|]. right. left. eauto.
  - injection Hthrow as <- <-. auto.
Qed.

(** X6. When [executeScript] returns, it has spawned one child and logged
    nothing; the command line is [bash <path>] for a [.sh] file and
    [bun run <path>] otherwise, followed by the bound arguments in their
    order, and the directory is [workingDir] unless that is absent or
    empty. *)
Theorem executeScript_spawns_one_child
    (script : ScriptMetadata) (params : gmap (list N) JSValue)
    (workingDir : option (list N)) (process_cwd : list N) (w0 w : World)
    (e0 : Exec)
    (Hstart : executeScript script params workingDir process_cwd w0 = (Return e0, w)) :
  exists args,
    build_args (sm_params script) params [] = Return args /\
    w_spawned w = w_spawned w0 ++
      [ {| so_cmd := interpreter_prefix script ++ args;
           so_cwd := match workingDir with
                     | None | Some [] => process_cwd
                     | Some dir => dir
                     end |} ] /\
    w_ledger w = w_ledger w0 /\
    e_outputLines e0 = [] /\ e_enqueued e0 = [].
Proof.
  unfold executeScript, spawn in Hstart.
  destruct (build_args (sm_params script) params []) as [args|m'|];
    try discriminate.
  rewrite command_for_supported in Hstart.
  destruct (supported (sm_fileName script)); [|discriminate].
  destruct (w_spawn_error w0 _); [discriminate|].
  injection Hstart as <- <-. exists args. cbn.
  repeat split. destruct workingDir as [[|c d]|]; reflexivity.
Qed.

Lemma executeScript_failure_leaves_world_witness :
  executeScript hello_script ada_params (Some (lit "/nowhere")) (lit "/home/dev")
    nowhere_world
    = (Throw (lit "ENOENT: no such file or directory"), nowhere_world) /\
  supported (sm_fileName hello_script) = true.
Proof.
  assert (Hthrow : executeScript hello_script ada_params (Some (lit "/nowhere"))
                     (lit "/home/dev") nowhere_world
                   = (Throw (lit "ENOENT: no such file or directory"), nowhere_world))
    by (vm_compute; reflexivity).
  assert (Hnot : forall e0 : Exec,
            Throw (lit "ENOENT: no such file or directory") <> Return e0)
    by discriminate.
  destruct (executeScript_failure_leaves_world hello_script ada_params
              (Some (lit "/nowhere")) (lit "/home/dev") nowhere_world nowhere_world
              _ Hthrow Hnot)
    as [_ [[H _]|[(m & H & _)|[(args & _ & H & _)|(args & m & _ & H & _)]]]].
  - vm_compute in H. discriminate.
  - vm_compute in H. discriminate.
  - vm_compute in H. discriminate.
  - split; [exact Hthrow|exact H].
Defined.

Lemma executeScript_spawns_one_child_witness :
  List.map so_cmd (w_spawned hello_world)
    = [[lit "bash"; lit "/scripts/hello.sh"; lit "Ada"; lit "true"]].
Proof.
  destruct (executeScript_spawns_one_child hello_script ada_params None
              (lit "/home/dev") empty_world hello_world _ hello_started)
    as (args & Hargs & Hspawn & _).
  rewrite Hspawn.
  assert (args = [lit "Ada"; lit "true"]) as ->
    by (vm_compute in Hargs; now injection Hargs).
  vm_compute. reflexivity.
Defined.
(** ** More on the log file *)

Lemma length_split_cons sep c s :
  length (split sep (c :: s)) =
  if c =? sep then S (length (split sep s)) else length (split sep s).
Proof.
  cbn [split]. destruct (c =? sep); [reflexivity|].
  pose proof (split_not_nil sep s).
  destruct (split sep s); [congruence|reflexivity].
Qed.

Lemma length_split_pos sep s : (1 <= length (split sep s))%nat.
Proof.
  pose proof (split_not_nil sep s). destruct (split sep s); [congruence|].
  cbn [length]. lia.
Qed.

Lemma length_split_app sep a b :
  length (split sep (a ++ b)) =
  (length (split sep a) + length (split sep b) - 1)%nat.
Proof.
  induction a as [|c a IH].
  - cbn [app split length]. lia.
  - change ((c :: a) ++ b) with (c :: (a ++ b)).
    rewrite !length_split_cons, IH.
    pose proof (length_split_pos sep a). pose proof (length_split_pos sep b).
    destruct (c =? sep); lia.
Qed.

Lemma split_sep_app sep d r :
  split sep (d ++ sep :: r) = split sep d ++ split sep r.
Proof.
  induction d as [|c d IH].
  - cbn [app split]. now rewrite N.eqb_refl.
  - change ((c :: d) ++ sep :: r) with (c :: (d ++ sep :: r)).
    cbn [split]. rewrite IH. destruct (c =? sep); [reflexivity|].
    pose proof (split_not_nil sep d).
    destruct (split sep d); [congruence|reflexivity].
Qed.

Lemma slice_last_app {A} n (front l : list A) :
  (n <= length l)%nat -> slice_last n (front ++ l) = slice_last n l.
Proof.
  intros H. unfold slice_last. rewrite length_app.
  replace (length front + length l - n)%nat
    with (length front + (length l - n))%nat by lia.
  rewrite skipn_app, skipn_all2 by lia.
  replace (length front + (length l - n) - length front)%nat
    with (length l - n)%nat by lia.
  reflexivity.
Qed.

(** What a trim does: nothing within the ceiling; above it, the text up
    to and including one newline goes and the last [MAX_LINES] lines
    stay. *)
Lemma trimLogFile_cases content :
  (N.of_nat (length (split NL content)) <= MAX_LINES /\
   trimLogFile (Some content) = Some content) \/
  (MAX_LINES < N.of_nat (length (split NL content)) /\
   exists d content',
     trimLogFile (Some content) = Some content' /\
     content = d ++ NL :: content' /\
     split NL content' = slice_last (N.to_nat MAX_LINES) (split NL content)).
Proof.
  destruct (trimLogFile_lines content) as (c' & Htrim & Hlines).
  unfold trimLogFile in *.
  destruct (MAX_LINES <? N.of_nat (length (split NL content))) eqn:E.
  - right. apply N.ltb_lt in E. split; [exact E|].
    injection Htrim as <-. unfold slice_last in *.
    set (lines := split NL content) in *.
    set (k := (length lines - N.to_nat MAX_LINES)%nat) in *.
    exists (join NL (firstn k lines)). eexists. split; [reflexivity|].
    split; [|exact Hlines].
    rewrite <- (join_split NL content) at 1. fold lines.
    rewrite <- (firstn_skipn k lines) at 1.
    apply join_app.
    + intros H. apply (f_equal (@length _)) in H.
      rewrite length_firstn in H. cbn [length] in H.
      unfold k, MAX_LINES in *. lia.
    + intros H. apply (f_equal (@length _)) in H.
      rewrite length_skipn in H. cbn [length] in H.
      unfold k, MAX_LINES in *. lia.
  - left. apply N.ltb_ge in E. auto.
Qed.

(** X7. Trimming is idempotent: a trimmed file is within the ceiling, and
    a second trim leaves it as it is. *)
Theorem trimLogFile_idempotent (file : option (list N)) :
  trimLogFile (trimLogFile file) = trimLogFile file.
Proof.
  destruct file as [content|]; [|reflexivity].
  destruct (trimLogFile_lines content) as (c' & Htrim & Hlines).
  rewrite Htrim. unfold trimLogFile.
  rewrite Hlines, length_slice_last.
  destruct (MAX_LINES <? _) eqn:E; [|reflexivity].
  apply N.ltb_lt in E. unfold MAX_LINES in *. lia.
Qed.

Section Cycles.

Variable JSON_stringify : gmap (list N) JSValue -> list N.

Lemma cycles_lines e es file :
  exists content,
    cycles JSON_stringify (e :: es) file = Some content /\
    split NL content =
      slice_last (N.to_nat MAX_LINES)
        (split NL (appended_text JSON_stringify file (e :: es))).
Proof.
  revert e file. induction es as [|e2 es IH]; intros e file.
  - unfold appended_text. cbn [cycles fold_left List.map List.concat].
    rewrite app_nil_r.
    destruct (logExecution_lines JSON_stringify (fst e) (snd e) file)
      as (c & Hc & Hl).
    exists c. split; [exact Hc|exact Hl].
  - change (cycles JSON_stringify (e :: e2 :: es) file)
      with (cycles JSON_stringify (e2 :: es)
              (logExecution JSON_stringify (fst e) (snd e) file)).
    set (X := default [] file ++ logContent JSON_stringify (fst e) (snd e)).
    assert (Hall : appended_text JSON_stringify file (e :: e2 :: es)
                   = X ++ List.concat (List.map
                       (fun e => logContent JSON_stringify (fst e) (snd e))
                       (e2 :: es))).
    { unfold appended_text, X. cbn [List.map List.concat].
      now rewrite app_assoc. }
    unfold logExecution, appendFile. fold X.
    destruct (trimLogFile_cases X) as [[Hle Htrim]|(Hlt & d & c1 & Htrim & HX & Hl)];
      rewrite Htrim.
    + destruct (IH e2 (Some X)) as (content & Hc & Hlines).
      exists content. split; [exact Hc|].
      rewrite Hlines. unfold appended_text at 1.
      change (default [] (Some X)) with X.
      now rewrite Hall.
    + destruct (IH e2 (Some c1)) as (content & Hc & Hlines).
      exists content. split; [exact Hc|].
      rewrite Hlines, Hall. unfold appended_text.
      change (default [] (Some c1)) with c1.
      set (R := List.concat _).
      replace (X ++ R) with (d ++ NL :: (c1 ++ R))
        by (rewrite HX, <- app_assoc; reflexivity).
      rewrite split_sep_app.
      symmetry. apply slice_last_app.
      rewrite length_split_app, Hl, length_slice_last.
      pose proof (length_split_pos NL R). unfold MAX_LINES in *. lia.
Qed.

(** X8. Trimming after every append gives the same file as one trim at
    the end: after one or more cycles the lines of the log file are the
    last [MAX_LINES] lines of the previous content followed by all the
    entries, so its line count is within the ceiling. *)
Theorem cycles_keep_last_lines
    (e : list N * LogCall) (es : list (list N * LogCall))
    (file : option (list N)) :
  exists content,
    cycles JSON_stringify (e :: es) file = Some content /\
    split NL content =
      slice_last (N.to_nat MAX_LINES)
        (split NL (appended_text JSON_stringify file (e :: es))) /\
    (line_count (cycles JSON_stringify (e :: es) file) <= N.to_nat MAX_LINES)%nat.
Proof.
  destruct (cycles_lines e es file) as (content & Hc & Hl).
  exists content. split; [exact Hc|]. split; [exact Hl|].
  rewrite Hc. unfold line_count. rewrite Hl, length_slice_last. lia.
Qed.

(** X9. While everything appended stays within the ceiling, nothing is
    dropped: the file is the previous content followed by the whole
    entries, in the order of the cycles. *)
Theorem cycles_within_ceiling_keep_everything
    (e : list N * LogCall) (es : list (list N * LogCall))
    (file : option (list N))
    (Hfits : N.of_nat (length (split NL (appended_text JSON_stringify file (e :: es))))
             <= MAX_LINES) :
  cycles JSON_stringify (e :: es) file
    = Some (appended_text JSON_stringify file (e :: es)).
Proof.
  destruct (cycles_lines e es file) as (content & Hc & Hl).
  rewrite Hc. f_equal.
  rewrite slice_last_all in Hl by (unfold MAX_LINES in *; lia).
  rewrite <- (join_split NL content), Hl. apply join_split.
Qed.

End Cycles.

Lemma cycles_within_ceiling_keep_everything_witness :
  cycles stringify_empty [(a_timestamp, short_call); (a_timestamp, short_call)] None
    = Some (logContent stringify_empty a_timestamp short_call
            ++ logContent stringify_empty a_timestamp short_call).
Proof.
  rewrite (cycles_within_ceiling_keep_everything stringify_empty
             (a_timestamp, short_call) [(a_timestamp, short_call)] None).
  - unfold appended_text. cbn [List.map List.concat fst snd].
    now rewrite app_nil_r.
  - vm_compute. discriminate.
Defined.

(** ** [getRecentLogs] *)

Lemma slice_from_negative {A} (n : Z) (l : list A) :
  (0 < n)%Z -> slice_from (- n) l = slice_last (Z.to_nat n) l.
Proof.
  intros Hn. unfold slice_from, slice_last.
  replace (- n <? 0)%Z with true by (symmetry; apply Z.ltb_lt; lia).
  f_equal. lia.
Qed.

Lemma join_skipn_suffix sep k lines :
  exists front, join sep lines = front ++ join sep (skipn k lines).
Proof.
  destruct (Nat.le_gt_cases (length lines) k) as [Hk|Hk].
  - rewrite skipn_all2 by exact Hk. exists (join sep lines).
    now rewrite app_nil_r.
  - destruct k as [|k]; [now exists []|].
    exists (join sep (firstn (S k) lines) ++ [sep]).
    rewrite <- (firstn_skipn (S k) lines) at 1.
    rewrite join_app.
    + now rewrite <- app_assoc.
    + intros H. apply (f_equal (@length _)) in H.
      rewrite length_firstn in H. cbn [length] in H. lia.
    + intros H. apply (f_equal (@length _)) in H.
      rewrite length_skipn in H. cbn [length] in H. lia.
Qed.

(** [trimLogFile] reads the log with [file.text()] as well. The byte
    order mark that this drops stands in the first line, and a trim
    drops the first line whole: reading the content as it is gives the
    same file. *)
Lemma trimLogFile_reads_text content :
  (if MAX_LINES <? N.of_nat (length (split NL (file_text content)))
   then Some (join NL (slice_last (N.to_nat MAX_LINES) (split NL (file_text content))))
   else Some content)
  = trimLogFile (Some content).
Proof.
  unfold trimLogFile. destruct content as [|c text]; [reflexivity|].
  cbn [file_text]. destruct (N.eqb_spec c BOM) as [->|Hc]; [|reflexivity].
  assert (Hs : exists l ls, split NL text = l :: ls /\
                            split NL (BOM :: text) = (BOM :: l) :: ls).
  { cbn [split]. change (BOM =? NL) with false. cbv iota.
    pose proof (split_not_nil NL text).
    destruct (split NL text) as [|l ls]; [congruence|]. eauto. }
  destruct Hs as (l & ls & E1 & E2). rewrite E1, E2. cbn [length].
  destruct (MAX_LINES <? N.of_nat (S (length ls))) eqn:E; [|reflexivity].
  apply N.ltb_lt in E. unfold slice_last. cbn [length].
  replace (S (length ls) - N.to_nat MAX_LINES)%nat
    with (S (length ls - N.to_nat MAX_LINES))%nat by (unfold MAX_LINES in *; lia).
  reflexivity.
Qed.

(** The text of a file is its content, without the byte order mark when
    the content begins with one. *)
Lemma file_text_cases content :
  (file_text content = content /\ hd 0 content <> BOM) \/
  content = BOM :: file_text content.
Proof.
  destruct content as [|c rest]; [left; split; [reflexivity|discriminate]|].
  cbn [file_text hd]. destruct (N.eqb_spec c BOM) as [->|Hc]; auto.
Qed.

(** X10. For a count of at least one, [getRecentLogs] returns the last
    [10 * count] lines of the text of the log file (all of them when
    there are fewer), the text being the content without a byte order
    mark in front: a suffix of the file, whatever the entries are, so it
    may begin inside an entry. *)
Theorem getRecentLogs_returns_last_lines
    (count : Z) (content : list N) (Hcount : (1 <= count)%Z) :
  split NL (getRecentLogs count (Some content))
    = slice_last (Z.to_nat (10 * count)) (split NL (file_text content)) /\
  (length (split NL (getRecentLogs count (Some content)))
     <= Z.to_nat (10 * count))%nat /\
  (exists front, content = front ++ getRecentLogs count (Some content)) /\
  (file_text content = content \/ content = BOM :: file_text content).
Proof.
  unfold getRecentLogs.
  replace (- count * 10)%Z with (- (10 * count))%Z by lia.
  rewrite slice_from_negative by lia.
  set (text := file_text content).
  assert (Hl : split NL (join NL (slice_last (Z.to_nat (10 * count)) (split NL text)))
               = slice_last (Z.to_nat (10 * count)) (split NL text)).
  { apply split_join.
    - intros H. apply (f_equal (@length _)) in H.
      rewrite length_slice_last in H. cbn [length] in H.
      pose proof (length_split_pos NL text). lia.
    - apply Forall_slice_last, split_no_sep. }
  split; [exact Hl|]. split; [|split].
  - rewrite Hl, length_slice_last. lia.
  - unfold slice_last.
    destruct (join_skipn_suffix NL
                (length (split NL text) - Z.to_nat (10 * count))
                (split NL text)) as [front H].
    rewrite join_split in H.
    destruct (file_text_cases content) as [[E _]|E]; fold text in E.
    + exists front. now rewrite <- H.
    + exists (BOM :: front). rewrite E at 1. cbn [app]. now rewrite <- H.
  - destruct (file_text_cases content) as [[E _]|E]; auto.
Qed.

Lemma getRecentLogs_returns_last_lines_witness :
  length (split NL (logContent stringify_empty a_timestamp short_call)) = 12%nat /\
  length (split NL (getRecentLogs 1
            (Some (logContent stringify_empty a_timestamp short_call)))) = 10%nat.
Proof.
  destruct (getRecentLogs_returns_last_lines 1
              (logContent stringify_empty a_timestamp short_call)) as (H & _ & _);
    [lia|].
  split; [vm_compute; reflexivity|].
  rewrite H. vm_compute. reflexivity.
Defined.

(** X11. A count of zero does not give an empty answer: [slice(-0)] is
    [slice(0)], and [getRecentLogs(0)] returns the whole text of the
    file, which is its content but for a byte order mark in front. *)
Theorem getRecentLogs_zero_returns_whole_file (content : list N) :
  getRecentLogs 0 (Some content) = file_text content /\
  (file_text content = content \/ content = BOM :: file_text content).
Proof.
  split.
  - unfold getRecentLogs, slice_from.
    cbn [Z.opp Z.mul Z.ltb Z.compare Z.to_nat skipn]. apply join_split.
  - destruct (file_text_cases content) as [[E _]|E]; auto.
Qed.

(** A log file that begins with a byte order mark is returned without
    it. *)
Example getRecentLogs_drops_the_byte_order_mark :
  getRecentLogs 0 (Some (BOM :: lit "hello")) = lit "hello".
Proof. vm_compute. reflexivity. Qed.

(** ** [parseParam] *)

Lemma split_cons_no_sep sep l s :
  ~ In sep l -> split sep (l ++ sep :: s) = l :: split sep s.
Proof. apply split_app_sep. Qed.

Lemma hd_split_take_while sep s :
  hd [] (split sep s) = take_while (fun c => negb (c =? sep)) s.
Proof.
  induction s as [|c s IH]; [reflexivity|].
  cbn [split take_while]. destruct (c =? sep); [reflexivity|].
  cbn [negb]. rewrite <- IH.
  pose proof (split_not_nil sep s). destruct (split sep s); [congruence|reflexivity].
Qed.

Lemma length_split_count sep s :
  length (split sep s) = S (count_occ N.eq_dec s sep).
Proof.
  induction s as [|c s IH]; [reflexivity|].
  rewrite length_split_cons, IH. cbn [count_occ].
  destruct (N.eqb_spec c sep) as [->|Hne].
  - now destruct (N.eq_dec sep sep).
  - now destruct (N.eq_dec c sep).
Qed.

(** X12. [parseParam] returns null exactly when the first word of the
    annotation, the text before its first space, holds fewer than two
    colons. *)
Theorem parseParam_null_iff_fewer_than_two_colons (value : list N) :
  parseParam value = None <->
  (count_occ N.eq_dec (first_word value) COLON < 2)%nat.
Proof.
  unfold parseParam, first_word. rewrite hd_split_take_while.
  set (word := take_while _ value).
  pose proof (length_split_count COLON word) as Hlen.
  destruct (split COLON word) as [|a [|b [|c rest]]]; cbn [length] in Hlen.
  - lia.
  - split; [lia|reflexivity].
  - split; [lia|reflexivity].
  - split; [discriminate|lia].
Qed.

Lemma split_definition3 name type req :
  ~ In COLON name -> ~ In COLON type -> ~ In COLON req ->
  split COLON (name ++ COLON :: type ++ COLON :: req) = [name; type; req].
Proof.
  intros Hn Ht Hr.
  rewrite split_cons_no_sep by exact Hn.
  rewrite split_cons_no_sep by exact Ht.
  now rewrite split_no_sep_single by exact Hr.
Qed.

Lemma not_in_definition c name type req :
  c <> COLON -> ~ In c name -> ~ In c type -> ~ In c req ->
  ~ In c (name ++ COLON :: type ++ COLON :: req).
Proof.
  intros Hc Hn Ht Hr H.
  apply in_app_or in H as [H|[H|H]]; [auto|congruence|].
  apply in_app_or in H as [H|[H|H]]; [auto|congruence|auto].
Qed.

(** X13. [parseParam] reads back an annotation [name:type:required
    description]: the three fields as written, the flag true exactly for
    the word [required], and as description everything after the first
    space, further spaces and colons included. A fourth field gives the
    options, split at commas, only when it is not empty and the type is
    [select]. *)
Theorem parseParam_reads_annotation
    (name type req opts desc : list N)
    (Hname : no_colon_or_space name) (Htype : no_colon_or_space type)
    (Hreq : no_colon_or_space req) (Hopts : no_colon_or_space opts) :
  parseParam (name ++ COLON :: type ++ COLON :: req ++ SPACE :: desc)
    = Some {| pp_name := name; pp_type := type;
              pp_required := str_eqb req (lit "required");
              pp_description := desc; pp_options := None |} /\
  parseParam (name ++ COLON :: type ++ COLON :: req ++ COLON :: opts ++ SPACE :: desc)
    = Some {| pp_name := name; pp_type := type;
              pp_required := str_eqb req (lit "required");
              pp_description := desc;
              pp_options :=
                if negb (str_eqb opts []) && str_eqb type (lit "select")
                then Some (split COMMA opts) else None |}.
Proof.
  destruct Hname as [Hn1 Hn2], Htype as [Ht1 Ht2], Hreq as [Hr1 Hr2],
    Hopts as [Ho1 Ho2].
  split.
  - unfold parseParam.
    replace (name ++ COLON :: type ++ COLON :: req ++ SPACE :: desc)
      with ((name ++ COLON :: type ++ COLON :: req) ++ SPACE :: desc)
      by (rewrite <- !app_assoc; cbn [app]; rewrite <- !app_assoc; reflexivity).
    rewrite split_cons_no_sep
      by (apply not_in_definition; auto; discriminate).
    cbn [hd tl]. rewrite join_split, split_definition3 by assumption.
    reflexivity.
  - unfold parseParam.
    replace (name ++ COLON :: type ++ COLON :: req ++ COLON :: opts ++ SPACE :: desc)
      with ((name ++ COLON :: type ++ COLON :: req ++ COLON :: opts) ++ SPACE :: desc)
      by (rewrite <- !app_assoc; cbn [app]; rewrite <- !app_assoc; cbn [app];
          rewrite <- !app_assoc; reflexivity).
    rewrite split_cons_no_sep.
    + cbn [hd tl]. rewrite join_split.
      rewrite split_cons_no_sep by exact Hn1.
      rewrite split_cons_no_sep by exact Ht1.
      rewrite split_cons_no_sep by exact Hr1.
      now rewrite split_no_sep_single by exact Ho1.
    + intros H. apply in_app_or in H as [H|[H|H]]; [auto|discriminate|].
      apply in_app_or in H as [H|[H|H]]; [auto|discriminate|].
      apply in_app_or in H as [H|[H|H]]; [auto|discriminate|auto].
Qed.
Lemma no_colon_or_space_b_sound s :
  no_colon_or_space_b s = true -> no_colon_or_space s.
Proof.
  unfold no_colon_or_space_b, no_colon_or_space. rewrite forallb_forall.
  intros H. split; intros Hin; specialize (H _ Hin); discriminate.
Qed.

Lemma parseParam_reads_annotation_witness :
  parseParam (lit "port:number:required The port number to kill")
    = Some {| pp_name := lit "port"; pp_type := lit "number";
              pp_required := true;
              pp_description := lit "The port number to kill";
              pp_options := None |} /\
  option_map pp_options
    (parseParam (lit "manager:select:optional:npm,yarn,pnpm Package manager"))
    = Some (Some [lit "npm"; lit "yarn"; lit "pnpm"]).
Proof.
  destruct (parseParam_reads_annotation (lit "port") (lit "number")
              (lit "required") [] (lit "The port number to kill"))
    as [H1 _]; try (apply no_colon_or_space_b_sound; reflexivity).
  destruct (parseParam_reads_annotation (lit "manager") (lit "select")
              (lit "optional") (lit "npm,yarn,pnpm") (lit "Package manager"))
    as [_ H2]; try (apply no_colon_or_space_b_sound; reflexivity).
  split.
  - exact H1.
  - change (lit "manager:select:optional:npm,yarn,pnpm Package manager")
      with (lit "manager" ++ COLON :: lit "select" ++ COLON :: lit "optional"
              ++ COLON :: lit "npm,yarn,pnpm" ++ SPACE :: lit "Package manager").
    rewrite H2. reflexivity.
Defined.

(** ** [parseScriptMetadata] *)

Lemma fold_parse_line lines md :
  fold_left parse_line lines md =
  fold_left apply_tagged (omap (fun line => match_tag (trim line)) lines) md.
Proof.
  revert md. induction lines as [|l lines IH]; intros md; [reflexivity|].
  cbn [fold_left omap list_omap]. unfold parse_line at 2.
  destruct (match_tag (trim l)) as [[tag value]|]; cbn [fold_left]; apply IH.
Qed.

Lemma str_eqb_true a b : str_eqb a b = true <-> a = b.
Proof. unfold str_eqb. apply bool_decide_eq_true. Qed.

Ltac tag_cases tag :=
  unfold apply_tagged, apply_tag;
  repeat match goal with
         | |- context [str_eqb tag ?l] =>
             let E := fresh "E" in
             destruct (str_eqb tag l) eqn:E;
             [apply str_eqb_true in E; subst tag|]
         end.

Lemma fold_params tags md :
  part_params (fold_left apply_tagged tags md) =
  part_params md ++ omap parseParam (values_of (lit "param") tags).
Proof.
  revert md. induction tags as [|[tag value] tags IH]; intros md.
  - cbn. now rewrite app_nil_r.
  - cbn [fold_left]. rewrite IH. unfold values_of.
    cbn [List.filter fst snd].
    destruct (str_eqb tag (lit "param")) eqn:Ep.
    + apply str_eqb_true in Ep. subst tag.
      unfold apply_tagged, apply_tag. cbn [fst snd].
      change (str_eqb (lit "param") (lit "name")) with false.
      change (str_eqb (lit "param") (lit "description")) with false.
      change (str_eqb (lit "param") (lit "category")) with false.
      change (str_eqb (lit "param") (lit "context")) with false.
      change (str_eqb (lit "param") (lit "param")) with true.
      cbn [List.map omap list_omap snd].
      destruct (parseParam value) as [p|]; cbn [part_params mbind option_bind].
      * now rewrite <- app_assoc.
      * reflexivity.
    + f_equal. unfold apply_tagged, apply_tag. cbn [fst snd]. rewrite Ep.
      destruct (str_eqb tag (lit "name")); [reflexivity|].
      destruct (str_eqb tag (lit "description")); [reflexivity|].
      destruct (str_eqb tag (lit "category")); [reflexivity|].
      destruct (str_eqb tag (lit "context")); [|reflexivity].
      destruct (str_eqb value (lit "terminal") || str_eqb value (lit "browser"));
        reflexivity.
Qed.
Lemma apply_name md tag value :
  part_name (apply_tagged md (tag, value)) =
  if str_eqb tag (lit "name") then Some (trim value) else part_name md.
Proof.
  unfold apply_tagged, apply_tag. cbn [fst snd].
  destruct (str_eqb tag (lit "name")); [reflexivity|].
  destruct (str_eqb tag (lit "description")); [reflexivity|].
  destruct (str_eqb tag (lit "category")); [reflexivity|].
  destruct (str_eqb tag (lit "context")).
  - destruct (str_eqb value (lit "terminal") || str_eqb value (lit "browser"));
      reflexivity.
  - destruct (str_eqb tag (lit "param")); [|reflexivity].
    destruct (parseParam value); reflexivity.
Qed.

Lemma apply_description md tag value :
  part_description (apply_tagged md (tag, value)) =
  if str_eqb tag (lit "description") then Some (trim value)
  else part_description md.
Proof.
  unfold apply_tagged, apply_tag. cbn [fst snd].
  destruct (str_eqb tag (lit "name")) eqn:En.
  - apply str_eqb_true in En. subst tag. reflexivity.
  - destruct (str_eqb tag (lit "description")); [reflexivity|].
    destruct (str_eqb tag (lit "category")); [reflexivity|].
    destruct (str_eqb tag (lit "context")).
    + destruct (str_eqb value (lit "terminal") || str_eqb value (lit "browser"));
        reflexivity.
    + destruct (str_eqb tag (lit "param")); [|reflexivity].
      destruct (parseParam value); reflexivity.
Qed.

Lemma apply_category md tag value :
  part_category (apply_tagged md (tag, value)) =
  if str_eqb tag (lit "category") then trim value else part_category md.
Proof.
  unfold apply_tagged, apply_tag. cbn [fst snd].
  destruct (str_eqb tag (lit "name")) eqn:En.
  - apply str_eqb_true in En. subst tag. reflexivity.
  - destruct (str_eqb tag (lit "description")) eqn:Ed.
    + apply str_eqb_true in Ed. subst tag. reflexivity.
    + destruct (str_eqb tag (lit "category")); [reflexivity|].
      destruct (str_eqb tag (lit "context")).
      * destruct (str_eqb value (lit "terminal") || str_eqb value (lit "browser"));
          reflexivity.
      * destruct (str_eqb tag (lit "param")); [|reflexivity].
        destruct (parseParam value); reflexivity.
Qed.

Lemma apply_context md tag value :
  valid_context (part_context md) ->
  valid_context (part_context (apply_tagged md (tag, value))).
Proof.
  intros H. unfold apply_tagged, apply_tag. cbn [fst snd].
  destruct (str_eqb tag (lit "name")); [exact H|].
  destruct (str_eqb tag (lit "description")); [exact H|].
  destruct (str_eqb tag (lit "category")); [exact H|].
  destruct (str_eqb tag (lit "context")).
  - destruct (str_eqb value (lit "terminal")) eqn:Et.
    + apply str_eqb_true in Et. now left.
    + destruct (str_eqb value (lit "browser")) eqn:Eb; [|exact H].
      apply str_eqb_true in Eb. now right.
  - destruct (str_eqb tag (lit "param")); [|exact H].
    destruct (parseParam value); exact H.
Qed.

Lemma values_of_cons tag t v tags :
  values_of tag ((t, v) :: tags) =
  if str_eqb t tag then v :: values_of tag tags else values_of tag tags.
Proof.
  unfold values_of. cbn [List.filter fst]. now destruct (str_eqb t tag).
Qed.

Lemma fold_name tags md :
  part_name (fold_left apply_tagged tags md) =
  match last (values_of (lit "name") tags) with
  | Some v => Some (trim v)
  | None => part_name md
  end.
Proof.
  revert md. induction tags as [|[t v] tags IH]; intros md; [reflexivity|].
  cbn [fold_left]. rewrite IH, values_of_cons, apply_name.
  destruct (str_eqb t (lit "name")); [|reflexivity].
  rewrite last_cons. now destruct (last (values_of (lit "name") tags)).
Qed.

Lemma fold_description tags md :
  part_description (fold_left apply_tagged tags md) =
  match last (values_of (lit "description") tags) with
  | Some v => Some (trim v)
  | None => part_description md
  end.
Proof.
  revert md. induction tags as [|[t v] tags IH]; intros md; [reflexivity|].
  cbn [fold_left]. rewrite IH, values_of_cons, apply_description.
  destruct (str_eqb t (lit "description")); [|reflexivity].
  rewrite last_cons. now destruct (last (values_of (lit "description") tags)).
Qed.

Lemma fold_category tags md :
  part_category (fold_left apply_tagged tags md) =
  match last (values_of (lit "category") tags) with
  | Some v => trim v
  | None => part_category md
  end.
Proof.
  revert md. induction tags as [|[t v] tags IH]; intros md; [reflexivity|].
  cbn [fold_left]. rewrite IH, values_of_cons, apply_category.
  destruct (str_eqb t (lit "category")); [|reflexivity].
  rewrite last_cons. now destruct (last (values_of (lit "category") tags)).
Qed.

Lemma fold_context tags md :
  valid_context (part_context md) ->
  valid_context (part_context (fold_left apply_tagged tags md)).
Proof.
  revert md. induction tags as [|[t v] tags IH]; intros md H; [exact H|].
  cbn [fold_left]. apply IH, apply_context, H.
Qed.

(** What [parseScriptMetadata] returns, in terms of the loop's result. *)
Lemma parseScriptMetadata_Some path content m :
  parseScriptMetadata path content = Some m ->
  let md := fold_left apply_tagged (tag_lines content) initial_metadata in
  part_name md = Some (pm_name m) /\
  part_description md = Some (pm_description m) /\
  pm_category m = part_category md /\ pm_context m = part_context md /\
  pm_params m = part_params md /\
  pm_filePath m = path /\ pm_fileName m = fileName_of path.
Proof.
  unfold parseScriptMetadata, tag_lines. rewrite fold_parse_line.
  set (md := fold_left apply_tagged _ initial_metadata).
  destruct (part_name md) as [n|]; [|discriminate].
  destruct (part_description md) as [d|]; [|discriminate].
  destruct (falsy (Some n) || falsy (Some d)); [discriminate|].
  intros [= <-]. cbn. repeat split; reflexivity.
Qed.

(** X14. The parameters of a parsed script are its [@param] annotations
    that [parseParam] accepts, in the order of the lines; an annotation it
    rejects is skipped without an error. *)
Theorem metadata_params_in_file_order
    (path content : list N) (m : ParsedMetadata)
    (Hparse : parseScriptMetadata path content = Some m) :
  pm_params m = omap parseParam (values_of (lit "param") (tag_lines content)).
Proof.
  apply parseScriptMetadata_Some in Hparse as (_ & _ & _ & _ & Hp & _).
  rewrite Hp, fold_params. reflexivity.
Qed.

(** X15. When a tag is given more than once the last line wins: name and
    description are the trimmed values of the last [@name] and the last
    [@description] line, and the category that of the last [@category]
    line, or [uncategorized] without one. *)
Theorem metadata_last_tag_wins
    (path content : list N) (m : ParsedMetadata)
    (Hparse : parseScriptMetadata path content = Some m) :
  let tags := tag_lines content in
  option_map trim (last (values_of (lit "name") tags)) = Some (pm_name m) /\
  option_map trim (last (values_of (lit "description") tags))
    = Some (pm_description m) /\
  pm_category m =
    match last (values_of (lit "category") tags) with
    | Some v => trim v
    | None => lit "uncategorized"
    end.
Proof.
  apply parseScriptMetadata_Some in Hparse as (Hn & Hd & Hc & _).
  rewrite fold_name in Hn. rewrite fold_description in Hd.
  rewrite fold_category in Hc. cbv zeta.
  destruct (last (values_of (lit "name") (tag_lines content)));
    [|discriminate].
  destruct (last (values_of (lit "description") (tag_lines content)));
    [|discriminate].
  auto.
Qed.

(** X16. The context of a parsed script is always [terminal] or
    [browser]: a [@context] line with any other value changes nothing. *)
Theorem metadata_context_is_valid
    (path content : list N) (m : ParsedMetadata)
    (Hparse : parseScriptMetadata path content = Some m) :
  pm_context m = lit "terminal" \/ pm_context m = lit "browser".
Proof.
  apply parseScriptMetadata_Some in Hparse as (_ & _ & _ & Hc & _).
  rewrite Hc. apply fold_context. now left.
Qed.
Lemma drop_while_head f s c rest :
  drop_while f s = c :: rest -> f c = false.
Proof.
  induction s as [|a s IH]; [discriminate|].
  cbn [drop_while]. destruct (f a) eqn:E; [exact IH|].
  intros [= -> _]. exact E.
Qed.

Lemma take_drop_while f s : take_while f s ++ drop_while f s = s.
Proof.
  induction s as [|a s IH]; [reflexivity|].
  cbn [take_while drop_while]. destruct (f a); [|reflexivity].
  cbn [app]. now rewrite IH.
Qed.

Lemma take_while_all f s : Forall (fun c => f c = true) (take_while f s).
Proof.
  induction s as [|a s IH]; [constructor|].
  cbn [take_while]. destruct (f a) eqn:E; constructor; assumption.
Qed.

Lemma last_rev {A} (l : list A) : last (rev l) = head l.
Proof. destruct l as [|a l]; [reflexivity|]. cbn [rev]. apply last_snoc. Qed.

Lemma trim_last s c : last (trim s) = Some c -> is_space c = false.
Proof.
  unfold trim. rewrite last_rev.
  destruct (drop_while is_space (rev (drop_while is_space s))) as [|a l] eqn:E;
    [discriminate|].
  intros [= ->]. eapply drop_while_head, E.
Qed.

Lemma last_app_nonempty {A} (l1 l2 : list A) :
  l2 <> [] -> last (l1 ++ l2) = last l2.
Proof.
  intros H. rewrite last_app. destruct (last l2) eqn:E; [reflexivity|].
  apply last_None in E. contradiction.
Qed.

Lemma last_all_true {A} (f : A -> bool) l c :
  Forall (fun c => f c = true) l -> last l = Some c -> f c = true.
Proof.
  intros Hall Hl. apply last_Some in Hl as [l' ->].
  apply Forall_app in Hall as [_ Hc]. now inversion Hc.
Qed.

(** The value of a match begins with a character that is no space, unless
    the text ends in a space. *)
Lemma match_tag_after_marker_value s tag value :
  match_tag_after_marker s = Some (tag, value) ->
  (exists c v, value = c :: v /\ is_space c = false) \/
  (exists c, last s = Some c /\ is_space c = true).
Proof.
  unfold match_tag_after_marker.
  pose proof (take_drop_while is_space s) as Hs.
  destruct (drop_while is_space s) as [|a s2] eqn:E1; [discriminate|].
  destruct (N.eqb_spec a 64) as [->|Hne].
  2:{ destruct a as [|p]; [discriminate|].
      do 7 (try (destruct p as [p|p|]); try (intros; discriminate)); congruence. }
  pose proof (take_drop_while is_word s2) as Hs2.
  pose proof (take_drop_while is_space (drop_while is_word s2)) as Hs3.
  pose proof (take_while_all is_space (drop_while is_word s2)) as Hsp.
  destruct (take_while is_word s2) as [|t tag']; [discriminate|].
  destruct (take_while is_space (drop_while is_word s2)) as [|x spaces] eqn:E3;
    [discriminate|].
  destruct (drop_while is_space (drop_while is_word s2)) as [|c v] eqn:E4.
  - destruct spaces as [|y spaces]; [discriminate|].
    intros _. right.
    rewrite app_nil_r in Hs3.
    assert (Hlast : last s = last (x :: y :: spaces)).
    { rewrite <- Hs, <- Hs2, <- Hs3.
      rewrite last_app_nonempty by discriminate.
      change (64 :: (t :: tag') ++ x :: y :: spaces)
        with ((64 :: t :: tag') ++ x :: y :: spaces).
      now rewrite last_app_nonempty by discriminate. }
    destruct (last (x :: y :: spaces)) as [c|] eqn:El.
    + exists c. split; [exact Hlast|]. eapply last_all_true; eassumption.
    + apply last_None in El. discriminate.
  - destruct (forallb is_dot (c :: v)); [|destruct spaces; discriminate].
    intros H. assert (Some (t :: tag', c :: v) = Some (tag, value)) as [= <- <-]
      by (destruct spaces; exact H).
    left. exists c, v. split; [reflexivity|].
    eapply drop_while_head, E4.
Qed.

Lemma match_tag_value t tag value :
  match_tag t = Some (tag, value) ->
  (exists c v, value = c :: v /\ is_space c = false) \/
  (exists c, last t = Some c /\ is_space c = true).
Proof.
  assert (Hgen : forall marker s,
            match_tag_after_marker s = Some (tag, value) ->
            (exists c v, value = c :: v /\ is_space c = false) \/
            (exists c, last (marker ++ s) = Some c /\ is_space c = true)).
  { intros marker s H.
    destruct (match_tag_after_marker_value s tag value H) as [Hv|(c & Hl & Hc)];
      [now left|right].
    exists c. split; [|exact Hc].
    rewrite last_app_nonempty; [exact Hl|]. intros ->. discriminate. }
  unfold match_tag.
  destruct t as [|a t]; [discriminate|].
  destruct (N.eqb_spec a 35) as [->|H35]; [apply (Hgen [35])|].
  destruct (N.eqb_spec a 42) as [->|H42]; [apply (Hgen [42])|].
  destruct (N.eqb_spec a 47) as [->|H47].
  - destruct t as [|b t]; [discriminate|].
    destruct (N.eqb_spec b 47) as [->|Hb47]; [apply (Hgen [47; 47])|].
    destruct (N.eqb_spec b 42) as [->|Hb42]; [apply (Hgen [47; 42])|].
    destruct b as [|p]; [discriminate|].
    do 7 (try (destruct p as [p|p|]); try (intros; discriminate)); congruence.
  - destruct a as [|p]; [discriminate|].
    do 7 (try (destruct p as [p|p|]); try (intros; discriminate)); congruence.
Qed.

Lemma drop_while_snoc_nonempty f l c :
  f c = false -> drop_while f (l ++ [c]) <> [].
Proof.
  intros Hc. induction l as [|a l IH]; cbn [app drop_while].
  - rewrite Hc. discriminate.
  - destruct (f a); [exact IH|discriminate].
Qed.

Lemma trim_nonempty c v : is_space c = false -> trim (c :: v) <> [].
Proof.
  intros Hc. unfold trim. cbn [drop_while]. rewrite Hc. cbn [rev].
  intros H. apply (f_equal (@rev _)) in H. rewrite rev_involutive in H.
  cbn [rev] in H. now apply (drop_while_snoc_nonempty is_space (rev v) c).
Qed.

(** The value of a tag line never trims to the empty string. *)
Lemma tag_lines_values content tag value :
  In (tag, value) (tag_lines content) -> trim value <> [].
Proof.
  unfold tag_lines. generalize (split NL content). intros lines.
  induction lines as [|l lines IH]; [intros []|].
  cbn [omap list_omap].
  destruct (match_tag (trim l)) as [[t v]|] eqn:E; [|exact IH].
  intros [[= -> ->]|H]; [|now apply IH].
  destruct (match_tag_value _ _ _ E) as [(c & v' & -> & Hc)|(c & Hl & Hc)].
  - now apply trim_nonempty.
  - apply trim_last in Hl. congruence.
Qed.

Lemma values_of_In tag tags v :
  In v (values_of tag tags) -> In (tag, v) tags.
Proof.
  unfold values_of. intros H. apply in_map_iff in H as ([t v'] & <- & H).
  apply List.filter_In in H as [H Ht]. cbn [fst snd] in *.
  apply str_eqb_true in Ht. now subst t.
Qed.

Lemma last_values_nonempty content tag v :
  last (values_of tag (tag_lines content)) = Some v -> trim v <> [].
Proof.
  intros H. apply (tag_lines_values content tag).
  apply values_of_In. apply last_Some in H as [l' ->].
  apply in_or_app. right. now left.
Qed.

(** X17. [parseScriptMetadata] returns null exactly when the file has no
    [@name] line or no [@description] line; the value of such a line is
    never empty, so nothing else makes it fail. *)
Theorem metadata_null_iff_name_or_description_missing (path content : list N) :
  parseScriptMetadata path content = None <->
  values_of (lit "name") (tag_lines content) = [] \/
  values_of (lit "description") (tag_lines content) = [].
Proof.
  unfold parseScriptMetadata. rewrite fold_parse_line. fold (tag_lines content).
  rewrite fold_name, fold_description. cbn [part_name part_description initial_metadata].
  rewrite <- !last_None.
  destruct (last (values_of (lit "name") (tag_lines content))) as [n|] eqn:En.
  2:{ split; auto. }
  destruct (last (values_of (lit "description") (tag_lines content))) as [d|] eqn:Ed.
  2:{ split; auto. }
  apply last_values_nonempty in En. apply last_values_nonempty in Ed.
  unfold falsy. destruct (trim n); [congruence|]. destruct (trim d); [congruence|].
  cbn [orb]. split; [discriminate|]. intros [H|H]; discriminate.
Qed.

(** X18. The file name of a parsed script is the part of the path after
    its last slash: it holds no slash, and the path is a directory part,
    empty or ending in a slash, followed by it. *)
Theorem fileName_is_last_segment (path : list N) :
  ~ In SLASH (fileName_of path) /\
  exists dir,
    path = dir ++ fileName_of path /\
    (dir = [] \/ exists d, dir = d ++ [SLASH]).
Proof.
  unfold fileName_of.
  pose proof (split_no_sep SLASH path) as Hno.
  pose proof (join_split SLASH path) as Hjoin.
  destruct (exists_last (split_not_nil SLASH path)) as (segments & name & E).
  rewrite E in *. rewrite last_last.
  apply Forall_app in Hno as [_ Hname]. apply List.Forall_inv in Hname.
  split; [exact Hname|].
  destruct segments as [|s segments].
  - exists []. split; [now rewrite <- Hjoin|now left].
  - exists (join SLASH (s :: segments) ++ [SLASH]).
    rewrite join_app in Hjoin by discriminate.
    split; [now rewrite <- app_assoc|eauto].
Qed.
Lemma port_killer_parses :
  parseScriptMetadata (lit "scripts/port-killer.sh") port_killer_text
    = Some port_killer_metadata.
Proof. vm_compute. reflexivity. Qed.

Lemma metadata_params_in_file_order_witness :
  List.map pp_name (pm_params port_killer_metadata) = [lit "port"; lit "force"] /\
  values_of (lit "param") (tag_lines port_killer_text)
    = [lit "port:number:required The port number to kill";
       lit "force:boolean:optional Use kill -9"; lit "broken"].
Proof.
  pose proof (metadata_params_in_file_order _ _ _ port_killer_parses) as H.
  split; [rewrite H|]; vm_compute; reflexivity.
Defined.

Lemma metadata_last_tag_wins_witness :
  values_of (lit "name") (tag_lines port_killer_text)
    = [lit "Port Killer"; lit "Port Killer 2"] /\
  pm_name port_killer_metadata = lit "Port Killer 2".
Proof.
  destruct (metadata_last_tag_wins _ _ _ port_killer_parses) as (Hn & _ & _).
  split; [vm_compute; reflexivity|].
  apply (f_equal (fun o => default [] o)) in Hn. cbn [default from_option id] in Hn.
  rewrite <- Hn. vm_compute. reflexivity.
Defined.

Lemma metadata_context_is_valid_witness :
  pm_context port_killer_metadata = lit "terminal" \/
  pm_context port_killer_metadata = lit "browser".
Proof. exact (metadata_context_is_valid _ _ _ port_killer_parses). Defined.

(** ** [discoverScripts] *)

Lemma not_in_sound c l :
  forallb (fun x => negb (x =? c)) l = true -> ~ In c l.
Proof.
  rewrite forallb_forall. intros H Hin. specialize (H c Hin).
  now rewrite N.eqb_refl in H.
Qed.

Lemma fileName_of_join dir file :
  ~ In SLASH file -> fileName_of (dir ++ SLASH :: file) = file.
Proof.
  intros H. unfold fileName_of.
  rewrite split_sep_app, (split_no_sep_single SLASH file H).
  apply last_last.
Qed.

Lemma discoverScripts_In path_join scriptsDir files m :
  In m (discoverScripts path_join scriptsDir files) ->
  exists file content,
    In (file, content) files /\ supported file = true /\
    parseScriptMetadata (path_join scriptsDir file) content = Some m.
Proof.
  unfold discoverScripts. induction files as [|[file content] files IH];
    [intros []|].
  cbn [omap list_omap fst snd].
  destruct (supported file) eqn:Es.
  - destruct (parseScriptMetadata (path_join scriptsDir file) content) as [m'|] eqn:Ep.
    + intros [<-|H].
      * exists file, content. split; [now left|auto].
      * destruct (IH H) as (f & c & Hin & Hs & Hp).
        exists f, c. split; [now right|auto].
    + intros H. destruct (IH H) as (f & c & Hin & Hs & Hp).
      exists f, c. split; [now right|auto].
  - intros H. destruct (IH H) as (f & c & Hin & Hs & Hp).
    exists f, c. split; [now right|auto].
Qed.

(** X19. Every script that [discoverScripts] returns passes the command
    selection of [executeScript]: when [join] puts each name, which holds
    no slash, after a slash, the file name of a discovered script is the
    name in the directory, it ends in [.sh], [.js] or [.ts], and a script
    with that file name gets its command line; files with another
    extension and files that do not parse are left out. *)
Theorem discovered_scripts_have_a_command
    (path_join : list N -> list N -> list N) (scriptsDir : list N)
    (files : list (list N * list N)) (m : ParsedMetadata)
    (Hjoin : Forall (fun fc =>
                       ~ In SLASH (fst fc) /\
                       exists dir, path_join scriptsDir (fst fc)
                                   = dir ++ SLASH :: fst fc) files)
    (Hm : In m (discoverScripts path_join scriptsDir files)) :
  (exists content,
     In (pm_fileName m, content) files /\
     parseScriptMetadata (path_join scriptsDir (pm_fileName m)) content = Some m) /\
  supported (pm_fileName m) = true /\
  forall script args,
    sm_fileName script = pm_fileName m ->
    command_for script args = Return (interpreter_prefix script ++ args).
Proof.
  destruct (discoverScripts_In _ _ _ _ Hm) as (file & content & Hin & Hs & Hp).
  rewrite List.Forall_forall in Hjoin.
  destruct (Hjoin _ Hin) as (Hfile & dir & Hpath). cbn [fst] in *.
  assert (Hname : pm_fileName m = file).
  { apply parseScriptMetadata_Some in Hp as (_ & _ & _ & _ & _ & _ & Hf).
    rewrite Hf, Hpath. now apply fileName_of_join. }
  rewrite Hname. split; [eauto|]. split; [exact Hs|].
  intros script args Hsn. rewrite command_for_supported, Hsn, Hs.
  reflexivity.
Qed.

Lemma discovered_scripts_have_a_command_witness :
  discoverScripts join_plain (lit "scripts") sample_directory
    = [port_killer_metadata] /\
  supported (pm_fileName port_killer_metadata) = true.
Proof.
  assert (Hd : discoverScripts join_plain (lit "scripts") sample_directory
               = [port_killer_metadata]) by (vm_compute; reflexivity).
  split; [exact Hd|].
  refine (proj1 (proj2 (discovered_scripts_have_a_command join_plain
            (lit "scripts") sample_directory port_killer_metadata _ _))).
  - repeat constructor; cbn [fst];
      try (apply not_in_sound; reflexivity); eexists; reflexivity.
  - rewrite Hd. now left.
Defined.

(** ** More on the execution *)

Section Transcript.

Variable TypeError_text : list N.

Lemma transcript_step ev s :
  open s -> e_outputLines (fst s) = List.map snd (e_enqueued (fst s)) ->
  is_end ev = false ->
  open (step TypeError_text ev s) /\
  e_outputLines (fst (step TypeError_text ev s))
    = List.map snd (e_enqueued (fst (step TypeError_text ev s))).
Proof.
  destruct s as [e w]. break_exec e. unfold open.
  cbn [fst snd e_controller c_closeRequested c_state e_outputLines e_enqueued].
  intros [Hs Hc] Ht Hev. subst.
  destruct ev; try discriminate; split_step;
    rewrite ?List.map_app; cbn [List.map snd]; auto.
Qed.

Lemma transcript_run trace s :
  open s -> e_outputLines (fst s) = List.map snd (e_enqueued (fst s)) ->
  no_end trace = true ->
  e_outputLines (fst (run TypeError_text s trace))
    = List.map snd (e_enqueued (fst (run TypeError_text s trace))).
Proof.
  revert s. induction trace as [|ev trace IH]; intros s Ho Ht Hn; [exact Ht|].
  cbn [no_end forallb] in Hn. apply andb_true_iff in Hn as [Hev Hn].
  apply negb_true_iff in Hev.
  destruct (transcript_step ev s Ho Ht Hev) as [Ho' Ht'].
  cbn [run fold_left]. now apply IH.
Qed.

(** X20. The transcript that is logged is what the stream was given: when
    the process exit is observed in a running execution, the output of
    the record is the texts of all chunks enqueued, in order, the exit
    chunk last; when the consumer cancels a running execution, it is the
    texts of all chunks enqueued followed by the closing chunk. *)
Theorem logged_transcript_is_the_stream
    (script : ScriptMetadata) (params : gmap (list N) JSValue) (w : World)
    (trace : list Event) (Hrunning : no_end trace = true) :
  let s := run TypeError_text (started script params, w) trace in
  (forall exitCode,
     let s' := step TypeError_text (EvExited exitCode) s in
     exists r,
       w_ledger (snd s') = w_ledger w ++ [r] /\
       lc_output r = List.map snd (e_enqueued (fst s')) /\
       List.last (lc_output r) [] = exitMessage exitCode) /\
  (let s' := step TypeError_text EvCancel s in
   exists r,
     w_ledger (snd s') = w_ledger w ++ [r] /\
     lc_output r = List.map snd (e_enqueued (fst s')) ++ [KILLED_MESSAGE]).
Proof.
  intros s.
  destruct (running_run TypeError_text trace _
              (running_started script params w) Hrunning) as [Hr Hw].
  assert (Ht : e_outputLines (fst s) = List.map snd (e_enqueued (fst s))).
  { apply transcript_run; [split; reflexivity|reflexivity|exact Hrunning]. }
  fold s in Hr, Hw. cbn [snd] in Hw. split.
  - intros exitCode s'.
    destruct (exit_when_running TypeError_text exitCode s Hr) as (_ & _ & HL & Hq).
    fold s' in HL, Hq. eexists. split; [rewrite HL, Hw; reflexivity|].
    cbn [lc_output]. rewrite Hq, List.map_app, Ht. cbn [List.map snd].
    split; [reflexivity|]. apply last_last.
  - intros s'.
    destruct (cancel_when_running TypeError_text s Hr) as (_ & _ & _ & HL & Hq).
    fold s' in HL, Hq. eexists. split; [rewrite HL, Hw; reflexivity|].
    cbn [lc_output]. now rewrite Hq, Ht.
Qed.

(** What one event does to the stdout chunks while the loop reads. *)
Lemma stdout_step ev s d :
  open s -> e_stdout (fst s) = Reading d -> stdout_alive [ev] = true ->
  let s' := step TypeError_text ev s in
  open s' /\
  e_stdout (fst s') = Reading (fst (decode_reads d (stdout_values [ev]))) /\
  chunks_of Stdout (e_enqueued (fst s')) =
    chunks_of Stdout (e_enqueued (fst s))
      ++ snd (decode_reads d (stdout_values [ev])).
Proof.
  destruct s as [e w]. break_exec e. unfold open.
  cbn [fst snd e_controller c_closeRequested c_state e_stdout e_enqueued].
  intros [Hs Hc] H1 Hev. subst.
  destruct ev; try discriminate; clear Hev;
    cbn [stdout_values decode_reads];
    split_step; rewrite ?chunks_of_app, ?app_nil_r; repeat split; reflexivity.
Qed.

Lemma stderr_step ev s d :
  open s -> e_stderr (fst s) = Reading d -> stderr_alive [ev] = true ->
  let s' := step TypeError_text ev s in
  open s' /\
  e_stderr (fst s') = Reading (fst (decode_reads d (stderr_values [ev]))) /\
  chunks_of Stderr (e_enqueued (fst s')) =
    chunks_of Stderr (e_enqueued (fst s))
      ++ List.map (app STDERR_TAG) (snd (decode_reads d (stderr_values [ev]))).
Proof.
  destruct s as [e w]. break_exec e. unfold open.
  cbn [fst snd e_controller c_closeRequested c_state e_stderr e_enqueued].
  intros [Hs Hc] H1 Hev. subst.
  destruct ev; try discriminate; clear Hev;
    cbn [stderr_values decode_reads];
    split_step; rewrite ?chunks_of_app, ?app_nil_r; repeat split; reflexivity.
Qed.

Lemma stdout_run trace : forall s d,
  open s -> e_stdout (fst s) = Reading d -> stdout_alive trace = true ->
  chunks_of Stdout (e_enqueued (fst (run TypeError_text s trace))) =
    chunks_of Stdout (e_enqueued (fst s))
      ++ snd (decode_reads d (stdout_values trace)).
Proof.
  induction trace as [|ev trace IH]; intros s d Ho H1 Ht.
  - cbn. now rewrite app_nil_r.
  - cbn [stdout_alive forallb] in Ht. apply andb_true_iff in Ht as [Hev Ht].
    assert (Hev' : stdout_alive [ev] = true) by (cbn; now rewrite Hev).
    destruct (stdout_step ev s d Ho H1 Hev') as (Ho' & H1' & Hq).
    cbn [run fold_left]. fold (run TypeError_text (step TypeError_text ev s) trace).
    rewrite (IH _ _ Ho' H1' Ht), Hq.
    rewrite (stdout_values_cons ev trace), decode_reads_app, app_assoc.
    reflexivity.
Qed.

Lemma stderr_run trace : forall s d,
  open s -> e_stderr (fst s) = Reading d -> stderr_alive trace = true ->
  chunks_of Stderr (e_enqueued (fst (run TypeError_text s trace))) =
    chunks_of Stderr (e_enqueued (fst s))
      ++ List.map (app STDERR_TAG) (snd (decode_reads d (stderr_values trace))).
Proof.
  induction trace as [|ev trace IH]; intros s d Ho H1 Ht.
  - cbn. now rewrite app_nil_r.
  - cbn [stderr_alive forallb] in Ht. apply andb_true_iff in Ht as [Hev Ht].
    assert (Hev' : stderr_alive [ev] = true) by (cbn; now rewrite Hev).
    destruct (stderr_step ev s d Ho H1 Hev') as (Ho' & H1' & Hq).
    cbn [run fold_left]. fold (run TypeError_text (step TypeError_text ev s) trace).
    rewrite (IH _ _ Ho' H1' Ht), Hq.
    rewrite (stderr_values_cons ev trace), decode_reads_app, List.map_app, app_assoc.
    reflexivity.
Qed.

(** X21. While the stdout loop reads and the execution runs, whatever
    the bytes are and whatever happens on stderr (also a failed read),
    the stream gets one stdout chunk per read of stdout, in the order of
    the reads, and together the chunks are what one decoding of all the
    bytes gives: where the reads cut the bytes does not matter. *)
Theorem stdout_chunks_follow_reads
    (script : ScriptMetadata) (params : gmap (list N) JSValue) (w : World)
    (trace : list Event) (Halive : stdout_alive trace = true) :
  let q := e_enqueued (fst (run TypeError_text (started script params, w) trace)) in
  chunks_of Stdout q = snd (decode_reads newTextDecoder (stdout_values trace)) /\
  length (chunks_of Stdout q) = length (stdout_values trace) /\
  List.concat (chunks_of Stdout q)
    = snd (decode newTextDecoder (List.concat (stdout_values trace))).
Proof.
  intros q. subst q.
  rewrite (stdout_run trace (started script params, w) newTextDecoder)
    by (try exact Halive; try reflexivity; split; reflexivity).
  cbn [fst started e_enqueued chunks_of List.filter List.map app].
  split; [reflexivity|]. split.
  - generalize newTextDecoder. induction (stdout_values trace) as [|v vs IH];
      intros d; [reflexivity|].
    cbn [decode_reads]. destruct (decode d v) as [d1 t]. specialize (IH d1).
    destruct (decode_reads d1 vs). cbn [snd length] in *. now rewrite IH.
  - rewrite decode_reads_concat.
    now destruct (decode_reads newTextDecoder (stdout_values trace)).
Qed.

(** X22. The same for stderr, with the tag: one chunk per read of stderr,
    each the tag ["[stderr] "] followed by the text decoded from that
    read, whatever happens on stdout. *)
Theorem stderr_chunks_follow_reads
    (script : ScriptMetadata) (params : gmap (list N) JSValue) (w : World)
    (trace : list Event) (Halive : stderr_alive trace = true) :
  let q := e_enqueued (fst (run TypeError_text (started script params, w) trace)) in
  chunks_of Stderr q =
    List.map (app STDERR_TAG)
      (snd (decode_reads newTextDecoder (stderr_values trace))) /\
  List.concat (snd (decode_reads newTextDecoder (stderr_values trace)))
    = snd (decode newTextDecoder (List.concat (stderr_values trace))).
Proof.
  intros q. subst q.
  rewrite (stderr_run trace (started script params, w) newTextDecoder)
    by (try exact Halive; try reflexivity; split; reflexivity).
  cbn [fst started e_enqueued chunks_of List.filter List.map app].
  split; [reflexivity|].
  rewrite decode_reads_concat.
  now destruct (decode_reads newTextDecoder (stderr_values trace)).
Qed.

End Transcript.
(** ** The round trip of well-formed output *)

Section RoundTrip.

Variable TypeError_text : list N.

Lemma no_stdout_values trace : no_stdout trace = true -> stdout_values trace = [].
Proof.
  induction trace as [|ev trace IH]; [reflexivity|].
  cbn [no_stdout forallb]. intros H. apply andb_true_iff in H as [Hev Ht].
  destruct ev; try discriminate; cbn [stdout_values]; now apply IH.
Qed.

Lemma no_stderr_values trace : no_stderr trace = true -> stderr_values trace = [].
Proof.
  induction trace as [|ev trace IH]; [reflexivity|].
  cbn [no_stderr forallb]. intros H. apply andb_true_iff in H as [Hev Ht].
  destruct ev; try discriminate; cbn [stderr_values]; now apply IH.
Qed.

(** An event other than a read of stdout adds no stdout chunk, and the
    same for stderr. *)
Lemma silent_step ev s :
  (no_stdout [ev] = true ->
   chunks_of Stdout (e_enqueued (fst (step TypeError_text ev s)))
     = chunks_of Stdout (e_enqueued (fst s))) /\
  (no_stderr [ev] = true ->
   chunks_of Stderr (e_enqueued (fst (step TypeError_text ev s)))
     = chunks_of Stderr (e_enqueued (fst s))).
Proof.
  destruct s as [e w]. break_exec e. cbn [fst e_enqueued].
  split; intros Hev; destruct ev; try discriminate; split_step;
    rewrite ?chunks_of_app; unfold chunks_of; cbn [List.filter List.map fst];
    cbn; rewrite ?app_nil_r; reflexivity.
Qed.

Lemma silent_run trace s :
  (no_stdout trace = true ->
   chunks_of Stdout (e_enqueued (fst (run TypeError_text s trace)))
     = chunks_of Stdout (e_enqueued (fst s))) /\
  (no_stderr trace = true ->
   chunks_of Stderr (e_enqueued (fst (run TypeError_text s trace)))
     = chunks_of Stderr (e_enqueued (fst s))).
Proof.
  revert s. induction trace as [|ev trace IH]; intros s; [split; reflexivity|].
  cbn [run fold_left no_stdout no_stderr forallb].
  fold (run TypeError_text (step TypeError_text ev s) trace).
  destruct (IH (step TypeError_text ev s)) as [IH1 IH2].
  destruct (silent_step ev s) as [H1 H2].
  split; intros H; apply andb_true_iff in H as [Hev Ht].
  - rewrite IH1 by exact Ht. apply H1. cbn. now rewrite Hev.
  - rewrite IH2 by exact Ht. apply H2. cbn. now rewrite Hev.
Qed.

(** Once a loop can deliver no more, the rest of a trace whose reads are
    in time has no read of its pipe with bytes. *)
Lemma reads_in_time_closed trace :
  (forall b, reads_in_time false b trace = true -> no_stdout trace = true) /\
  (forall b, reads_in_time b false trace = true -> no_stderr trace = true).
Proof.
  induction trace as [|ev trace [IH1 IH2]]; [split; reflexivity|].
  split; intros b H; cbn [reads_in_time no_stdout no_stderr forallb] in *;
    destruct ev; cbn [andb] in *; try discriminate;
    try (apply andb_true_iff in H as [_ H]); eauto.
Qed.

Lemma stdout_chunks_in_time trace : forall s d b,
  open s -> e_stdout (fst s) = Reading d ->
  reads_in_time true b trace = true ->
  chunks_of Stdout (e_enqueued (fst (run TypeError_text s trace))) =
    chunks_of Stdout (e_enqueued (fst s))
      ++ snd (decode_reads d (stdout_values trace)).
Proof.
  induction trace as [|ev trace IH]; intros s d b Ho H1 Ht.
  - cbn. now rewrite app_nil_r.
  - destruct (stdout_alive [ev]) eqn:Ha.
    + destruct (stdout_step TypeError_text ev s d Ho H1 Ha) as (Ho' & H1' & Hq).
      cbn [run fold_left]. fold (run TypeError_text (step TypeError_text ev s) trace).
      assert (Hrest : exists b', reads_in_time true b' trace = true).
      { cbn [reads_in_time] in Ht. destruct ev; try discriminate; cbn [andb] in Ht;
          try (apply andb_true_iff in Ht as [_ Ht]); eauto. }
      destruct Hrest as [b' Hrest].
      rewrite (IH _ _ _ Ho' H1' Hrest), Hq.
      rewrite (stdout_values_cons ev trace), decode_reads_app, app_assoc.
      reflexivity.
    + assert (Hn : no_stdout (ev :: trace) = true).
      { cbn [reads_in_time] in Ht. cbn [no_stdout forallb].
        destruct ev; try discriminate; cbn [andb];
          eapply (proj1 (reads_in_time_closed trace)); exact Ht. }
      rewrite (proj1 (silent_run (ev :: trace) s) Hn).
      rewrite (no_stdout_values _ Hn). cbn [decode_reads snd].
      now rewrite app_nil_r.
Qed.

Lemma stderr_chunks_in_time trace : forall s d b,
  open s -> e_stderr (fst s) = Reading d ->
  reads_in_time b true trace = true ->
  chunks_of Stderr (e_enqueued (fst (run TypeError_text s trace))) =
    chunks_of Stderr (e_enqueued (fst s))
      ++ List.map (app STDERR_TAG) (snd (decode_reads d (stderr_values trace))).
Proof.
  induction trace as [|ev trace IH]; intros s d b Ho H1 Ht.
  - cbn. now rewrite app_nil_r.
  - destruct (stderr_alive [ev]) eqn:Ha.
    + destruct (stderr_step TypeError_text ev s d Ho H1 Ha) as (Ho' & H1' & Hq).
      cbn [run fold_left]. fold (run TypeError_text (step TypeError_text ev s) trace).
      assert (Hrest : exists b', reads_in_time b' true trace = true).
      { cbn [reads_in_time] in Ht. destruct ev; try discriminate; cbn [andb] in Ht;
          try (apply andb_true_iff in Ht as [_ Ht]); eauto. }
      destruct Hrest as [b' Hrest].
      rewrite (IH _ _ _ Ho' H1' Hrest), Hq.
      rewrite (stderr_values_cons ev trace), decode_reads_app, List.map_app, app_assoc.
      reflexivity.
    + assert (Hn : no_stderr (ev :: trace) = true).
      { cbn [reads_in_time] in Ht. cbn [no_stderr forallb].
        destruct ev; try discriminate; cbn [andb];
          eapply (proj2 (reads_in_time_closed trace)); exact Ht. }
      rewrite (proj2 (silent_run (ev :: trace) s) Hn).
      rewrite (no_stderr_values _ Hn). cbn [decode_reads snd List.map].
      now rewrite app_nil_r.
Qed.

(** C2, amended. When the bytes of stdout and the bytes of stderr are
    each the UTF-8 encoding of well-formed text (scalar values, no byte
    order mark in front), however the reads cut them and whatever else
    happens in between and afterwards, and every read that delivers
    bytes comes before the end of its pipe, before the process exit is
    observed and before a cancellation: the stdout chunks concatenate to
    that text and encode back to the stdout bytes, and every stderr chunk
    is the tag ["[stderr] "] followed by a fragment, the fragments
    concatenating to the stderr text and encoding back to the stderr
    bytes. *)
Theorem well_formed_output_round_trips
    (script : ScriptMetadata) (params : gmap (list N) JSValue)
    (workingDir : option (list N)) (process_cwd : list N) (w0 w : World)
    (e0 : Exec) (trace : list Event) (text_out text_err : list N)
    (Hstart : executeScript script params workingDir process_cwd w0
                = (Return e0, w))
    (Hread : reads_in_time true true trace = true)
    (Hout : List.concat (stdout_values trace) = encode text_out)
    (Herr : List.concat (stderr_values trace) = encode text_err)
    (Hwf_out : well_formed text_out = true)
    (Hwf_err : well_formed text_err = true) :
  let q := e_enqueued (fst (run TypeError_text (e0, w) trace)) in
  List.concat (chunks_of Stdout q) = text_out /\
  encode (List.concat (chunks_of Stdout q)) = List.concat (stdout_values trace) /\
  exists fragments,
    chunks_of Stderr q = List.map (app STDERR_TAG) fragments /\
    List.concat fragments = text_err /\
    encode (List.concat fragments) = List.concat (stderr_values trace).
Proof.
  apply executeScript_started in Hstart as (-> & _ & _).
  intros q. subst q.
  rewrite (stdout_chunks_in_time trace (started script params, w) newTextDecoder true)
    by (try exact Hread; try reflexivity; split; reflexivity).
  rewrite (stderr_chunks_in_time trace (started script params, w) newTextDecoder true)
    by (try exact Hread; try reflexivity; split; reflexivity).
  cbn [fst started e_enqueued chunks_of List.filter List.map app].
  pose proof (decode_reads_encode text_out _ Hwf_out Hout) as H1.
  pose proof (decode_reads_encode text_err _ Hwf_err Herr) as H2.
  split; [exact H1|]. split; [now rewrite H1|].
  eexists. split; [reflexivity|]. split; [exact H2|now rewrite H2].
Qed.

End RoundTrip.

Lemma well_formed_output_round_trips_witness :
  let q := e_enqueued (fst (run a_TypeError (started hello_script ada_params, hello_world)
                              interleaved_trace)) in
  List.concat (chunks_of Stdout q) = [0x68; 0x20AC] /\
  chunks_of Stdout q = [[0x68]; [0x20AC]] /\
  chunks_of Stderr q = [STDERR_TAG ++ [0xE9]].
Proof.
  destruct (well_formed_output_round_trips a_TypeError hello_script ada_params
              None (lit "/home/dev") empty_world hello_world
              (started hello_script ada_params) interleaved_trace
              [0x68; 0x20AC] [0xE9] hello_started eq_refl eq_refl eq_refl
              eq_refl eq_refl) as (H1 & _ & _).
  cbv zeta. split; [exact H1|]. split; vm_compute; reflexivity.
Defined.

Lemma logged_transcript_is_the_stream_witness :
  List.map lc_output
    (w_ledger (snd (run a_TypeError (started hello_script ada_params, hello_world)
                      ([EvStdout [x48; x69]; EvRead] ++ [EvExited (Some 0%Z)]))))
    = [[lit "Hi"; exitMessage (Some 0%Z)]].
Proof.
  destruct (logged_transcript_is_the_stream a_TypeError hello_script ada_params
              hello_world [EvStdout [x48; x69]; EvRead] eq_refl) as [H _].
  destruct (H (Some 0%Z)) as (r & HL & Hout & _).
  rewrite run_app. cbn [run fold_left] in *. rewrite HL.
  cbn [w_ledger hello_world List.map app]. rewrite List.map_app.
  cbn [List.map]. rewrite Hout. vm_compute. reflexivity.
Defined.

Lemma stdout_chunks_follow_reads_witness :
  chunks_of Stdout
    (e_enqueued (fst (run a_TypeError (started hello_script ada_params, hello_world)
                        stderr_fails_trace)))
    = [lit "hi"; lit "!"].
Proof.
  destruct (stdout_chunks_follow_reads a_TypeError hello_script ada_params
              hello_world stderr_fails_trace eq_refl) as (H & _ & _).
  rewrite H. vm_compute. reflexivity.
Defined.

Lemma stderr_chunks_follow_reads_witness :
  chunks_of Stderr
    (e_enqueued (fst (run a_TypeError (started hello_script ada_params, hello_world)
                        [EvStderr [xc3]; EvStdoutFail; EvStderr [xa9]])))
    = [STDERR_TAG; STDERR_TAG ++ [0xE9]].
Proof.
  destruct (stderr_chunks_follow_reads a_TypeError hello_script ada_params
              hello_world [EvStderr [xc3]; EvStdoutFail; EvStderr [xa9]] eq_refl)
    as (H & _).
  rewrite H. vm_compute. reflexivity.
Defined.

Section Process.

Variable TypeError_text : list N.

Lemma kills_step ev s :
  is_cancel ev = false ->
  e_kills (fst (step TypeError_text ev s)) = e_kills (fst s).
Proof.
  destruct s as [e w]. break_exec e. cbn [fst e_kills]. intros Hev.
  destruct ev; try discriminate; split_step; reflexivity.
Qed.

Lemma kills_run trace s :
  no_cancel trace = true ->
  e_kills (fst (run TypeError_text s trace)) = e_kills (fst s).
Proof.
  revert s. induction trace as [|ev trace IH]; intros s Ht; [reflexivity|].
  cbn [no_cancel forallb] in Ht. apply andb_true_iff in Ht as [Hev Ht].
  apply negb_true_iff in Hev.
  cbn [run fold_left]. fold (run TypeError_text (step TypeError_text ev s) trace).
  rewrite (IH _ Ht). now apply kills_step.
Qed.

Lemma phase_kills L0 s : phase L0 s -> (e_kills (fst s) <= 1)%nat.
Proof.
  destruct s as [e w]. unfold phase. cbn [fst].
  destruct (e_main e), (c_closeRequested (e_controller e)),
    (c_state (e_controller e)); try contradiction;
    destruct (e_kills e) as [|[|?]]; try contradiction; lia.
Qed.

(** X23. [proc.kill()] is called at most once in an execution, and only
    by a cancellation: a trace without one never calls it. *)
Theorem kill_at_most_once_and_only_on_cancel
    (script : ScriptMetadata) (params : gmap (list N) JSValue) (w : World)
    (trace : list Event) :
  let s := run TypeError_text (started script params, w) trace in
  (e_kills (fst s) <= 1)%nat /\
  (if no_cancel trace then e_kills (fst s) = 0%nat else True).
Proof.
  intros s. split.
  - apply (phase_kills (w_ledger w)). apply phase_run, phase_started.
  - destruct (no_cancel trace) eqn:Ht; [|exact I].
    unfold s. now rewrite kills_run.
Qed.

Lemma finished_step ev s :
  (e_stdout (fst s) = Finished ->
   e_stdout (fst (step TypeError_text ev s)) = Finished) /\
  (e_stderr (fst s) = Finished ->
   e_stderr (fst (step TypeError_text ev s)) = Finished).
Proof.
  destruct s as [e w]. break_exec e. cbn [fst e_stdout e_stderr].
  split; intros ->; destruct ev; split_step; reflexivity.
Qed.

Lemma finished_run trace s :
  (e_stdout (fst s) = Finished ->
   e_stdout (fst (run TypeError_text s trace)) = Finished) /\
  (e_stderr (fst s) = Finished ->
   e_stderr (fst (run TypeError_text s trace)) = Finished).
Proof.
  revert s. induction trace as [|ev trace IH]; intros s; [auto|].
  cbn [run fold_left]. fold (run TypeError_text (step TypeError_text ev s) trace).
  destruct (IH (step TypeError_text ev s)) as [H1 H2].
  destruct (finished_step ev s) as [H3 H4]. auto.
Qed.

(** X24. Once the stream takes no more chunks (closed after the exit, or
    cancelled), a loop leaves at its next read: the text it decoded is
    pushed to [outputLines] but not enqueued, and the loop never reads
    again. *)
Theorem loops_leave_after_close
    (s : Exec * World) (value : list byte) (more : list Event)
    (Hclosed : canCloseOrEnqueue (e_controller (fst s)) = false) :
  (forall d,
     e_stdout (fst s) = Reading d ->
     let s' := step TypeError_text (EvStdout value) s in
     e_outputLines (fst s') = e_outputLines (fst s) ++ [snd (decode d value)] /\
     e_enqueued (fst s') = e_enqueued (fst s) /\
     e_stdout (fst (run TypeError_text s' more)) = Finished) /\
  (forall d,
     e_stderr (fst s) = Reading d ->
     let s' := step TypeError_text (EvStderr value) s in
     e_outputLines (fst s')
       = e_outputLines (fst s) ++ [STDERR_TAG ++ snd (decode d value)] /\
     e_enqueued (fst s') = e_enqueued (fst s) /\
     e_stderr (fst (run TypeError_text s' more)) = Finished).
Proof.
  split; intros d Hd s'.
  - assert (H : e_outputLines (fst s')
                = e_outputLines (fst s) ++ [snd (decode d value)] /\
                e_enqueued (fst s') = e_enqueued (fst s) /\
                e_stdout (fst s') = Finished).
    { subst s'. destruct s as [e w]. break_exec e.
      cbn [fst e_controller e_stdout e_outputLines e_enqueued] in *. subst.
      unfold canCloseOrEnqueue in Hclosed. cbn [c_state c_closeRequested] in Hclosed.
      unfold_step. reduce_step. destruct (decode d value) as [d' t].
      reduce_step. rewrite Hclosed. reduce_step. auto. }
    destruct H as (H1 & H2 & H3). split; [exact H1|]. split; [exact H2|].
    now apply finished_run.
  - assert (H : e_outputLines (fst s')
                = e_outputLines (fst s) ++ [STDERR_TAG ++ snd (decode d value)] /\
                e_enqueued (fst s') = e_enqueued (fst s) /\
                e_stderr (fst s') = Finished).
    { subst s'. destruct s as [e w]. break_exec e.
      cbn [fst e_controller e_stderr e_outputLines e_enqueued] in *. subst.
      unfold canCloseOrEnqueue in Hclosed. cbn [c_state c_closeRequested] in Hclosed.
      unfold_step. reduce_step. destruct (decode d value) as [d' t].
      reduce_step. rewrite Hclosed. reduce_step. auto. }
    destruct H as (H1 & H2 & H3). split; [exact H1|]. split; [exact H2|].
    now apply finished_run.
Qed.

(** Every record since the start carries the script name and mapping of
    the closure. *)
Lemma records_step ev s L0 :
  (exists new, w_ledger (snd s) = L0 ++ new /\
     Forall (fun r => lc_scriptName r = e_scriptName (fst s) /\
                      lc_params r = e_params (fst s)) new) ->
  exists new, w_ledger (snd (step TypeError_text ev s)) = L0 ++ new /\
    Forall (fun r => lc_scriptName r = e_scriptName (fst s) /\
                     lc_params r = e_params (fst s)) new.
Proof.
  destruct s as [e w]. break_exec e.
  cbn [fst snd e_scriptName e_params]. intros (new & HL & Hall).
  destruct ev; split_step; try (exists new; split; assumption).
  all: rewrite HL, <- app_assoc; eexists; split; [reflexivity|];
    apply Forall_app; split; [exact Hall|]; repeat constructor.
Qed.

(** X25. Every record an execution writes carries the name of the script
    and the parameter mapping of the request as it was given, keys that
    the script does not declare included. *)
Theorem records_carry_the_request
    (script : ScriptMetadata) (params : gmap (list N) JSValue) (w : World)
    (trace : list Event) :
  exists new,
    w_ledger (snd (run TypeError_text (started script params, w) trace))
      = w_ledger w ++ new /\
    Forall (fun r => lc_scriptName r = sm_name script /\ lc_params r = params) new.
Proof.
  assert (H : forall s,
            (exists new, w_ledger (snd s) = w_ledger w ++ new /\
               Forall (fun r => lc_scriptName r = e_scriptName (fst s) /\
                                lc_params r = e_params (fst s)) new) ->
            exists new, w_ledger (snd (run TypeError_text s trace)) = w_ledger w ++ new /\
               Forall (fun r => lc_scriptName r = e_scriptName (fst s) /\
                                lc_params r = e_params (fst s)) new).
  { induction trace as [|ev trace IH]; intros s Hs; [exact Hs|].
    cbn [run fold_left]. fold (run TypeError_text (step TypeError_text ev s) trace).
    destruct (step_closure TypeError_text ev s) as [Hn Hp].
    rewrite <- Hn, <- Hp. apply IH. rewrite Hn, Hp.
    now apply records_step. }
  apply (H (started script params, w)).
  exists []. split; [now rewrite app_nil_r|constructor].
Qed.

End Process.

Lemma loops_leave_after_close_witness :
  let s := run a_TypeError (started hello_script ada_params, hello_world)
             [EvExited (Some 0%Z)] in
  let s' := step a_TypeError (EvStdout [x48; x69]) s in
  e_outputLines (fst s') = [exitMessage (Some 0%Z); lit "Hi"] /\
  e_enqueued (fst s') = [(Synthetic, exitMessage (Some 0%Z))].
Proof.
  cbv zeta.
  destruct (loops_leave_after_close a_TypeError
              (run a_TypeError (started hello_script ada_params, hello_world)
                 [EvExited (Some 0%Z)]) [x48; x69] [] eq_refl) as [H _].
  destruct (H newTextDecoder eq_refl) as (H1 & H2 & _).
  rewrite H1, H2. split; vm_compute; reflexivity.
Defined.

(** ** The untouched form *)









(** A required string parameter named [__proto__] passes from the
    untouched form: the form has no such property, and the server reads
    [Object.prototype]. *)
Example untouched_proto_is_bound :
  build_args
    (List.map declared
       [ {| cp_name := lit "__proto__"; cp_type := TString; cp_required := true;
            cp_default := JUndefined |} ])
    (initial_form
       [ {| cp_name := lit "__proto__"; cp_type := TString; cp_required := true;
            cp_default := JUndefined |} ]) []
  = Return [lit "[object Object]"].
Proof. vm_compute. reflexivity. Qed.

(** ** Annotation lines *)

Lemma drop_while_all f l rest :
  forallb f l = true -> drop_while f (l ++ rest) = drop_while f rest.
Proof.
  induction l as [|a l IH]; intros H; [reflexivity|].
  cbn [forallb] in H. apply andb_true_iff in H as [Ha Hl].
  cbn [app drop_while]. rewrite Ha. now apply IH.
Qed.

Lemma take_while_all_then f l c rest :
  forallb f l = true -> f c = false ->
  take_while f (l ++ c :: rest) = l /\ drop_while f (l ++ c :: rest) = c :: rest.
Proof.
  intros Hl Hc. induction l as [|a l IH].
  - cbn [app take_while drop_while]. now rewrite Hc.
  - cbn [forallb] in Hl. apply andb_true_iff in Hl as [Ha Hl].
    cbn [app take_while drop_while]. rewrite Ha.
    destruct (IH Hl) as [-> ->]. auto.
Qed.

Lemma forallb_rev_true {A} (f : A -> bool) (l : list A) :
  forallb f l = true -> forallb f (rev l) = true.
Proof.
  rewrite !forallb_forall. intros H x Hx. apply H. now apply in_rev.
Qed.

Lemma trim_wrapped indent s trailing c rest z :
  forallb is_space indent = true -> forallb is_space trailing = true ->
  s = c :: rest -> is_space c = false ->
  last s = Some z -> is_space z = false ->
  trim (indent ++ s ++ trailing) = s.
Proof.
  intros Hi Ht -> Hc Hl Hz. unfold trim.
  rewrite drop_while_all by exact Hi.
  cbn [app drop_while]. rewrite Hc.
  change (c :: rest ++ trailing) with ((c :: rest) ++ trailing).
  rewrite rev_app_distr.
  rewrite drop_while_all by (apply forallb_rev_true; exact Ht).
  apply last_Some in Hl as [front E]. rewrite E, rev_app_distr.
  cbn [rev app drop_while]. rewrite Hz. cbn [rev].
  now rewrite rev_involutive.
Qed.

(** X27. An annotation line is read back: a hash or two slashes, spaces
    or none, an at sign, a tag of word characters, spaces, and a value
    that begins and ends with a character that is no space and holds no
    line terminator, with any indentation before and any spaces after,
    gives that tag and that value. *)
Theorem match_tag_reads_annotation_line
    (indent spaces1 spaces2 trailing tag value : list N)
    (Hindent : forallb is_space indent = true)
    (Hspaces1 : forallb is_space spaces1 = true)
    (Hspaces2 : forallb is_space spaces2 = true)
    (Htrailing : forallb is_space trailing = true)
    (Htag : plain_tag tag = true) (Hvalue : plain_value value = true) :
  let rest := spaces1 ++ 64 :: tag ++ SPACE :: spaces2 ++ value in
  match_tag (trim (indent ++ (35 :: rest) ++ trailing)) = Some (tag, value) /\
  match_tag (trim (indent ++ (47 :: 47 :: rest) ++ trailing)) = Some (tag, value).
Proof.
  unfold plain_tag in Htag. destruct tag as [|t tag]; [discriminate|].
  unfold plain_value in Hvalue. destruct value as [|c v]; [discriminate|].
  apply andb_true_iff in Hvalue as [Hv Hdot].
  apply andb_true_iff in Hv as [Hc Hlast].
  apply negb_true_iff in Hc. apply negb_true_iff in Hlast.
  intros rest.
  assert (Hbody : match_tag_after_marker rest = Some (t :: tag, c :: v)).
  { unfold rest, match_tag_after_marker.
    rewrite drop_while_all by exact Hspaces1. cbn [drop_while].
    change (is_space 64) with false. cbv iota.
    destruct (take_while_all_then is_word (t :: tag) SPACE (spaces2 ++ c :: v))
      as [-> ->]; [exact Htag|reflexivity|].
    change (SPACE :: spaces2 ++ c :: v) with ((SPACE :: spaces2) ++ c :: v).
    destruct (take_while_all_then is_space (SPACE :: spaces2) c v) as [-> ->];
      [cbn [forallb]; now rewrite Hspaces2|exact Hc|].
    rewrite Hdot. destruct spaces2; reflexivity. }
  destruct (exists_last (l := c :: v)) as (front & z & E); [discriminate|].
  assert (Hz : is_space z = false)
    by (rewrite E in Hlast; now rewrite List.last_last in Hlast).
  assert (Hlz : last rest = Some z).
  { unfold rest. rewrite E.
    repeat (rewrite last_app || rewrite last_cons). reflexivity. }
  assert (T1 : trim (indent ++ (35 :: rest) ++ trailing) = 35 :: rest).
  { apply (trim_wrapped indent (35 :: rest) trailing 35 rest z);
      try assumption; try reflexivity.
    now rewrite last_cons, Hlz. }
  assert (T2 : trim (indent ++ (47 :: 47 :: rest) ++ trailing) = 47 :: 47 :: rest).
  { apply (trim_wrapped indent (47 :: 47 :: rest) trailing 47 (47 :: rest) z);
      try assumption; try reflexivity.
    now rewrite !last_cons, Hlz. }
  rewrite T1, T2. split; exact Hbody.
Qed.

Lemma match_tag_reads_annotation_line_witness :
  match_tag (trim (lit "  # @param port:number:required The port  "))
    = Some (lit "param", lit "port:number:required The port").
Proof.
  destruct (match_tag_reads_annotation_line (lit "  ") (lit " ") [] (lit "  ")
              (lit "param") (lit "port:number:required The port")
              eq_refl eq_refl eq_refl eq_refl eq_refl eq_refl) as [H _].
  exact H.
Defined.
